(** * Intercept lifecycle of the Telepresence client and traffic-manager

    A shallow embedding of the intercept reconciliation engine:

    - [PortMatcher]: [findIntercept] of the traffic-manager state;
    - [Provisioner]: [checkInterceptAnnotations], [getOrCreateAgentConfig],
      [waitForAgents], [writeEventList], [ensureAgent], [dropAgentConfig];
    - [TrafficMgr]: the client session: [setCurrentIntercepts],
      [handleInterceptSnapshot], [watchInterceptsLoop], [removeIntercept],
      [ensureNoInterceptConflict], the wait loop of [AddIntercept] and
      [InterceptInfo];
    - [InterceptState]: the finalizers of an intercept;
    - [TrafficMgrHandlers]: [AddInterceptor], [RemoveInterceptor],
      [GetInterceptInfo], [ClearIngestsAndIntercepts];
    - [Preparation]: [PrepareIntercept] and [EnsureAgent].

    Go strings are [string]; Go maps are [gmap]; [fmt.Sprintf] with [%s]
    verbs is string concatenation; blocking [select] statements are driven by
    an explicit schedule of the cases that fire; side effects on
    collaborators (control plane, mounts, logs) are recorded in a trace. *)

From Stdlib Require Import ZArith Lia Ascii.
From stdpp Require Import base option list gmap strings fin_maps sorting.

(** stdpp keeps [String.append] folded; the messages built below are
    compared by computation, so let [simpl] unfold it on constructors. *)
#[local] Arguments String.append !_ _ / : simpl nomatch.

(** ** Strings *)

Module GoStrings.

(** [strings.HasPrefix s prefix] *)
Fixpoint HasPrefix (s prefix : string) {struct prefix} : bool :=
  match prefix, s with
  | EmptyString, _ => true
  | String _ _, EmptyString => false
  | String p prefix', String c s' =>
      if bool_decide (p = c) then HasPrefix s' prefix' else false
  end.

(** [strings.Contains s substr] *)
Fixpoint Contains (s substr : string) : bool :=
  if HasPrefix s substr then true
  else match s with
       | EmptyString => false
       | String _ s' => Contains s' substr
       end.

End GoStrings.

(** ** Errors *)

Module Errcat.

(** gRPC status codes that the modelled functions produce. *)
Inductive Code := Canceled | NotFound.

(** A Go [error] value: [errcat.User.New] categorises its text as a user
    error, [errors.New] and [fmt.Errorf] leave it uncategorised, and
    [status.Error] carries a gRPC code. *)
Inductive error :=
| UserError (msg : string)
| PlainError (msg : string)
| StatusError (code : Code) (msg : string).

Definition Error (e : error) : string :=
  match e with
  | UserError m | PlainError m | StatusError _ m => m
  end.

Inductive Category := CatUnknown | CatUser.

Definition GetCategory (e : error) : Category :=
  match e with
  | UserError _ => CatUser
  | _ => CatUnknown
  end.

End Errcat.

(** ** Port matcher *)

Module PortMatcher.
Import Errcat GoStrings.

(** [agentconfig.Intercept] *)
Record Intercept := {
  ic_ServiceName : string;
  ic_ServiceUID : string;
  ic_ServicePortName : string;
  ic_ServicePort : Z;
  ic_Protocol : string;
  ic_ContainerPort : Z;
}.

(** [agentconfig.Container] *)
Record Container := {
  cn_Name : string;
  cn_Intercepts : list Intercept;
  cn_Replace : Z;
}.

(** [agentconfig.Sidecar] *)
Record Sidecar := {
  ac_WorkloadKind : string;
  ac_WorkloadName : string;
  ac_Namespace : string;
  ac_AgentName : string;
  ac_AgentImage : string;
  ac_Containers : list Container;
}.

(** The fields of [managerrpc.InterceptSpec] read by the matcher. *)
Record MatchSpec := {
  ms_ServiceName : string;
  ms_PortIdentifier : string;
  ms_ContainerName : string;
}.

#[export] Instance Intercept_eq_dec : EqDecision Intercept.
Proof. solve_decision. Defined.
#[export] Instance Container_eq_dec : EqDecision Container.
Proof. solve_decision. Defined.

Section Matcher.
(** [agentconfig.IsInterceptForService] and
    [agentconfig.IsInterceptForContainer] live in another package. *)
Variable IsInterceptForService : string → Intercept → bool.
Variable IsInterceptForContainer : string → Intercept → bool.

Variable ac : Sidecar.
Variable spec : MatchSpec.

Definition workloadLabel : string :=
  ac_WorkloadKind ac +:+ " " +:+ ac_WorkloadName ac +:+ "." +:+ ac_Namespace ac.

(** The [switch] that builds the message for a second matching rule. *)
Definition ambiguityMsg : string :=
  let pi := ms_PortIdentifier spec in
  if bool_decide (ms_ServiceName spec = "") && bool_decide (pi = "") then
    workloadLabel +:+ " has multiple interceptable ports." +:+ "
" +:+ "Please specify the service and/or port you want to intercept "
      +:+ "by passing the --service=<svc> and/or --port=<local:portName/portNumber> flag."
  else if bool_decide (ms_ServiceName spec = "") then
    workloadLabel +:+ " has multiple interceptable services with port " +:+ pi +:+ "." +:+ "
" +:+ "Please specify the service you want to intercept by passing the --service=<svc> flag."
  else if bool_decide (pi = "") then
    workloadLabel +:+ " has multiple interceptable ports in service "
      +:+ ms_ServiceName spec +:+ "." +:+ "
" +:+ "Please specify the port you want to intercept by passing the --port=<local:svcPortName> flag."
  else
    workloadLabel +:+ " intercept config is broken. Service " +:+ ms_ServiceName spec
      +:+ ", port " +:+ pi +:+ " is declared more than once" +:+ "
".

(** The message built when the loops end without a candidate. *)
Definition noPortMsg : string :=
  let pi := ms_PortIdentifier spec in
  let ss :=
    if negb (bool_decide (ms_ServiceName spec = "")) then
      if negb (bool_decide (pi = "")) then
        " matching service " +:+ ms_ServiceName spec +:+ ", port " +:+ pi
      else " matching service " +:+ ms_ServiceName spec
    else if negb (bool_decide (pi = "")) then " matching port " +:+ pi
    else "" in
  workloadLabel +:+ " has no interceptable port" +:+ ss.

(** The two [continue] guards at the head of the inner loop body. *)
Definition ruleMatches (ic : Intercept) : bool :=
  let pi := ms_PortIdentifier spec in
  if negb (bool_decide (ms_ServiceName spec = "")
           || bool_decide (ms_ServiceName spec = ic_ServiceName ic))
  then false
  else if negb (bool_decide (pi = "")) then
    if negb (bool_decide (ic_ServiceUID ic = ""))
    then IsInterceptForService pi ic
    else IsInterceptForContainer pi ic
  else true.

(** [for _, cx := range ac.Containers { if cx.Name == spec.ContainerName ... break }] *)
Fixpoint containerNamed (cns : list Container) : option Container :=
  match cns with
  | [] => None
  | cx :: cns' =>
      if bool_decide (cn_Name cx = ms_ContainerName spec) then Some cx
      else containerNamed cns'
  end.

(** The value given to [foundCN] when the first rule matches. *)
Definition resolveContainer (cn : Container) : Container :=
  if negb (bool_decide (ms_ContainerName spec = "")) then
    match containerNamed (ac_Containers ac) with
    | Some cx => cx
    | None => cn
    end
  else cn.

(** Inner loop over [cn.Intercepts]; [inl] is the early error return. *)
Fixpoint scanIntercepts (cn : Container) (ics : list Intercept)
    (found : option (Container * Intercept))
    : error + option (Container * Intercept) :=
  match ics with
  | [] => inr found
  | ic :: ics' =>
      if ruleMatches ic then
        match found with
        | None => scanIntercepts cn ics' (Some (resolveContainer cn, ic))
        | Some _ => inl (UserError ambiguityMsg)
        end
      else scanIntercepts cn ics' found
  end.

(** Outer loop over [ac.Containers]. *)
Fixpoint scanContainers (cns : list Container)
    (found : option (Container * Intercept))
    : error + option (Container * Intercept) :=
  match cns with
  | [] => inr found
  | cn :: cns' =>
      match scanIntercepts cn (cn_Intercepts cn) found with
      | inl e => inl e
      | inr found' => scanContainers cns' found'
      end
  end.

Definition findIntercept : error + (Container * Intercept) :=
  match scanContainers (ac_Containers ac) None with
  | inl e => inl e
  | inr (Some p) => inr p
  | inr None => inl (UserError noPortMsg)
  end.

(** [foundCN] points into [ac.Containers]; this is the position it
    points at: the first container with the requested name if there is
    one, else the container that declares the first matching rule. *)
Definition foundContainerIndex : option nat :=
  let declaring :=
    fst <$> list_find (λ cn, existsb ruleMatches (cn_Intercepts cn) = true)
                      (ac_Containers ac) in
  if negb (bool_decide (ms_ContainerName spec = "")) then
    match list_find (λ cx, cn_Name cx = ms_ContainerName spec) (ac_Containers ac) with
    | Some (i, _) => Some i
    | None => declaring
    end
  else declaring.

(** Specification vocabulary: the declared (container, rule) pairs in
    iteration order, and those among them that match the request. *)
Definition declaredPairs (cns : list Container) : list (Container * Intercept) :=
  cns ≫= λ cn, (λ ic, (cn, ic)) <$> cn_Intercepts cn.

Definition matchingPairs (cns : list Container) : list (Container * Intercept) :=
  filter (λ p, ruleMatches p.2 = true) (declaredPairs cns).

(** The matching rules of one container, paired with it. *)
Definition matchingOf (cn : Container) : list (Container * Intercept) :=
  (λ ic, (cn, ic)) <$> filter (λ ic, ruleMatches ic = true) (cn_Intercepts cn).

(** What the message for a second matching rule says, by which of
    service name and port identifier the request carried. *)
Definition ambiguityAdvice (msg : string) : Prop :=
  match bool_decide (ms_ServiceName spec = ""), bool_decide (ms_PortIdentifier spec = "") with
  | true, true =>
      Contains msg "--service=<svc>" = true ∧ Contains msg "--port=<local:" = true
  | true, false => Contains msg "--service=<svc> flag" = true
  | false, true => Contains msg "--port=<local:svcPortName> flag" = true
  | false, false =>
      msg = workloadLabel +:+ " intercept config is broken. Service "
            +:+ ms_ServiceName spec +:+ ", port " +:+ ms_PortIdentifier spec
            +:+ " is declared more than once" +:+ "
"
  end.

(** What the message for zero matching rules says about the filters. *)
Definition filtersDescribed (msg : string) : Prop :=
  Contains msg " has no interceptable port" = true ∧
  match bool_decide (ms_ServiceName spec = ""), bool_decide (ms_PortIdentifier spec = "") with
  | true, true => msg = workloadLabel +:+ " has no interceptable port"
  | true, false => Contains msg (" matching port " +:+ ms_PortIdentifier spec) = true
  | false, true => Contains msg (" matching service " +:+ ms_ServiceName spec) = true
  | false, false =>
      Contains msg (" matching service " +:+ ms_ServiceName spec
                    +:+ ", port " +:+ ms_PortIdentifier spec) = true
  end.

End Matcher.

End PortMatcher.

(** ** Agent provisioner *)

Module Provisioner.
Import Errcat GoStrings PortMatcher.

(** The parts of a [k8sapi.Workload] that the provisioner reads: kind,
    name, namespace, the annotations of its pod template ([None] is the
    nil map) and the names of the pod template's containers. *)
Record Workload := {
  wl_Kind : string;
  wl_Name : string;
  wl_Namespace : string;
  wl_Annotations : option (gmap string string);
  wl_Containers : list string;
}.

(** [managerrpc.AgentInfo] *)
Record AgentInfo := {
  ai_Kind : string;
  ai_Name : string;
  ai_Namespace : string;
  ai_PodName : string;
}.

(** [events.Event] *)
Record Event := {
  ev_Type : string;
  ev_Reason : string;
  ev_Note : string;
  ev_RegardingKind : string;
  ev_RegardingName : string;
  ev_CreationTimestamp : Z;
}.

(** The fields of [managerrpc.InterceptSpec] read by the provisioner. *)
Record InterceptSpec := {
  spec_Match : MatchSpec;
  spec_Mechanism : string;
  spec_Replace : Z;
}.

(** Constants and functions of other packages and of the Go library. *)
Record Collaborators := {
  ManualInjectAnnotation : string;
  InjectAnnotation : string;
  ContainerName : string;
  ConfigMap : string;
  IsInterceptForService : string → Intercept → bool;
  IsInterceptForContainer : string → Intercept → bool;
  (** [agentconfig.UnmarshalYAML] and [SidecarExt.Marshal] *)
  UnmarshalYAML : string → string + Sidecar;
  Marshal : Sidecar → error + string;
  (** [agentmap.GeneratorConfigFunc(agentImage)] followed by [Generate] *)
  Generate : string → Workload → error + Sidecar;
  (** [mutator.Map.IsBlacklisted] *)
  IsBlacklisted : string → string → bool;
  (** [FindStringSubmatch] of the failed-container expression compiled
      for a namespace: the container and the pod that it captures *)
  failedContainerRx : string → string → option (string * string);
  (** the rendering of [now.Sub(e.CreationTimestamp.Time)] *)
  age : Event → string;
  (** the width that [fmt] measures, [utf8.RuneCountInString] *)
  RuneCount : string → nat;
  ToLower : string → string;
}.

(** Calls on collaborators, in the order they are made. *)
Inductive effect :=
| FetchPodLog (pod cn : string)
| DeactivateAgents (name ns : string)
| DeleteConfig (name ns : string)
| LogError (msg : string).

#[export] Instance effect_eq_dec : EqDecision effect.
Proof. solve_decision. Defined.

(** Go's [m[k]] on a [map[string]string]. *)
Definition goLookup (m : gmap string string) (k : string) : string :=
  default "" (m !! k).

Section WithCollaborators.
Variable d : Collaborators.

Definition hasAgentContainer (wl : Workload) : bool :=
  existsb (λ n, bool_decide (n = ContainerName d)) (wl_Containers wl).

Definition checkInterceptAnnotations (wl : Workload) : error + bool :=
  match wl_Annotations wl with
  | None => inr true
  | Some a =>
      let manuallyManaged := bool_decide (goLookup a (ManualInjectAnnotation d) = "true") in
      let ia := goLookup a (InjectAnnotation d) in
      let switch : error + bool :=
        if bool_decide (ia = "") then inr (negb manuallyManaged)
        else if bool_decide (ia = "enabled") then inr true
        else if bool_decide (ia = "false") || bool_decide (ia = "disabled") then inr false
        else inl (UserError (ia +:+ " is not a valid value for the " +:+ wl_Name wl +:+ "."
                             +:+ wl_Namespace wl +:+ "/" +:+ ManualInjectAnnotation d
                             +:+ " annotation")) in
      match switch with
      | inl e => inl e
      | inr webhookEnabled =>
          if negb manuallyManaged then inr webhookEnabled
          else if hasAgentContainer wl then inr true
          else inl (UserError ("annotation " +:+ wl_Name wl +:+ "." +:+ wl_Namespace wl
                               +:+ "/" +:+ ManualInjectAnnotation d
                               +:+ "=true but pod has no traffic-agent container"))
      end
  end.


Definition ValidateAgentImage (agentImage : string) (extended : bool) : option error :=
  if bool_decide (agentImage = "") then
    Some (UserError
      "intercepts are disabled because the traffic-manager is unable to determine what image to use for injected traffic-agents.")
  else if extended then
    Some (UserError
      "traffic-manager does not support intercepts that require an extended traffic-agent")
  else None.

Definition unmarshalConfigMapEntry (y name namespace : string) : error + Sidecar :=
  match UnmarshalYAML d y with
  | inl e => inl (PlainError ("failed to parse entry for " +:+ name +:+ " in ConfigMap "
                              +:+ ConfigMap d +:+ "." +:+ namespace +:+ ": " +:+ e))
  | inr scx => inr scx
  end.

(** [updateSidecar]: the entry is rewritten only when its text changes. *)
Definition updateSidecar (sce : Sidecar) (cm : gmap string string) (n : string)
    : error + (bool * gmap string string) :=
  match Marshal d sce with
  | inl e => inl e
  | inr newYaml =>
      if negb (bool_decide (goLookup cm n = newYaml))
      then inr (true, <[n := newYaml]> cm)
      else inr (false, cm)
  end.

(** *** Waiting for an agent *)

(** One iteration of the [select] in [waitForAgents]: the case that
    fires and what it receives ([None] is a closed channel). *)
Inductive waitEvent :=
| FailedCreate (fe : option Event)
| Snapshot (snapshot : option (list AgentInfo))
| CtxDone (deadlineExceeded : bool).

Definition object (e : Event) : string :=
  ToLower d (ev_RegardingKind e) +:+ "/" +:+ ev_RegardingName e.

(** [%-*s]: [s] followed by spaces up to [width]. *)
Definition padRight (width : nat) (s : string) : string :=
  s +:+ String.concat "" (replicate (width - RuneCount d s) " ").

Definition columnWidth (title : string) (cell : Event → string) (es : list Event) : nat :=
  foldl (λ w e, if decide (w < String.length (cell e)) then String.length (cell e) else w)
        (String.length title) es + 3.

Definition eventRow (ageLen typeLen reasonLen objectLen : nat)
    (a t r o m : string) : string :=
  padRight ageLen a +:+ padRight typeLen t +:+ padRight reasonLen r
    +:+ padRight objectLen o +:+ m +:+ "
".

Definition writeEventList (es : list Event) : string :=
  let ageLen := columnWidth "AGE" (age d) es in
  let typeLen := columnWidth "TYPE" ev_Type es in
  let reasonLen := columnWidth "REASON" ev_Reason es in
  let objectLen := columnWidth "OBJECT" object es in
  eventRow ageLen typeLen reasonLen objectLen "AGE" "TYPE" "REASON" "OBJECT" "MESSAGE"
  +:+ String.concat ""
        ((λ e, eventRow ageLen typeLen reasonLen objectLen
                 (age d e) (ev_Type e) (ev_Reason e) (object e) (ev_Note e)) <$> es).

(** The substrings that make a failed injection or scheduling event a
    transient one. *)
Definition transientNote (msg : string) : bool :=
  Contains msg "waiting for ephemeral volume"
  || Contains msg "unbound immediate PersistentVolumeClaims"
  || Contains msg "skip schedule deleting pod"
  || Contains msg "nodes are available".

(** The [switch fe.Reason] of [waitForAgents]: [inl] is the message of
    the immediate failure, [inr] buffers the event; the effects are the
    log fetches. *)
Definition classifyEvent (namespace : string) (fe : Event)
    : (string + unit) * list effect :=
  let msg := ev_Note fe in
  if bool_decide (ev_Reason fe = "BackOff") then
    (inl (msg +:+ "
The logs of " +:+ ev_RegardingKind fe +:+ " " +:+ ev_RegardingName fe
              +:+ " might provide more details"),
     match failedContainerRx d namespace msg with
     | Some (cn, pod) => [FetchPodLog pod cn]
     | None => []
     end)
  else if bool_decide (ev_Reason fe = "Failed") || bool_decide (ev_Reason fe = "FailedCreate")
          || bool_decide (ev_Reason fe = "FailedScheduling") then
    if bool_decide (ev_Type fe = "Warning") && transientNote msg then (inr (), [])
    else
      (inl (msg +:+ "
Hint: if the error mentions resource quota, the traffic-agent's requested resources can be configured by providing values to telepresence helm install"),
       [])
  else (inr (), []).

Definition timeoutMsg (name namespace : string) (deadlineExceeded : bool)
    (fes : list Event) : string :=
  let v := if deadlineExceeded then "timed out" else "canceled" in
  "request " +:+ v +:+ " while waiting for agent " +:+ name +:+ "." +:+ namespace
    +:+ " to arrive"
    +:+ (if decide (0 < length fes)
         then ": Events that may be relevant:
" +:+ writeEventList fes
         else "").

(** [waitForAgents], driven by the cases that fire; [None] when the
    schedule ends with the call still blocked in its [select]. *)
Fixpoint waitLoop (name namespace : string) (sched : list waitEvent)
    (fes : list Event) : option ((error + list AgentInfo) * list effect) :=
  match sched with
  | [] => None
  | FailedCreate None :: _ => Some (inl (PlainError "failed create channel closed"), [])
  | FailedCreate (Some fe) :: sched' =>
      match classifyEvent namespace fe with
      | (inl msg, effs) => Some (inl (UserError msg), effs)
      | (inr _, effs) =>
          '(r, effs') ← waitLoop name namespace sched' (fes ++ [fe]);
          Some (r, effs ++ effs')
      end
  | Snapshot None :: _ =>
      Some (inl (StatusError Canceled
                   ("channel closed while waiting for agent " +:+ name +:+ "."
                    +:+ namespace +:+ " to arrive")), [])
  | Snapshot (Some state) :: sched' =>
      let as_ := filter (λ a, IsBlacklisted d (ai_PodName a) (ai_Namespace a) = false) state in
      if decide (0 < length state)
      then if decide (0 < length as_) then Some (inr as_, [])
           else waitLoop name namespace sched' fes
      else waitLoop name namespace sched' fes
  | CtxDone deadlineExceeded :: _ =>
      Some (inl (UserError (timeoutMsg name namespace deadlineExceeded fes)), [])
  end.

Definition waitForAgents (name namespace : string) (sched : list waitEvent)
    : option ((error + list AgentInfo) * list effect) :=
  waitLoop name namespace sched [].

(** *** The agent-config records *)

(** What is true of the traffic-manager when [ensureAgent] runs, and the
    failures that its surroundings may report. *)
Record Situation := {
  injectorEnabled : bool;
  agentImage : string;
  (** the registered agents, [s.agents] *)
  agents : list AgentInfo;
  (** a failure to start the watch of failed injection events *)
  watchErr : option error;
  (** [ctx.Err()] when the context ends before stale agents depart *)
  departErr : option error;
  (** a failure of [mutator.Map.Delete] *)
  dropErr : option error;
}.

(** Modelled from the spec: [mutator.Map], which is not among the
    sources. The agent-config records are persisted per namespace and
    per workload; [Get] reads one record, [Update] is a read-modify-write
    of a namespace's records that persists them when the callback
    reports a change and fails when the callback fails, and [Delete]
    drops the record of one workload. The store maps a namespace to the
    [Data] of its ConfigMap. *)
Definition mapGet (st : gmap string (gmap string string)) (name namespace : string)
    : error + option Sidecar :=
  match st !! namespace ≫= lookup name with
  | None => inr None
  | Some y =>
      match unmarshalConfigMapEntry y name namespace with
      | inl e => inl e
      | inr sce => inr (Some sce)
      end
  end.

Definition mapUpdate {A} (st : gmap string (gmap string string)) (namespace : string)
    (f : gmap string string → (error + (bool * gmap string string * A)) * list effect)
    : (error + A) * gmap string (gmap string string) * list effect :=
  match f (default ∅ (st !! namespace)) with
  | (inl e, effs) => (inl e, st, effs)
  | (inr (changed, cm, a), effs) =>
      (inr a, if changed then <[namespace := cm]> st else st, effs)
  end.

Definition mapDelete (st : gmap string (gmap string string)) (name namespace : string)
    : gmap string (gmap string string) :=
  alter (delete name) namespace st.

Definition setReplace (ac : Sidecar) (i : nat) (replace : Z) : Sidecar :=
  {| ac_WorkloadKind := ac_WorkloadKind ac; ac_WorkloadName := ac_WorkloadName ac;
     ac_Namespace := ac_Namespace ac; ac_AgentName := ac_AgentName ac;
     ac_AgentImage := ac_AgentImage ac;
     ac_Containers :=
       alter (λ cn, {| cn_Name := cn_Name cn; cn_Intercepts := cn_Intercepts cn;
                       cn_Replace := replace |}) i (ac_Containers ac) |}.

Definition setAgentImage (ac : Sidecar) (image : string) : Sidecar :=
  {| ac_WorkloadKind := ac_WorkloadKind ac; ac_WorkloadName := ac_WorkloadName ac;
     ac_Namespace := ac_Namespace ac; ac_AgentName := ac_AgentName ac;
     ac_AgentImage := image; ac_Containers := ac_Containers ac |}.

Definition staleAgents (sit : Situation) (wl : Workload) : list AgentInfo :=
  filter (λ info, ai_Kind info = wl_Kind wl ∧ ai_Name info = wl_Name wl
                  ∧ ai_Namespace info = wl_Namespace wl) (agents sit).

(** The callback that [getOrCreateAgentConfig] hands to [Update]. *)
Definition agentConfigCallback (sit : Situation) (wl : Workload) (extended : bool)
    (spec : option InterceptSpec) (cm : gmap string string)
    : (error + (bool * gmap string string * Sidecar)) * list effect :=
  let cmFound := bool_decide (is_Some (cm !! wl_Name wl)) in
  let entry : error + (Sidecar * bool) :=
    match cm !! wl_Name wl with
    | Some y =>
        match unmarshalConfigMapEntry y (wl_Name wl) (wl_Namespace wl) with
        | inl e => inl e
        | inr ac =>
            if negb (bool_decide (ac_AgentImage ac = agentImage sit)) && extended
            then inr (setAgentImage ac (agentImage sit), true)
            else inr (ac, false)
        end
    | None =>
        match Generate d (agentImage sit) wl with
        | inl e => inl e
        | inr sce =>
            if decide (0 < length (staleAgents sit wl)) then
              match departErr sit with
              | Some e => inl e
              | None => inr (sce, true)
              end
            else inr (sce, true)
        end
    end in
  match entry with
  | inl e => (inl e, [])
  | inr (ac, doUpdate) =>
      let policy : error + (Sidecar * bool) :=
        match spec with
        | None => inr (ac, doUpdate)
        | Some sp =>
            match findIntercept (IsInterceptForService d) (IsInterceptForContainer d)
                    ac (spec_Match sp) with
            | inl e => inl e
            | inr (cn, _) =>
                if negb (bool_decide (cn_Replace cn = spec_Replace sp)) then
                  match foundContainerIndex (IsInterceptForService d)
                          (IsInterceptForContainer d) ac (spec_Match sp) with
                  | Some i => inr (setReplace ac i (spec_Replace sp), true)
                  | None => inr (ac, true)
                  end
                else inr (ac, doUpdate)
            end
        end in
      match policy with
      | inl e => (inl e, [])
      | inr (sce, doUpdate) =>
          if doUpdate then
            let effs := if cmFound then [DeactivateAgents (wl_Name wl) (wl_Namespace wl)]
                        else [] in
            match updateSidecar sce cm (wl_Name wl) with
            | inl e => (inl e, effs)
            | inr (changed, cm') => (inr (changed, cm', sce), effs)
            end
          else (inr (false, cm, sce), [])
      end
  end.

Definition getOrCreateAgentConfig (sit : Situation) (wl : Workload) (extended : bool)
    (spec : option InterceptSpec) (st : gmap string (gmap string string))
    : (error + Sidecar) * gmap string (gmap string string) * list effect :=
  match checkInterceptAnnotations wl with
  | inl e => (inl e, st, [])
  | inr enabled =>
      if negb enabled then
        (inl (UserError (wl_Kind wl +:+ " " +:+ wl_Name wl +:+ "." +:+ wl_Namespace wl
                         +:+ " is not interceptable")), st, [])
      else
        match ValidateAgentImage (agentImage sit) extended with
        | Some e => (inl e, st, [])
        | None =>
            mapUpdate st (wl_Namespace wl) (agentConfigCallback sit wl extended spec)
        end
  end.

Definition dropAgentConfig (sit : Situation) (wl : Workload)
    (st : gmap string (gmap string string))
    : option error * gmap string (gmap string string) * list effect :=
  match dropErr sit with
  | Some e => (Some e, st, [DeleteConfig (wl_Name wl) (wl_Namespace wl)])
  | None => (None, mapDelete st (wl_Name wl) (wl_Namespace wl),
             [DeleteConfig (wl_Name wl) (wl_Namespace wl)])
  end.

(** [sortAgents]: by pod name. *)
Definition podNameLe (a b : AgentInfo) : Prop :=
  String.leb (ai_PodName a) (ai_PodName b) = true.

#[local] Instance podNameLe_dec : RelDecision podNameLe.
Proof. intros a b. unfold podNameLe. apply _. Defined.

Definition sortAgents (as_ : list AgentInfo) : list AgentInfo :=
  merge_sort podNameLe as_.

Definition ensureAgent (sit : Situation) (wl : Workload) (extended : bool)
    (spec : option InterceptSpec) (sched : list waitEvent)
    (st : gmap string (gmap string string))
    : option ((error + (Sidecar * list AgentInfo))
              * gmap string (gmap string string) * list effect) :=
  if negb (injectorEnabled sit) then
    match mapGet st (wl_Name wl) (wl_Namespace wl) with
    | inl e => Some (inl e, st, [])
    | inr (Some ac) =>
        let am := filter (λ ai, ai_Name ai = ac_AgentName ac
                                ∧ ai_Namespace ai = ac_Namespace ac) (agents sit) in
        Some (inr (ac, sortAgents am), st, [])
    | inr None =>
        Some (inl (UserError
                     ("agent-injector is disabled and no agent has been added manually for "
                      +:+ wl_Name wl +:+ "." +:+ wl_Namespace wl)), st, [])
    end
  else
    match watchErr sit with
    | Some e => Some (inl e, st, [])
    | None =>
        match getOrCreateAgentConfig sit wl extended spec st with
        | (inl e, st1, effs) => Some (inl e, st1, effs)
        | (inr ac, st1, effs) =>
            '(r, weffs) ← waitForAgents (ac_AgentName ac) (ac_Namespace ac) sched;
            match r with
            | inl err =>
                let '(dropped, st2, deffs) := dropAgentConfig sit wl st1 in
                let logged :=
                  match dropped with
                  | Some dropE =>
                      [LogError ("failed to remove configmap entry for " +:+ wl_Name wl
                                 +:+ "." +:+ wl_Namespace wl +:+ ": " +:+ Error dropE)]
                  | None => []
                  end in
                Some (inl err, st2, effs ++ weffs ++ deffs ++ logged)
            | inr as_ => Some (inr (ac, sortAgents as_), st1, effs ++ weffs)
            end
        end
    end.

(** *** Specification vocabulary *)

(** An event that ends the wait at once: any [BackOff] event, and a
    [Failed], [FailedCreate] or [FailedScheduling] event unless it is a
    [Warning] whose note has a transient substring. *)
Definition fatalEvent (fe : Event) : bool :=
  bool_decide (ev_Reason fe = "BackOff")
  || (bool_decide (ev_Reason fe ∈ ["Failed"; "FailedCreate"; "FailedScheduling"])
      && negb (bool_decide (ev_Type fe = "Warning") && transientNote (ev_Note fe))).

(** The agents of a snapshot that are not blacklisted. *)
Definition liveAgents (state : list AgentInfo) : list AgentInfo :=
  filter (λ a, IsBlacklisted d (ai_PodName a) (ai_Namespace a) = false) state.

(** A case of the [select] after which the wait goes on: an event that is
    not fatal, or a snapshot without a live agent. *)
Definition undecided (ev : waitEvent) : Prop :=
  match ev with
  | FailedCreate (Some fe) => fatalEvent fe = false
  | Snapshot (Some state) => liveAgents state = []
  | _ => False
  end.

(** The events that a run of undecided cases has buffered. *)
Definition buffered (sched : list waitEvent) : list Event :=
  omap (λ ev, match ev with FailedCreate (Some fe) => Some fe | _ => None end) sched.

Definition isDelete (e : effect) : bool :=
  match e with DeleteConfig _ _ => true | _ => false end.

(** The calls of [mutator.Map.Delete] among some effects. *)
Definition deletes (effs : list effect) : list effect :=
  filter (λ e, isDelete e = true) effs.

(** [s] is a table of the events [es]: a header row with the five column
    titles and one row per event, in columns that are at least three wider
    than the titles and than every cell. *)
Definition tableOf (es : list Event) (s : string) : Prop :=
  ∃ ageLen typeLen reasonLen objectLen : nat,
    (String.length "AGE" + 3 ≤ ageLen ∧ String.length "TYPE" + 3 ≤ typeLen
     ∧ String.length "REASON" + 3 ≤ reasonLen ∧ String.length "OBJECT" + 3 ≤ objectLen)
    ∧ (∀ e, e ∈ es →
         String.length (age d e) + 3 ≤ ageLen
         ∧ String.length (ev_Type e) + 3 ≤ typeLen
         ∧ String.length (ev_Reason e) + 3 ≤ reasonLen
         ∧ String.length (object e) + 3 ≤ objectLen)
    ∧ s = (padRight ageLen "AGE" +:+ padRight typeLen "TYPE" +:+ padRight reasonLen "REASON"
           +:+ padRight objectLen "OBJECT" +:+ "MESSAGE" +:+ "
")
          +:+ String.concat ""
                ((λ e, padRight ageLen (age d e) +:+ padRight typeLen (ev_Type e)
                       +:+ padRight reasonLen (ev_Reason e)
                       +:+ padRight objectLen (object e) +:+ ev_Note e +:+ "
") <$> es).

(** The outcome of the wait for a live agent, when [ensureAgent] gets as
    far as waiting. *)
Definition waitOutcome (sit : Situation) (wl : Workload) (extended : bool)
    (spec : option InterceptSpec) (sched : list waitEvent)
    (st : gmap string (gmap string string)) : option (error + list AgentInfo) :=
  if injectorEnabled sit && bool_decide (watchErr sit = None) then
    match getOrCreateAgentConfig sit wl extended spec st with
    | (inr ac, _, _) => fst <$> waitForAgents (ac_AgentName ac) (ac_Namespace ac) sched
    | _ => None
    end
  else None.

(** The record of a workload in the store. *)
Definition configEntry (st : gmap string (gmap string string)) (wl : Workload)
    : option string :=
  st !! wl_Namespace wl ≫= lookup (wl_Name wl).

End WithCollaborators.

(** *** Sample data *)

Definition sampleSidecar (image : string) (wl : Workload) : Sidecar :=
  {| ac_WorkloadKind := wl_Kind wl; ac_WorkloadName := wl_Name wl;
     ac_Namespace := wl_Namespace wl; ac_AgentName := wl_Name wl;
     ac_AgentImage := image;
     ac_Containers :=
       [{| cn_Name := "app";
           cn_Intercepts :=
             [{| ic_ServiceName := "echo"; ic_ServiceUID := "uid-1";
                 ic_ServicePortName := "http"; ic_ServicePort := 80;
                 ic_Protocol := "TCP"; ic_ContainerPort := 8080 |}];
           cn_Replace := 0 |}] |}.

(** Collaborators that are simple enough to compute with: the record of a
    workload is rendered as its agent image, no pod is blacklisted, and the
    failed-container expression never matches. *)
Definition sampleCollaborators : Collaborators :=
  {| ManualInjectAnnotation := "telepresence.io/manually-injected";
     InjectAnnotation := "telepresence.io/inject-traffic-agent";
     ContainerName := "traffic-agent";
     ConfigMap := "telepresence-agents";
     IsInterceptForService := λ pi ic, bool_decide (pi = ic_ServicePortName ic);
     IsInterceptForContainer := λ pi ic, bool_decide (pi = ic_ServicePortName ic);
     UnmarshalYAML := λ y, inl "not modelled";
     Marshal := λ sce, inr (ac_AgentImage sce);
     Generate := λ image wl, inr (sampleSidecar image wl);
     IsBlacklisted := λ _ _, false;
     failedContainerRx := λ _ _, None;
     age := λ _, "5s";
     RuneCount := String.length;
     ToLower := λ s, s |}.

Definition sampleWorkload (annotations : option (gmap string string))
    (containers : list string) : Workload :=
  {| wl_Kind := "Deployment"; wl_Name := "echo"; wl_Namespace := "default";
     wl_Annotations := annotations; wl_Containers := containers |}.

Definition sampleSituation : Situation :=
  {| injectorEnabled := true; agentImage := "tel2:2.0"; agents := [];
     watchErr := None; departErr := None; dropErr := None |}.

Definition sampleAgent : AgentInfo :=
  {| ai_Kind := "Deployment"; ai_Name := "echo"; ai_Namespace := "default";
     ai_PodName := "echo-7d9f" |}.

Definition backOffEvent : Event :=
  {| ev_Type := "Warning"; ev_Reason := "BackOff";
     ev_Note := "Back-off pulling image"; ev_RegardingKind := "Pod";
     ev_RegardingName := "echo-7d9f"; ev_CreationTimestamp := 0 |}.

Definition unhealthyEvent : Event :=
  {| ev_Type := "Warning"; ev_Reason := "Unhealthy";
     ev_Note := "Readiness probe failed"; ev_RegardingKind := "Pod";
     ev_RegardingName := "echo-7d9f"; ev_CreationTimestamp := 0 |}.

End Provisioner.

(** ** Client session *)

Module TrafficMgr.
Import Errcat.

(** [manager.InterceptDispositionType] *)
Inductive Disposition :=
| UNSPECIFIED | ACTIVE | WAITING | REMOVED | NO_CLIENT | NO_AGENT
| NO_MECHANISM | NO_PORTS | AGENT_ERROR | BAD_ARGS.

#[export] Instance Disposition_eq_dec : EqDecision Disposition.
Proof. solve_decision. Defined.

Definition dispositionString (disposition : Disposition) : string :=
  match disposition with
  | UNSPECIFIED => "UNSPECIFIED" | ACTIVE => "ACTIVE" | WAITING => "WAITING"
  | REMOVED => "REMOVED" | NO_CLIENT => "NO_CLIENT" | NO_AGENT => "NO_AGENT"
  | NO_MECHANISM => "NO_MECHANISM" | NO_PORTS => "NO_PORTS"
  | AGENT_ERROR => "AGENT_ERROR" | BAD_ARGS => "BAD_ARGS"
  end.

(** [common.InterceptError] *)
Inductive InterceptError :=
| IE_UNSPECIFIED | IE_ALREADY_EXISTS | IE_LOCAL_TARGET_IN_USE | IE_MOUNT_POINT_BUSY
| IE_NAMESPACE_AMBIGUITY | IE_TRAFFIC_MANAGER_ERROR | IE_FAILED_TO_ESTABLISH
| IE_MISCONFIGURED_WORKLOAD.

(** The fields of [manager.InterceptSpec] that the session reads or writes. *)
Record InterceptSpec := {
  Name : string;
  Client : string;
  Agent : string;
  Namespace : string;
  Mechanism : string;
  TargetHost : string;
  TargetPort : Z;
  ContainerName : string;
  ServiceName : string;
  ServicePortName : string;
  ServicePort : Z;
  PortIdentifier : string;
  Protocol : string;
  ContainerPort : Z;
  ServiceUid : string;
  WorkloadKind : string;
  RoundtripLatency : Z;
  DialTimeout : Z;
}.

(** [manager.InterceptInfo] *)
Record InterceptInfo := {
  Id : string;
  Spec : InterceptSpec;
  Disposition_ : Disposition;
  Message : string;
  PodIp : string;
  SftpPort : Z;
  FtpPort : Z;
  MountPoint : string;
  ClientMountPoint : string;
  Environment : gmap string string;
  Headers : gmap string string;
  Metadata : gmap string string;
}.

(** [manager.PreparedIntercept] *)
Record PreparedIntercept := {
  pi_Error : string;
  pi_ErrorCategory : Category;
  pi_ServiceUid : string;
  pi_ServiceName : string;
  pi_ServicePortName : string;
  pi_ServicePort : Z;
  pi_Protocol : string;
  pi_ContainerPort : Z;
  pi_WorkloadKind : string;
}.

(** Contexts, as far as their cancellation and deadline go. [Session] is
    the context of the watch loop and [Caller] the one handed to a call. *)
Inductive context :=
| Session
| Caller
| WithTimeout (parent : context) (timeout : Z)
| WithCancel (parent : context) (scope : nat)
| WithoutCancel (parent : context).

(** Whether the cancellation of [Caller] reaches the context. *)
Fixpoint cancelledWithCaller (c : context) : bool :=
  match c with
  | Session => false
  | Caller => true
  | WithTimeout parent _ | WithCancel parent _ => cancelledWithCaller parent
  | WithoutCancel _ => false
  end.

(** The longest that the context can stay alive, when it is bounded. *)
Fixpoint boundedBy (c : context) : option Z :=
  match c with
  | Session | Caller => None
  | WithTimeout parent timeout =>
      Some (match boundedBy parent with Some t => Z.min t timeout | None => timeout end)
  | WithCancel parent _ => boundedBy parent
  | WithoutCancel _ => None
  end.

(** The [intercept] struct: the record pushed by the traffic-manager, the
    scope that [cancel] ends and [wg] drains, and the client-only fields. *)
Record intercept := {
  info : InterceptInfo;
  scope : nat;
  pid : Z;
  handlerContainer : string;
  localMountPort : Z;
  readOnly : bool;
}.

(** The fields of [podAccess] that are set from an intercept. *)
Record podAccess := {
  pa_workload : string;
  pa_podIP : string;
  pa_container : string;
  pa_sftpPort : Z;
  pa_ftpPort : Z;
  pa_mountPoint : string;
  pa_clientMountPoint : string;
  pa_localMountPort : Z;
  pa_readOnly : bool;
}.

(** [interceptResult]. The [intercept] field is a pointer: the record holds
    what it points to when it is read. [mountsDone] is the readiness channel
    of a pod access, named after that pod access. *)
Record interceptResult := {
  ir_intercept : intercept;
  ir_mountsDone : podAccess;
  ir_err : option error;
}.

(** [awaitIntercept]; [waitCh] is the address of its channel. *)
Record awaitIntercept := {
  mountPoint : string;
  mountPort : Z;
  aw_readOnly : bool;
  waitCh : nat;
}.

(** A channel of [interceptResult]: capacity, buffered values, closed. *)
Record channel := {
  capacity : nat;
  buffer : list interceptResult;
  closed : bool;
}.

(** [rpc.InterceptResult] *)
Record InterceptResult := {
  res_Error : InterceptError;
  res_ErrorText : string;
  res_ErrorCategory : Category;
  res_InterceptInfo : option InterceptInfo;
  res_ServiceUid : string;
  res_WorkloadKind : string;
}.

(** [rpc.CreateInterceptRequest] *)
Record CreateInterceptRequest := {
  req_Spec : InterceptSpec;
  req_MountPoint : string;
  req_LocalMountPort : Z;
  req_MountReadOnly : bool;
}.

(** [restapi.InterceptInfo] *)
Record RestInterceptInfo := {
  Intercepted : bool;
  ClientSide : bool;
  rest_Metadata : option (gmap string string);
}.

(** Calls on collaborators and on scopes, in the order they are made.
    Debug logging is left out, except for the notification that could not
    be delivered. *)
Inductive effect :=
| NewScope (scope : nat)
| CancelScope (scope : nat)
| AwaitScope (scope : nat)
| StopHandler (name container : string) (handlerPid : Z)
| StartAPIServer (port : Z)
| StopAPIServer (port : Z)
| PatInitSnapshot
| PatEnsureAccess (pa : podAccess)
| PatGetOrCreateMountsDone (pa : podAccess)
| PatStart (pa : podAccess)
| PatCancelUnwanted
| ManagerWatchIntercepts
| ManagerPrepareIntercept (c : context) (name : string)
| ManagerCreateIntercept (c : context) (name : string)
| ManagerRemoveIntercept (c : context) (name : string)
| RegisterWaiter (name : string) (ch : nat)
| SendResult (ch : nat) (ir : interceptResult)
| CloseChannel (ch : nat)
| LogUnableToPropagate (id : string)
| LogError (e : error)
| LogWarn (msg : string).

(** Assignments to single fields. *)
Definition setClient (v : string) (x : InterceptSpec) : InterceptSpec :=
  Build_InterceptSpec (Name x) v (Agent x) (Namespace x) (Mechanism x) (TargetHost x) (TargetPort x) (ContainerName x) (ServiceName x) (ServicePortName x) (ServicePort x) (PortIdentifier x) (Protocol x) (ContainerPort x) (ServiceUid x) (WorkloadKind x) (RoundtripLatency x) (DialTimeout x).
Definition setNamespace (v : string) (x : InterceptSpec) : InterceptSpec :=
  Build_InterceptSpec (Name x) (Client x) (Agent x) v (Mechanism x) (TargetHost x) (TargetPort x) (ContainerName x) (ServiceName x) (ServicePortName x) (ServicePort x) (PortIdentifier x) (Protocol x) (ContainerPort x) (ServiceUid x) (WorkloadKind x) (RoundtripLatency x) (DialTimeout x).
Definition setMechanism (v : string) (x : InterceptSpec) : InterceptSpec :=
  Build_InterceptSpec (Name x) (Client x) (Agent x) (Namespace x) v (TargetHost x) (TargetPort x) (ContainerName x) (ServiceName x) (ServicePortName x) (ServicePort x) (PortIdentifier x) (Protocol x) (ContainerPort x) (ServiceUid x) (WorkloadKind x) (RoundtripLatency x) (DialTimeout x).
Definition setTargetPort (v : Z) (x : InterceptSpec) : InterceptSpec :=
  Build_InterceptSpec (Name x) (Client x) (Agent x) (Namespace x) (Mechanism x) (TargetHost x) v (ContainerName x) (ServiceName x) (ServicePortName x) (ServicePort x) (PortIdentifier x) (Protocol x) (ContainerPort x) (ServiceUid x) (WorkloadKind x) (RoundtripLatency x) (DialTimeout x).
Definition setServiceName (v : string) (x : InterceptSpec) : InterceptSpec :=
  Build_InterceptSpec (Name x) (Client x) (Agent x) (Namespace x) (Mechanism x) (TargetHost x) (TargetPort x) (ContainerName x) v (ServicePortName x) (ServicePort x) (PortIdentifier x) (Protocol x) (ContainerPort x) (ServiceUid x) (WorkloadKind x) (RoundtripLatency x) (DialTimeout x).
Definition setServicePortName (v : string) (x : InterceptSpec) : InterceptSpec :=
  Build_InterceptSpec (Name x) (Client x) (Agent x) (Namespace x) (Mechanism x) (TargetHost x) (TargetPort x) (ContainerName x) (ServiceName x) v (ServicePort x) (PortIdentifier x) (Protocol x) (ContainerPort x) (ServiceUid x) (WorkloadKind x) (RoundtripLatency x) (DialTimeout x).
Definition setServicePort (v : Z) (x : InterceptSpec) : InterceptSpec :=
  Build_InterceptSpec (Name x) (Client x) (Agent x) (Namespace x) (Mechanism x) (TargetHost x) (TargetPort x) (ContainerName x) (ServiceName x) (ServicePortName x) v (PortIdentifier x) (Protocol x) (ContainerPort x) (ServiceUid x) (WorkloadKind x) (RoundtripLatency x) (DialTimeout x).
Definition setPortIdentifier (v : string) (x : InterceptSpec) : InterceptSpec :=
  Build_InterceptSpec (Name x) (Client x) (Agent x) (Namespace x) (Mechanism x) (TargetHost x) (TargetPort x) (ContainerName x) (ServiceName x) (ServicePortName x) (ServicePort x) v (Protocol x) (ContainerPort x) (ServiceUid x) (WorkloadKind x) (RoundtripLatency x) (DialTimeout x).
Definition setProtocol (v : string) (x : InterceptSpec) : InterceptSpec :=
  Build_InterceptSpec (Name x) (Client x) (Agent x) (Namespace x) (Mechanism x) (TargetHost x) (TargetPort x) (ContainerName x) (ServiceName x) (ServicePortName x) (ServicePort x) (PortIdentifier x) v (ContainerPort x) (ServiceUid x) (WorkloadKind x) (RoundtripLatency x) (DialTimeout x).
Definition setContainerPort (v : Z) (x : InterceptSpec) : InterceptSpec :=
  Build_InterceptSpec (Name x) (Client x) (Agent x) (Namespace x) (Mechanism x) (TargetHost x) (TargetPort x) (ContainerName x) (ServiceName x) (ServicePortName x) (ServicePort x) (PortIdentifier x) (Protocol x) v (ServiceUid x) (WorkloadKind x) (RoundtripLatency x) (DialTimeout x).
Definition setServiceUid (v : string) (x : InterceptSpec) : InterceptSpec :=
  Build_InterceptSpec (Name x) (Client x) (Agent x) (Namespace x) (Mechanism x) (TargetHost x) (TargetPort x) (ContainerName x) (ServiceName x) (ServicePortName x) (ServicePort x) (PortIdentifier x) (Protocol x) (ContainerPort x) v (WorkloadKind x) (RoundtripLatency x) (DialTimeout x).
Definition setWorkloadKind (v : string) (x : InterceptSpec) : InterceptSpec :=
  Build_InterceptSpec (Name x) (Client x) (Agent x) (Namespace x) (Mechanism x) (TargetHost x) (TargetPort x) (ContainerName x) (ServiceName x) (ServicePortName x) (ServicePort x) (PortIdentifier x) (Protocol x) (ContainerPort x) (ServiceUid x) v (RoundtripLatency x) (DialTimeout x).
Definition setRoundtripLatency (v : Z) (x : InterceptSpec) : InterceptSpec :=
  Build_InterceptSpec (Name x) (Client x) (Agent x) (Namespace x) (Mechanism x) (TargetHost x) (TargetPort x) (ContainerName x) (ServiceName x) (ServicePortName x) (ServicePort x) (PortIdentifier x) (Protocol x) (ContainerPort x) (ServiceUid x) (WorkloadKind x) v (DialTimeout x).
Definition setDialTimeout (v : Z) (x : InterceptSpec) : InterceptSpec :=
  Build_InterceptSpec (Name x) (Client x) (Agent x) (Namespace x) (Mechanism x) (TargetHost x) (TargetPort x) (ContainerName x) (ServiceName x) (ServicePortName x) (ServicePort x) (PortIdentifier x) (Protocol x) (ContainerPort x) (ServiceUid x) (WorkloadKind x) (RoundtripLatency x) v.
Definition setClientMountPoint (v : string) (x : InterceptInfo) : InterceptInfo :=
  Build_InterceptInfo (Id x) (Spec x) (Disposition_ x) (Message x) (PodIp x) (SftpPort x) (FtpPort x) (MountPoint x) v (Environment x) (Headers x) (Metadata x).
Definition set_info (v : InterceptInfo) (x : intercept) : intercept :=
  Build_intercept v (scope x) (pid x) (handlerContainer x) (localMountPort x) (readOnly x).
Definition set_localMountPort (v : Z) (x : intercept) : intercept :=
  Build_intercept (info x) (scope x) (pid x) (handlerContainer x) v (readOnly x).
Definition set_readOnly (v : bool) (x : intercept) : intercept :=
  Build_intercept (info x) (scope x) (pid x) (handlerContainer x) (localMountPort x) v.
Definition disableMounts (x : podAccess) : podAccess :=
  Build_podAccess (pa_workload x) (pa_podIP x) (pa_container x) 0 0 (pa_mountPoint x)
    (pa_clientMountPoint x) (pa_localMountPort x) (pa_readOnly x).
Definition setSpec (v : InterceptSpec) (x : CreateInterceptRequest) : CreateInterceptRequest :=
  Build_CreateInterceptRequest v (req_MountPoint x) (req_LocalMountPort x) (req_MountReadOnly x).
Definition setInterceptInfo (v : option InterceptInfo) (x : InterceptResult) : InterceptResult :=
  Build_InterceptResult (res_Error x) (res_ErrorText x) (res_ErrorCategory x) v
    (res_ServiceUid x) (res_WorkloadKind x).

(** An API matcher: the header rules that its request matcher was compiled
    from, and the metadata of its intercept. *)
Record apiMatcher := {
  requestMatcher : gmap string string;
  am_metadata : gmap string string;
}.

(** The state of a [session] that the modelled functions use;
    [channels] holds the wait channels by address and [nextScope] is the
    next unused scope. *)
Record session := {
  s_Namespace : string;
  clientID : string;
  isPodDaemon : bool;
  currentIntercepts : gmap string intercept;
  interceptWaiters : gmap string awaitIntercept;
  currentAPIServers : gset Z;
  currentMatchers : gmap string apiMatcher;
  channels : gmap nat channel;
  nextScope : nat;
}.

Definition setIntercepts (v : gmap string intercept) (nxt : nat) (s : session) : session :=
  Build_session (s_Namespace s) (clientID s) (isPodDaemon s) v (interceptWaiters s)
    (currentAPIServers s) (currentMatchers s) (channels s) nxt.

Definition setWaiters (v : gmap string awaitIntercept) (chans : gmap nat channel)
    (s : session) : session :=
  Build_session (s_Namespace s) (clientID s) (isPodDaemon s) (currentIntercepts s) v
    (currentAPIServers s) (currentMatchers s) chans (nextScope s).

Definition setAPI (servers : gset Z) (matchers : gmap string apiMatcher)
    (s : session) : session :=
  Build_session (s_Namespace s) (clientID s) (isPodDaemon s) (currentIntercepts s)
    (interceptWaiters s) servers matchers (channels s) (nextScope s).

(** Constants and functions of other packages, of the Go library, and the
    methods that the session calls through its [self] interface. *)
Record Collaborators := {
  EnvAPIPort : string;
  (** [strconv.ParseUint(ps, 10, 16)] *)
  ParseUint16 : string → error + Z;
  (** the failure of [matcher.NewRequestFromMap], if it fails *)
  NewRequestFromMap : gmap string string → option error;
  (** [Matches] of the request matcher compiled from some header rules *)
  Matches : gmap string string → string → gmap string (list string) → bool;
  ensureNoMountConflict : gmap string intercept → string → Z → option error;
  InterceptProlog : InterceptSpec → option InterceptResult;
  InterceptEpilog : CreateInterceptRequest → InterceptResult → option InterceptResult;
  (** [agentconfig.NewPortIdentifier] *)
  NewPortIdentifier : string → string → error + string;
  Itoa : Z → string;
  TimeoutIntercept : Z;
  TimeoutTrafficManagerAPI : Z;
  TimeoutRoundtripLatency : Z;
  TimeoutEndpointDial : Z;
  (** [proc.RunningInContainer() && RootSessionInProcess()] *)
  containerWithRootSession : bool;
  (** [client.CheckTimeout(c, c.Err())] *)
  CheckTimeout : context → error;
}.

Section WithCollaborators.
Variable d : Collaborators.

(** *** Snapshot reconciler *)

(** The [agentAPIPort] closure of [reconcileAPIServers]; a value that does
    not parse is logged with the parse error. *)
Definition agentAPIPort (ii : InterceptInfo) : Z * list effect :=
  match Environment ii !! EnvAPIPort d with
  | Some ps =>
      match ParseUint16 d ps with
      | inr port => (port, [])
      | inl e => (0%Z, [LogError e])
      end
  | None => (0%Z, [])
  end.

(** The body of the first loop of [reconcileAPIServers]. *)
Definition wantAPI (acc : gset Z * gmap string InterceptInfo * list effect)
    (kv : string * intercept) : gset Z * gmap string InterceptInfo * list effect :=
  let '(ports, matchers, effs) := acc in
  let ic := kv.2 in
  if bool_decide (Disposition_ (info ic) = ACTIVE) then
    let '(port, e) := agentAPIPort (info ic) in
    if bool_decide (0 < port)%Z
    then ({[port]} ∪ ports, <[Id (info ic) := info ic]> matchers, effs ++ e)
    else (ports, matchers, effs ++ e)
  else acc.

(** The first loop of [reconcileAPIServers]. *)
Definition wantedAPI (s : session) : gset Z * gmap string InterceptInfo * list effect :=
  foldl wantAPI (∅, ∅, []) (map_to_list (currentIntercepts s)).

Definition newMatcher (matchers : gmap string apiMatcher) (ic : InterceptInfo)
    : gmap string apiMatcher * list effect :=
  match NewRequestFromMap d (Headers ic) with
  | Some e => (matchers, [LogError e])
  | None =>
      (<[Id ic := {| requestMatcher := Headers ic; am_metadata := Metadata ic |}]> matchers, [])
  end.

(** The body of the last loop of [reconcileAPIServers]. *)
Definition ensureMatcher (acc : gmap string apiMatcher * list effect)
    (kv : string * InterceptInfo) : gmap string apiMatcher * list effect :=
  let '(ms, es) := acc in
  match ms !! kv.1 with
  | Some _ => acc
  | None => let '(ms', e) := newMatcher ms kv.2 in (ms', es ++ e)
  end.

Definition reconcileAPIServers (s : session) : session * list effect :=
  let '(wantedPorts, wantedMatchers, effs) := wantedAPI s in
  let stopped := filter (λ p, p ∉ wantedPorts) (elements (currentAPIServers s)) in
  let servers := currentAPIServers s ∖ list_to_set stopped in
  let started := filter (λ p, p ∉ servers) (elements wantedPorts) in
  let kept := filter (λ kv, is_Some (wantedMatchers !! kv.1)) (currentMatchers s) in
  let '(matchers, matcherEffs) := foldl ensureMatcher (kept, []) (map_to_list wantedMatchers) in
  (setAPI (servers ∪ list_to_set started) matchers s,
   effs ++ (StopAPIServer <$> stopped) ++ (StartAPIServer <$> started) ++ matcherEffs).

(** The body of the first loop of [setCurrentIntercepts]: an intercept
    whose ID is known keeps its client-only fields, a new one gets a scope
    and is seeded from the waiter registered for its name. *)
Definition adopt (s : session) (acc : gmap string intercept * nat * list effect)
    (ii : InterceptInfo) : gmap string intercept * nat * list effect :=
  let '(intercepts, nxt, effs) := acc in
  match currentIntercepts s !! Id ii with
  | Some ic =>
      (<[Id ii := set_info (setClientMountPoint (ClientMountPoint (info ic)) ii) ic]> intercepts,
       nxt, effs)
  | None =>
      let ic := {| info := ii; scope := nxt; pid := 0; handlerContainer := "";
                   localMountPort := 0; readOnly := false |} in
      let ic :=
        match interceptWaiters s !! Name (Spec ii) with
        | Some aw =>
            set_readOnly (aw_readOnly aw)
              (set_localMountPort (mountPort aw)
                 (set_info (setClientMountPoint (mountPoint aw) ii) ic))
        | None => ic
        end in
      (<[Id ii := ic]> intercepts, S nxt, effs ++ [NewScope nxt])
  end.

(** The scopes that the second loop of [setCurrentIntercepts] cancels. *)
Definition dropped (s : session) (intercepts : gmap string intercept) : list intercept :=
  snd <$> filter (λ kv, intercepts !! kv.1 = None) (map_to_list (currentIntercepts s)).

Definition setCurrentIntercepts (s : session) (iis : list InterceptInfo)
    : session * list effect :=
  let '(intercepts, nxt, effs) := foldl (adopt s) (∅, nextScope s, []) iis in
  let cancelled := (λ ic, CancelScope (scope ic)) <$> dropped s intercepts in
  let '(s', apiEffs) := reconcileAPIServers (setIntercepts intercepts nxt s) in
  (s', effs ++ cancelled ++ apiEffs).

(** [ic.podAccess]: the pod access of an intercept, and the call of
    [ensureAccess] on it. *)
Definition podAccessOf (ic : intercept) : podAccess :=
  {| pa_workload := Agent (Spec (info ic));
     pa_podIP := PodIp (info ic);
     pa_container := ContainerName (Spec (info ic));
     pa_sftpPort := SftpPort (info ic);
     pa_ftpPort := FtpPort (info ic);
     pa_mountPoint := MountPoint (info ic);
     pa_clientMountPoint := ClientMountPoint (info ic);
     pa_localMountPort := localMountPort ic;
     pa_readOnly := readOnly ic |}.

(** [select { case ch <- ir: ... default: ... }]: whether the value was
    sent, and the channels afterwards. A send on a closed channel panics
    ([None]); a nil channel is never ready. *)
Definition trySend (chans : gmap nat channel) (ch : nat) (ir : interceptResult)
    : option (bool * gmap nat channel) :=
  match chans !! ch with
  | None => Some (false, chans)
  | Some c =>
      if closed c then None
      else if decide (length (buffer c) < capacity c) then
        Some (true, <[ch := {| capacity := capacity c; buffer := buffer c ++ [ir];
                               closed := false |}]> chans)
      else Some (false, chans)
  end.

(** The error that [handleInterceptSnapshot] attaches to a record that has
    left [WAITING]. *)
Definition dispositionError (s : session) (ii : InterceptInfo) : option error :=
  if bool_decide (Disposition_ ii = ACTIVE) then
    if negb (bool_decide (s_Namespace s = Namespace (Spec ii))) then
      Some (UserError ("active intercepts in both namespace " +:+ Namespace (Spec ii)
                       +:+ " and " +:+ s_Namespace s))
    else None
  else Some (PlainError ("intercept in error state " +:+ dispositionString (Disposition_ ii)
                         +:+ ": " +:+ Message ii)).

(** What follows the notification of the waiter in the loop body. *)
Definition startAccess (s : session) (err : option error) (pa : podAccess) : list effect :=
  match err with
  | Some e => [LogError e]
  | None => [PatStart (if isPodDaemon s then disableMounts pa else pa)]
  end.

(** The body of the loop of [handleInterceptSnapshot]; [None] is a panic
    (nil intercept or send on a closed channel). *)
Definition notify (s : session) (ii : InterceptInfo) : option (session * list effect) :=
  if bool_decide (Disposition_ ii = WAITING) then Some (s, [])
  else
    ic ← currentIntercepts s !! Id ii;
    let aw := interceptWaiters s !! Name (Spec ii) in
    let err := dispositionError s ii in
    let pa := podAccessOf ic in
    match aw with
    | None => Some (s, PatEnsureAccess pa :: startAccess s err pa)
    | Some aw =>
        let s1 := setWaiters (delete (Name (Spec ii)) (interceptWaiters s)) (channels s) s in
        let ir := {| ir_intercept := ic; ir_mountsDone := pa; ir_err := err |} in
        match trySend (channels s1) (waitCh aw) ir with
        | None => None
        | Some (true, chans) =>
            let s2 := setWaiters (interceptWaiters s1) chans s1 in
            Some (s2, [PatEnsureAccess pa; PatGetOrCreateMountsDone pa;
                       SendResult (waitCh aw) ir]
                      ++ match err with
                         | Some _ => []
                         | None => startAccess s2 err pa
                         end)
        | Some (false, _) =>
            Some (s1, [PatEnsureAccess pa; PatGetOrCreateMountsDone pa;
                       LogUnableToPropagate (Id ii)]
                      ++ startAccess s1 err pa)
        end
    end.

Fixpoint notifyAll (s : session) (iis : list InterceptInfo)
    : option (session * list effect) :=
  match iis with
  | [] => Some (s, [])
  | ii :: iis' =>
      '(s1, effs1) ← notify s ii;
      '(s2, effs2) ← notifyAll s1 iis';
      Some (s2, effs1 ++ effs2)
  end.

Definition handleInterceptSnapshot (s : session) (iis : list InterceptInfo)
    : option (session * list effect) :=
  let '(s1, effs1) := setCurrentIntercepts s iis in
  '(s2, effs2) ← notifyAll s1 iis;
  Some (s2, effs1 ++ [PatInitSnapshot] ++ effs2 ++ [PatCancelUnwanted]).

(** *** The watch loop *)

(** What [watchInterceptsLoop] meets: the session context found cancelled
    at the head of the loop, a snapshot, or a failure of [Recv], with
    whether it is [io.EOF] and whether the session context is done when the
    failure is examined. *)
Inductive streamEvent :=
| CtxCancelled
| RecvSnapshot (intercepts : list InterceptInfo)
| RecvError (text : string) (isEOF : bool) (ctxDone : bool).

(** How a call of [watchInterceptsLoop] ends: with nil, with an error,
    with a panic, or not within the events given. *)
Inductive loopEnd :=
| ReturnedNil
| ReturnedError (e : error)
| Panicked
| Receiving.

Fixpoint receive (s : session) (events : list streamEvent)
    : loopEnd * session * list effect :=
  match events with
  | [] => (Receiving, s, [])
  | CtxCancelled :: _ => (ReturnedNil, s, [])
  | RecvSnapshot intercepts :: events' =>
      match handleInterceptSnapshot s intercepts with
      | None => (Panicked, s, [])
      | Some (s1, effs1) =>
          let '(r, s2, effs2) := receive s1 events' in (r, s2, effs1 ++ effs2)
      end
  | RecvError text isEOF ctxDone :: _ =>
      match handleInterceptSnapshot s [] with
      | None => (Panicked, s, [])
      | Some (s1, effs1) =>
          (if ctxDone || isEOF then ReturnedNil
           else ReturnedError (PlainError ("manager.WatchIntercepts recv: " +:+ text)),
           s1, effs1)
      end
  end.

(** [dial] is the failure of [WatchIntercepts], if it fails. *)
Definition watchInterceptsLoop (s : session) (dial : option string)
    (events : list streamEvent) : loopEnd * session * list effect :=
  match dial with
  | Some text =>
      (ReturnedError (PlainError ("manager.WatchIntercepts dial: " +:+ text)), s,
       [ManagerWatchIntercepts])
  | None =>
      let '(r, s', effs) := receive s events in (r, s', ManagerWatchIntercepts :: effs)
  end.

(** Modelled from the spec: [runWithRetry], which is not among the sources.
    The stream is consumed in a loop that terminates when the watch ends
    normally and that reconnects and retries, without a bound, when it ends
    with an error. Each attempt is given by the outcome of its dial and the
    events that it meets. *)
Fixpoint runWithRetry (s : session) (attempts : list (option string * list streamEvent))
    : loopEnd * session * list effect :=
  match attempts with
  | [] => (Receiving, s, [])
  | (dial, events) :: attempts' =>
      match watchInterceptsLoop s dial events with
      | (ReturnedError e, s1, effs1) =>
          let '(r, s2, effs2) := runWithRetry s1 attempts' in
          (r, s2, effs1 ++ [LogError e] ++ effs2)
      | other => other
      end
  end.

Definition watchInterceptsHandler := runWithRetry.

(** *** Removal *)

Definition stopHandler (name container : string) (handlerPid : Z) : list effect :=
  if negb (containerWithRootSession d) then
    if negb (bool_decide (container = "")) then [StopHandler name container handlerPid]
    else if negb (bool_decide (handlerPid = 0%Z)) then [StopHandler name container handlerPid]
    else []
  else [].

(** [reply] is the failure of the manager's [RemoveIntercept], if it fails. *)
Definition removeIntercept (c : context) (ic : intercept) (reply : option error)
    : option error * list effect :=
  let name := Name (Spec (info ic)) in
  (reply,
   stopHandler name (handlerContainer ic) (pid ic)
   ++ [CancelScope (scope ic); AwaitScope (scope ic);
       ManagerRemoveIntercept (WithTimeout c (TimeoutTrafficManagerAPI d)) name]).

(** The loop of [getInterceptByName], over the intercepts in the order
    that the iteration meets them. *)
Definition firstNamed (name : string) (order : list intercept) : option intercept :=
  snd <$> list_find (λ ic, Name (Spec (info ic)) = name) order.

Definition getInterceptByName (s : session) (name : string) : option intercept :=
  firstNamed name (snd <$> map_to_list (currentIntercepts s)).

Definition RemoveIntercept (s : session) (c : context) (name : string)
    (reply : option error) : option error * list effect :=
  match getInterceptByName s name with
  | None => (None, [])
  | Some ic => removeIntercept c ic reply
  end.

(** *** Conflicts *)

Definition InterceptError_ (tp : InterceptError) (err : error) : InterceptResult :=
  {| res_Error := tp; res_ErrorText := Error err; res_ErrorCategory := GetCategory err;
     res_InterceptInfo := None; res_ServiceUid := ""; res_WorkloadKind := "" |}.

(** The loop of [ensureNoInterceptConflict], over the intercepts in the
    order that the iteration meets them. *)
Fixpoint conflictIn (spec : InterceptSpec) (order : list intercept)
    : option InterceptResult :=
  match order with
  | [] => None
  | iCept :: order' =>
      if bool_decide (Name (Spec (info iCept)) = Name spec) then
        Some (InterceptError_ IE_ALREADY_EXISTS (UserError (Name spec)))
      else if negb (bool_decide (TargetPort spec = 0%Z))
              && bool_decide (TargetPort (Spec (info iCept)) = TargetPort spec)
              && bool_decide (TargetHost (Spec (info iCept)) = TargetHost spec) then
        Some {| res_Error := IE_LOCAL_TARGET_IN_USE; res_ErrorText := Name spec;
                res_ErrorCategory := CatUser; res_InterceptInfo := Some (info iCept);
                res_ServiceUid := ""; res_WorkloadKind := "" |}
      else conflictIn spec order'
  end.

Definition ensureNoInterceptConflictIn (order : list intercept) (s : session)
    (ir : CreateInterceptRequest) : option InterceptResult :=
  match ensureNoMountConflict d (currentIntercepts s) (req_MountPoint ir)
          (req_LocalMountPort ir) with
  | Some err =>
      Some {| res_Error := IE_MOUNT_POINT_BUSY; res_ErrorText := Error err;
              res_ErrorCategory := CatUser; res_InterceptInfo := None;
              res_ServiceUid := ""; res_WorkloadKind := "" |}
  | None => conflictIn (req_Spec ir) order
  end.

Definition ensureNoInterceptConflict (s : session) (ir : CreateInterceptRequest)
    : option InterceptResult :=
  ensureNoInterceptConflictIn (snd <$> map_to_list (currentIntercepts s)) s ir.

(** *** Creation *)

Definition categoryNew (cat : Category) (msg : string) : error :=
  match cat with
  | CatUser => UserError msg
  | CatUnknown => PlainError msg
  end.

(** [CanIntercept]; [prepare] is the reply of the manager to
    [PrepareIntercept]. The request is returned as the call leaves it. *)
Definition CanIntercept (s : session) (ir : CreateInterceptRequest)
    (prepare : error + PreparedIntercept)
    : option PreparedIntercept * option InterceptResult * CreateInterceptRequest
      * list effect :=
  let spec := req_Spec ir in
  if negb (bool_decide (Namespace spec = "")) && negb (bool_decide (s_Namespace s = Namespace spec))
  then
    (None, Some (InterceptError_ IE_NAMESPACE_AMBIGUITY
                   (UserError (s_Namespace s +:+ "," +:+ Namespace spec))), ir, [])
  else
    let spec := if bool_decide (Namespace spec = "") then setNamespace (s_Namespace s) spec
                else spec in
    let ir := setSpec spec ir in
    match ensureNoInterceptConflict s ir with
    | Some er => (None, Some er, ir, [])
    | None =>
        if bool_decide (Agent spec = "") then (None, None, ir, [])
        else
          match InterceptProlog d spec with
          | Some er => (None, Some er, ir, [])
          | None =>
              match prepare with
              | inl err =>
                  (None, Some (InterceptError_ IE_TRAFFIC_MANAGER_ERROR err), ir,
                   [ManagerPrepareIntercept Caller (Name spec)])
              | inr pi =>
                  if negb (bool_decide (pi_Error pi = "")) then
                    (None, Some (InterceptError_ IE_TRAFFIC_MANAGER_ERROR
                                   (categoryNew (pi_ErrorCategory pi) (pi_Error pi))), ir,
                     [ManagerPrepareIntercept Caller (Name spec)])
                  else if bool_decide (TargetPort spec = 0%Z) then
                    let ir := setSpec (setTargetPort (pi_ContainerPort pi) spec) ir in
                    match ensureNoInterceptConflict s ir with
                    | Some er => (None, Some er, ir, [ManagerPrepareIntercept Caller (Name spec)])
                    | None => (Some pi, None, ir, [ManagerPrepareIntercept Caller (Name spec)])
                    end
                  else (Some pi, None, ir, [ManagerPrepareIntercept Caller (Name spec)])
              end
          end
    end.

(** The waiter is stored under the name of the intercept, with a new
    channel that has room for two results. *)
Definition registerWaiter (s : session) (name : string) (ir : CreateInterceptRequest)
    : session * nat :=
  let ch := fresh (dom (channels s)) in
  (setWaiters
     (<[name := {| mountPoint := req_MountPoint ir; mountPort := req_LocalMountPort ir;
                   aw_readOnly := req_MountReadOnly ir; waitCh := ch |}]> (interceptWaiters s))
     (<[ch := {| capacity := 2; buffer := []; closed := false |}]> (channels s)) s,
   ch).

(** The first deferred function of [AddIntercept]. *)
Definition unregisterWaiter (s : session) (name : string) (ch : nat)
    : session * list effect :=
  match interceptWaiters s !! name with
  | Some _ =>
      (setWaiters (delete name (interceptWaiters s))
         (alter (λ c, {| capacity := capacity c; buffer := buffer c; closed := true |})
                ch (channels s)) s,
       [CloseChannel ch])
  | None => (s, [])
  end.

(** A case of a [select] of [AddIntercept] that fires. *)
Inductive selectCase :=
| CtxIsDone
| WaitChRecv (wr : interceptResult)
| MountsAreDone.

Definition failedToEstablish (c : context) : InterceptResult :=
  InterceptError_ IE_FAILED_TO_ESTABLISH (CheckTimeout d c).

(** The [for { select { ... } }] of [AddIntercept]: the result returned,
    whether [success] was set, and the record that [ii] holds then. [None]
    when the cases given end with the call still blocked, or name a case
    that the pending [select] does not have. *)
Fixpoint awaitActive (c : context) (ir : CreateInterceptRequest) (result : InterceptResult)
    (ii : InterceptInfo) (cases : list selectCase)
    : option (InterceptResult * bool * InterceptInfo) :=
  match cases with
  | [] => None
  | CtxIsDone :: _ => Some (failedToEstablish c, false, ii)
  | MountsAreDone :: _ => None
  | WaitChRecv wr :: cases' =>
      match ir_err wr with
      | Some e => Some (InterceptError_ IE_FAILED_TO_ESTABLISH e, false, ii)
      | None =>
          let ii := info (ir_intercept wr) in
          if negb (bool_decide (Disposition_ ii = ACTIVE)) then awaitActive c ir result ii cases'
          else
            let result := setInterceptInfo (Some ii) result in
            match cases' with
            | CtxIsDone :: _ => Some (failedToEstablish c, false, ii)
            | MountsAreDone :: _ =>
                match InterceptEpilog d ir result with
                | Some er => Some (er, false, ii)
                | None => Some (result, true, ii)
                end
            | _ => None
            end
      end
  end.

Definition Second : Z := 1000000000.

(** The context of the removal in the second deferred function. *)
Definition removalContext (c : context) : context :=
  WithTimeout (WithoutCancel c) (5 * Second).

(** The second deferred function of [AddIntercept]. *)
Definition removeFailed (s : session) (c : context) (success : bool) (ii : InterceptInfo)
    (reply : option error) : list effect :=
  if negb success then
    let '(removeErr, effs) := RemoveIntercept s (removalContext c) (Name (Spec ii)) reply in
    effs ++ match removeErr with
            | Some e => [LogWarn ("failed to remove failed intercept " +:+ Name (Spec ii)
                                  +:+ ": " +:+ Error e)]
            | None => []
            end
  else [].

Definition emptyResult : InterceptResult :=
  {| res_Error := IE_UNSPECIFIED; res_ErrorText := ""; res_ErrorCategory := CatUnknown;
     res_InterceptInfo := None; res_ServiceUid := ""; res_WorkloadKind := "" |}.

(** The assignments that [AddIntercept] makes to the spec before the
    intercept is created; [inl] is a port identifier that does not parse. *)
Definition qualifySpec (s : session) (pi : PreparedIntercept) (spec : InterceptSpec)
    : error + InterceptSpec :=
  let spec := setClient (clientID s) spec in
  let spec := if bool_decide (Mechanism spec = "") then setMechanism "tcp" spec else spec in
  let qualified : error + InterceptSpec :=
    if bool_decide (0 < pi_ServicePort pi)%Z || negb (bool_decide (pi_ServicePortName pi = ""))
    then
      let spec := setServicePort (pi_ServicePort pi)
                    (setServicePortName (pi_ServicePortName pi)
                       (setServiceName (pi_ServiceName pi) spec)) in
      let spi := if bool_decide (pi_ServicePortName pi = "")
                 then Itoa d (pi_ServicePort pi) else pi_ServicePortName pi in
      match NewPortIdentifier d (pi_Protocol pi) spi with
      | inl err => inl err
      | inr pti => inr (setPortIdentifier pti spec)
      end
    else inr spec in
  match qualified with
  | inl err => inl err
  | inr spec =>
      inr (setDialTimeout (TimeoutEndpointDial d)
             (setRoundtripLatency (TimeoutRoundtripLatency d * 2)
                (setWorkloadKind (pi_WorkloadKind pi)
                   (setServiceUid (pi_ServiceUid pi)
                      (setContainerPort (pi_ContainerPort pi)
                         (setProtocol (pi_Protocol pi) spec))))))
  end.

(** The end of [AddIntercept], once the manager has created the intercept:
    the wait, and then the two deferred functions, last one first, on the
    session as the watch loop has left it. *)
Definition awaitAndCleanUp (s : session) (c : context) (ir : CreateInterceptRequest)
    (result : InterceptResult) (ii : InterceptInfo) (ch : nat)
    (cases : list selectCase) (during : session → session) (remove : option error)
    : option (InterceptResult * session * list effect) :=
  '(r, success, ii') ← awaitActive c ir result ii cases;
  let s2 := during s in
  let effs2 := removeFailed s2 c success ii' remove in
  let '(s3, effs3) := unregisterWaiter s2 (Name (req_Spec ir)) ch in
  Some (r, s3, effs2 ++ effs3).

(** [AddIntercept]. [prepare], [create] and [remove] are the replies of the
    manager; [cases] are the cases of its [select]s that fire; [during] is
    what the watch loop does to the session while the call is blocked. *)
Definition AddIntercept (s : session) (ir : CreateInterceptRequest)
    (prepare : error + PreparedIntercept) (create : error + InterceptInfo)
    (cases : list selectCase) (during : session → session) (remove : option error)
    : option (InterceptResult * session * list effect) :=
  let '(iInfo, result, ir, effs0) := CanIntercept s ir prepare in
  match result, iInfo with
  | Some r, _ => Some (r, s, effs0)
  | None, None => Some (emptyResult, s, effs0)
  | None, Some pi =>
      match qualifySpec s pi (req_Spec ir) with
      | inl err => Some (InterceptError_ IE_MISCONFIGURED_WORKLOAD err, s, effs0)
      | inr spec =>
          let ir := setSpec spec ir in
          let result :=
            {| res_Error := IE_UNSPECIFIED; res_ErrorText := ""; res_ErrorCategory := CatUnknown;
               res_InterceptInfo := None; res_ServiceUid := pi_ServiceUid pi;
               res_WorkloadKind := pi_WorkloadKind pi |} in
          let c := WithTimeout Caller (TimeoutIntercept d) in
          let '(s1, ch) := registerWaiter s (Name spec) ir in
          let effs1 := effs0 ++ [RegisterWaiter (Name spec) ch;
                                 ManagerCreateIntercept c (Name spec)] in
          match create with
          | inl err =>
              let '(s2, effs2) := unregisterWaiter (during s1) (Name spec) ch in
              Some (InterceptError_ IE_TRAFFIC_MANAGER_ERROR err, s2, effs1 ++ effs2)
          | inr ii =>
              '(r, s3, effs2) ← awaitAndCleanUp s1 c ir result ii ch cases during remove;
              Some (r, s3, effs1 ++ effs2)
          end
      end
  end.

(** *** In-process query *)

(** [InterceptInfo]: the result and the error returned. *)
Definition InterceptInfo_ (s : session) (callerID path : string)
    (headers : gmap string (list string)) : option RestInterceptInfo * option error :=
  let r := {| Intercepted := false; ClientSide := true; rest_Metadata := None |} in
  match currentMatchers s !! callerID with
  | None => (Some r, None)
  | Some am =>
      if Matches d (requestMatcher am) path headers then
        (Some {| Intercepted := true; ClientSide := true;
                 rest_Metadata := Some (am_metadata am) |}, None)
      else (Some r, None)
  end.

(** *** Specification vocabulary *)

Definition nameClash (spec : InterceptSpec) (iCept : intercept) : Prop :=
  Name (Spec (info iCept)) = Name spec.

Definition targetClash (spec : InterceptSpec) (iCept : intercept) : Prop :=
  TargetPort spec ≠ 0%Z
  ∧ TargetPort (Spec (info iCept)) = TargetPort spec
  ∧ TargetHost (Spec (info iCept)) = TargetHost spec.

#[export] Instance nameClash_dec spec iCept : Decision (nameClash spec iCept).
Proof. unfold nameClash. apply _. Defined.

#[export] Instance targetClash_dec spec iCept : Decision (targetClash spec iCept).
Proof. unfold targetClash. apply _. Defined.

Definition isAwait (e : effect) : bool :=
  match e with AwaitScope _ => true | _ => false end.

Definition isManagerRemove (e : effect) : bool :=
  match e with ManagerRemoveIntercept _ _ => true | _ => false end.



Definition sendsOn (ch : nat) (e : effect) : bool :=
  match e with SendResult ch' _ => bool_decide (ch' = ch) | _ => false end.

(** Effects among which nothing awaits a scope and nothing asks the
    manager to remove an intercept. *)
Definition quiet (effs : list effect) : Prop :=
  Forall (λ e, isAwait e = false ∧ isManagerRemove e = false) effs.

(** A notification that leaves the wait loop waiting: no error, and an
    intercept that is not active when it is read. *)
Definition inconclusive (sc : selectCase) : Prop :=
  match sc with
  | WaitChRecv wr => ir_err wr = None ∧ Disposition_ (info (ir_intercept wr)) ≠ ACTIVE
  | _ => False
  end.





(** Every attempt of a list fails, each on the session left by the one
    before. *)
Fixpoint allFail (s : session) (attempts : list (option string * list streamEvent)) : Prop :=
  match attempts with
  | [] => True
  | (dial, events) :: attempts' =>
      ∃ e s1 effs, watchInterceptsLoop s dial events = (ReturnedError e, s1, effs)
                   ∧ allFail s1 attempts'
  end.

End WithCollaborators.

(** *** Sample data *)

Definition sampleCollaborators : Collaborators :=
  {| EnvAPIPort := "TELEPRESENCE_API_PORT";
     ParseUint16 := λ _, inr 8080%Z;
     NewRequestFromMap := λ _, None;
     Matches := λ rules path headers, bool_decide (rules ⊆ (default "" ∘ head <$> headers));
     ensureNoMountConflict := λ _ _ _, None;
     InterceptProlog := λ _, None;
     InterceptEpilog := λ _ _, None;
     NewPortIdentifier := λ proto port, inr (port +:+ "/" +:+ proto);
     Itoa := λ _, "80";
     TimeoutIntercept := 30 * Second;
     TimeoutTrafficManagerAPI := 15 * Second;
     TimeoutRoundtripLatency := 2 * Second;
     TimeoutEndpointDial := 3 * Second;
     containerWithRootSession := false;
     CheckTimeout := λ _, PlainError "context deadline exceeded" |}.

Definition sampleSpec (name host : string) (port : Z) : InterceptSpec :=
  {| Name := name; Client := ""; Agent := "echo"; Namespace := "default"; Mechanism := "tcp";
     TargetHost := host; TargetPort := port; ContainerName := "app"; ServiceName := "";
     ServicePortName := ""; ServicePort := 0; PortIdentifier := ""; Protocol := "TCP";
     ContainerPort := 8080; ServiceUid := ""; WorkloadKind := "Deployment";
     RoundtripLatency := 0; DialTimeout := 0 |}.

Definition sampleInfo (id name : string) (disposition : Disposition) : InterceptInfo :=
  {| Id := id; Spec := sampleSpec name "127.0.0.1" 8080; Disposition_ := disposition;
     Message := ""; PodIp := "10.0.0.7"; SftpPort := 0; FtpPort := 0; MountPoint := "/";
     ClientMountPoint := ""; Environment := ∅; Headers := ∅; Metadata := ∅ |}.

Definition sampleIntercept (ii : InterceptInfo) (sc : nat) : intercept :=
  {| info := ii; scope := sc; pid := 0; handlerContainer := ""; localMountPort := 0;
     readOnly := false |}.

Definition sampleSession (intercepts : gmap string intercept) : session :=
  {| s_Namespace := "default"; clientID := "client-1"; isPodDaemon := false;
     currentIntercepts := intercepts; interceptWaiters := ∅; currentAPIServers := ∅;
     currentMatchers := ∅; channels := ∅; nextScope := 10 |}.

Definition sampleRequest (spec : InterceptSpec) : CreateInterceptRequest :=
  {| req_Spec := spec; req_MountPoint := "/tmp/echo"; req_LocalMountPort := 0;
     req_MountReadOnly := false |}.

End TrafficMgr.

(** ** Intercept state of the traffic-manager *)

Module InterceptState.
Import Errcat.

(** A finalizer is a closure; [run] gives, for each one, the error that
    it returns, if it returns one. *)
Record interceptState := {
  finalizers : list nat;
  interceptID : string;
}.

Inductive effect :=
| Finalize (finalizer : nat)
| LogFinalizerFailed (id : string) (e : error).

Definition newInterceptState (id : string) : interceptState :=
  {| finalizers := []; interceptID := id |}.

Definition addFinalizer (is_ : interceptState) (finalizer : nat) : interceptState :=
  {| finalizers := finalizers is_ ++ [finalizer]; interceptID := interceptID is_ |}.

(** The loop of [terminate], from the index [i] down to 0; [id] is the ID
    of the intercept that is finalized. *)
Fixpoint terminateFrom (run : nat → option error) (fs : list nat) (id : string)
    (i : nat) : list effect :=
  match i with
  | O => []
  | S i' =>
      match fs !! i' with
      | Some f =>
          Finalize f
          :: match run f with
             | Some e => [LogFinalizerFailed id e]
             | None => []
             end
          ++ terminateFrom run fs id i'
      | None => terminateFrom run fs id i'
      end
  end.

Definition terminate (run : nat → option error) (is_ : interceptState) (id : string)
    : list effect :=
  terminateFrom run (finalizers is_) id (length (finalizers is_)).

(** The finalizers that some effects ran, in order. *)
Definition finalized (effs : list effect) : list nat :=
  omap (λ e, match e with Finalize f => Some f | _ => None end) effs.

End InterceptState.

(** ** Handlers and queries of the session *)

Module TrafficMgrHandlers.
Import Errcat TrafficMgr.

(** What [setCurrentIntercepts] does besides updating the session: it
    creates and cancels scopes, starts and stops API servers, and logs. *)
Definition housekeeping (e : effect) : Prop :=
  match e with
  | NewScope _ | CancelScope _ | StartAPIServer _ | StopAPIServer _ | LogError _ => True
  | _ => False
  end.

(** Every entry of the current set is stored under the ID of its record. *)
Definition keyed (s : session) : Prop :=
  ∀ id ic, currentIntercepts s !! id = Some ic → Id (info ic) = id.

(** The intercept has an API port that the session must serve. *)
Definition servesAPI (d : Collaborators) (ic : intercept) : Prop :=
  Disposition_ (info ic) = ACTIVE ∧ (0 < (agentAPIPort d (info ic)).1)%Z.

#[export] Instance servesAPI_dec d ic : Decision (servesAPI d ic).
Proof. unfold servesAPI. apply _. Defined.

(** *** Handlers of intercepts and ingests *)

(** The fields of an [ingest] that the session reads or writes here; the
    ingests are kept under [ingestKey{workload, container}]. *)
Record ingest := {
  ig_pid : Z;
  ig_handlerContainer : string;
}.

(** [rpc.Interceptor] *)
Record Interceptor := {
  ih_Pid : Z;
  ih_ContainerName : string;
}.

(** [strings.Split(s, "/")] *)
Fixpoint splitSlash (s : string) : list string :=
  match s with
  | EmptyString => [EmptyString]
  | String a s' =>
      if Ascii.eqb a "/"%char then EmptyString :: splitSlash s'
      else match splitSlash s' with
           | part :: parts => String a part :: parts
           | [] => [String a EmptyString]
           end
  end.

Definition setHandler (handlerPid : Z) (container : string) (x : intercept) : intercept :=
  Build_intercept (info x) (scope x) handlerPid container (localMountPort x) (readOnly x).

Definition setEntry (id : string) (ic : intercept) (s : session) : session :=
  setIntercepts (<[id := ic]> (currentIntercepts s)) (nextScope s) s.

(** [AddInterceptor]; it returns nil in every case. The ingest is looked
    for only when no intercept has the ID. [show] renders the interceptor
    for the warning. *)
Definition AddInterceptor (show : Interceptor → string) (s : session)
    (ingests : gmap (string * string) ingest) (id : string) (ih : Interceptor)
    : session * gmap (string * string) ingest * list effect :=
  let warn := [LogWarn ("Found no ingest or intercept handler for id " +:+ id +:+ ", "
                        +:+ show ih)] in
  match currentIntercepts s !! id with
  | Some ci => (setEntry id (setHandler (ih_Pid ih) (ih_ContainerName ih) ci) s, ingests, [])
  | None =>
      match splitSlash id with
      | [workload; cn] =>
          match ingests !! (workload, cn) with
          | Some _ =>
              (s, <[(workload, cn) := {| ig_pid := ih_Pid ih;
                                         ig_handlerContainer := ih_ContainerName ih |}]> ingests,
               [])
          | None => (s, ingests, warn)
          end
      | _ => (s, ingests, warn)
      end
  end.

(** [RemoveInterceptor]; it returns nil in every case. *)
Definition RemoveInterceptor (s : session) (ingests : gmap (string * string) ingest)
    (id : string) : session * gmap (string * string) ingest :=
  match currentIntercepts s !! id with
  | Some ci => (setEntry id (setHandler 0 "" ci) s, ingests)
  | None =>
      match splitSlash id with
      | [workload; cn] =>
          match ingests !! (workload, cn) with
          | Some _ =>
              (s, <[(workload, cn) := {| ig_pid := 0; ig_handlerContainer := "" |}]> ingests)
          | None => (s, ingests)
          end
      | _ => (s, ingests)
      end
  end.

(** *** Queries by name *)

(** The loop of [getInterceptByName], with the key of the intercept that
    it finds. *)
Definition findByName (s : session) (name : string) : option (string * intercept) :=
  snd <$> list_find (λ kv, Name (Spec (info kv.2)) = name) (map_to_list (currentIntercepts s)).


Definition setEnvironment (v : gmap string string) (x : InterceptInfo) : InterceptInfo :=
  Build_InterceptInfo (Id x) (Spec x) (Disposition_ x) (Message x) (PodIp x) (SftpPort x)
    (FtpPort x) (MountPoint x) (ClientMountPoint x) v (Headers x) (Metadata x).

Definition HandlerContainerEnv : string := "TELEPRESENCE_HANDLER_CONTAINER_NAME".

(** [GetInterceptInfo]. The record returned is the one that the intercept
    points to, and the entry for the handler container is written into its
    environment in place: the session holds the record as it is returned. *)
Definition GetInterceptInfo (s : session) (name : string)
    : option InterceptInfo * session :=
  match findByName s name with
  | Some (id, ic) =>
      if negb (bool_decide (handlerContainer ic = "")) then
        let ii := setEnvironment
                    (<[HandlerContainerEnv := handlerContainer ic]> (Environment (info ic)))
                    (info ic) in
        (Some ii, setEntry id (set_info ii ic) s)
      else (Some (info ic), s)
  | None => (None, s)
  end.

(** *** Removal of everything *)

(** [grpcStatus.Code(err) != grpcCodes.NotFound] *)
Definition notNotFound (e : error) : bool :=
  match e with
  | StatusError NotFound _ => false
  | _ => true
  end.

(** The first loop of [ClearIngestsAndIntercepts], over the slice that
    [getCurrentIntercepts] returns; [reply] gives the failure of the
    manager's [RemoveIntercept] for an intercept, if it fails. *)
Fixpoint clearIntercepts (d : Collaborators) (c : context) (reply : intercept → option error)
    (ics : list intercept) : option error * list effect :=
  match ics with
  | [] => (None, [])
  | ic :: ics' =>
      let '(err, effs) := removeIntercept d c ic (reply ic) in
      match err with
      | Some e =>
          if notNotFound e then (Some e, effs)
          else let '(r, effs') := clearIntercepts d c reply ics' in (r, effs ++ effs')
      | None => let '(r, effs') := clearIntercepts d c reply ics' in (r, effs ++ effs')
      end
  end.

(** [ClearIngestsAndIntercepts]; [ingests] are the ingests in the order
    in which [Range] visits them. *)
Definition ClearIngestsAndIntercepts (d : Collaborators) (c : context)
    (reply : intercept → option error) (ics : list intercept)
    (ingests : list (string * string * ingest)) : option error * list effect :=
  match clearIntercepts d c reply ics with
  | (Some e, effs) => (Some e, effs)
  | (None, effs) =>
      (None,
       effs ++ mjoin ((λ kv, stopHandler d (kv.1.1 +:+ "/" +:+ kv.1.2)
                                 (ig_handlerContainer kv.2) (ig_pid kv.2)) <$> ingests))
  end.

End TrafficMgrHandlers.

(** ** Preparation of an intercept in the traffic-manager *)

Module Preparation.
Import Errcat PortMatcher Provisioner.

(** [managerrpc.PreparedIntercept] *)
Record PreparedIntercept := {
  prep_Namespace : string;
  prep_ServiceUid : string;
  prep_ServiceName : string;
  prep_ServicePortName : string;
  prep_ContainerName : string;
  prep_Protocol : string;
  prep_ContainerPort : Z;
  prep_ServicePort : Z;
  prep_AgentImage : string;
  prep_WorkloadKind : string;
  prep_Error : string;
  prep_ErrorCategory : Category;
}.

(** The [interceptError] closure of [PrepareIntercept]: an error with a
    gRPC status is returned as the error of the call, any other error is
    logged and delivered in the reply, with its category. *)
Definition interceptError (err : error) : (error + PreparedIntercept) * list effect :=
  match err with
  | StatusError _ _ => (inl err, [])
  | _ =>
      (inr {| prep_Namespace := ""; prep_ServiceUid := ""; prep_ServiceName := "";
              prep_ServicePortName := ""; prep_ContainerName := ""; prep_Protocol := "";
              prep_ContainerPort := 0; prep_ServicePort := 0; prep_AgentImage := "";
              prep_WorkloadKind := ""; prep_Error := Error err;
              prep_ErrorCategory := GetCategory err |},
       [LogError ("PrepareIntercept error " +:+ Error err)])
  end.


(** [EnsureAgent] *)
Definition EnsureAgent (d : Collaborators) (sit : Situation)
    (getWorkload : error * bool + Workload) (sched : list waitEvent)
    (st : gmap string (gmap string string))
    : option ((error + list AgentInfo) * gmap string (gmap string string) * list effect) :=
  match getWorkload with
  | inl (err, isNotFound) =>
      Some (inl (if isNotFound then UserError (Error err) else err), st, [])
  | inr wl =>
      '(r, st1, effs) ← ensureAgent d sit wl false None sched st;
      Some (match r with inl err => inl err | inr (_, as_) => inr as_ end, st1, effs)
  end.

(** The reply of [PrepareIntercept] as the client session reads it. *)
Definition received (r : error + PreparedIntercept) : error + TrafficMgr.PreparedIntercept :=
  match r with
  | inl err => inl err
  | inr pi =>
      inr {| TrafficMgr.pi_Error := prep_Error pi;
             TrafficMgr.pi_ErrorCategory := prep_ErrorCategory pi;
             TrafficMgr.pi_ServiceUid := prep_ServiceUid pi;
             TrafficMgr.pi_ServiceName := prep_ServiceName pi;
             TrafficMgr.pi_ServicePortName := prep_ServicePortName pi;
             TrafficMgr.pi_ServicePort := prep_ServicePort pi;
             TrafficMgr.pi_Protocol := prep_Protocol pi;
             TrafficMgr.pi_ContainerPort := prep_ContainerPort pi;
             TrafficMgr.pi_WorkloadKind := prep_WorkloadKind pi |}
  end.

End Preparation.

(* ===================================================================== *)
(** * Properties *)
(* ===================================================================== *)

Module GoStringsFacts.
Import GoStrings.

Lemma HasPrefix_app (p t : string) : HasPrefix (p +:+ t) p = true.
Proof.
  induction p as [|c p IH]; simpl; [done|].
  by rewrite bool_decide_eq_true_2.
Qed.

Lemma Contains_unfold (s sub : string) :
  Contains s sub =
    if HasPrefix s sub then true
    else match s with EmptyString => false | String _ s' => Contains s' sub end.
Proof. by destruct s. Qed.

Lemma Contains_self_app (p t : string) : Contains (p +:+ t) p = true.
Proof. by rewrite Contains_unfold, HasPrefix_app. Qed.

(** A string contains each of the pieces it is concatenated from. *)
Lemma Contains_app_r (a s sub : string) :
  Contains s sub = true → Contains (a +:+ s) sub = true.
Proof.
  intros H. induction a as [|c a IH]; simpl; [done|].
  fold (Contains (a +:+ s) sub). rewrite IH. by destruct (HasPrefix _ _).
Qed.

Lemma Contains_middle (a p t : string) : Contains (a +:+ p +:+ t) p = true.
Proof. apply Contains_app_r, Contains_self_app. Qed.

End GoStringsFacts.

Module PortMatcherFacts.
Import Errcat GoStrings GoStringsFacts PortMatcher.

Section Matcher.
Variable IsInterceptForService : string → Intercept → bool.
Variable IsInterceptForContainer : string → Intercept → bool.
Variable ac : Sidecar.
Variable spec : MatchSpec.

Local Abbreviation ruleMatches := (ruleMatches IsInterceptForService IsInterceptForContainer spec).
Local Abbreviation scanIntercepts :=
  (scanIntercepts IsInterceptForService IsInterceptForContainer ac spec).
Local Abbreviation scanContainers :=
  (scanContainers IsInterceptForService IsInterceptForContainer ac spec).
Local Abbreviation findIntercept :=
  (findIntercept IsInterceptForService IsInterceptForContainer ac spec).
Local Abbreviation matchingPairs :=
  (matchingPairs IsInterceptForService IsInterceptForContainer spec).
Local Abbreviation ambiguityMsg := (ambiguityMsg ac spec).
Local Abbreviation noPortMsg := (noPortMsg ac spec).
Local Abbreviation resolveContainer := (resolveContainer ac spec).
Local Abbreviation matchingOf :=
  (matchingOf IsInterceptForService IsInterceptForContainer spec).
Local Abbreviation ambiguityAdvice := (ambiguityAdvice ac spec).
Local Abbreviation filtersDescribed := (filtersDescribed ac spec).

Lemma matchingPairs_cons cn cns :
  matchingPairs (cn :: cns) = matchingOf cn ++ matchingPairs cns.
Proof.
  unfold PortMatcher.matchingPairs, declaredPairs, PortMatcher.matchingOf. simpl.
  rewrite filter_app. f_equal.
  induction (cn_Intercepts cn) as [|ic ics IH]; [done|].
  rewrite fmap_cons, !filter_cons. simpl.
  destruct (decide (ruleMatches ic = true)); rewrite IH; done.
Qed.

(** Once a candidate is held, any further match is the early return. *)
Lemma scanIntercepts_held cn ics p :
  scanIntercepts cn ics (Some p) =
    match filter (λ ic, ruleMatches ic = true) ics with
    | [] => inr (Some p)
    | _ :: _ => inl (UserError ambiguityMsg)
    end.
Proof.
  induction ics as [|ic ics IH]; [done|].
  rewrite filter_cons. simpl.
  destruct (ruleMatches ic) eqn:E.
  - rewrite decide_True by done. done.
  - rewrite decide_False by (by intros ?). done.
Qed.

Lemma scanIntercepts_fresh cn ics :
  scanIntercepts cn ics None =
    match filter (λ ic, ruleMatches ic = true) ics with
    | [] => inr None
    | [ic] => inr (Some (resolveContainer cn, ic))
    | _ :: _ :: _ => inl (UserError ambiguityMsg)
    end.
Proof.
  induction ics as [|ic ics IH]; [done|].
  rewrite filter_cons. simpl.
  destruct (ruleMatches ic) eqn:E.
  - rewrite decide_True by done. rewrite scanIntercepts_held.
    by destruct (filter _ ics).
  - rewrite decide_False by (by intros ?). done.
Qed.

Lemma scanContainers_held cns p :
  scanContainers cns (Some p) =
    match matchingPairs cns with
    | [] => inr (Some p)
    | _ :: _ => inl (UserError ambiguityMsg)
    end.
Proof.
  induction cns as [|cn cns IH]; [done|].
  rewrite matchingPairs_cons. unfold PortMatcher.matchingOf. simpl.
  rewrite scanIntercepts_held.
  destruct (filter _ (cn_Intercepts cn)); simpl; [apply IH | done].
Qed.

Lemma scanContainers_fresh cns :
  scanContainers cns None =
    match matchingPairs cns with
    | [] => inr None
    | [(cn, ic)] => inr (Some (resolveContainer cn, ic))
    | _ :: _ :: _ => inl (UserError ambiguityMsg)
    end.
Proof.
  induction cns as [|cn cns IH]; [done|].
  rewrite matchingPairs_cons. unfold PortMatcher.matchingOf. simpl.
  rewrite scanIntercepts_fresh.
  destruct (filter _ (cn_Intercepts cn)) as [|ic [|ic' ics]]; simpl.
  - apply IH.
  - rewrite scanContainers_held. by destruct (matchingPairs cns).
  - done.
Qed.

(** The three outcomes of [findIntercept], by the number of declared
    rules that match the request. *)
Lemma findIntercept_cases :
  findIntercept =
    match matchingPairs (ac_Containers ac) with
    | [] => inl (UserError noPortMsg)
    | [(cn, ic)] => inr (resolveContainer cn, ic)
    | _ :: _ :: _ => inl (UserError ambiguityMsg)
    end.
Proof.
  unfold PortMatcher.findIntercept. rewrite scanContainers_fresh.
  by destruct (matchingPairs _) as [|[cn ic] [|p ps]].
Qed.

Lemma ambiguityMsg_advice : ambiguityAdvice ambiguityMsg.
Proof.
  unfold PortMatcher.ambiguityAdvice, PortMatcher.ambiguityMsg.
  destruct (bool_decide (ms_ServiceName spec = "")),
           (bool_decide (ms_PortIdentifier spec = "")); simpl.
  - split.
    + apply Contains_app_r.
      apply (Contains_app_r " has multiple interceptable ports.").
      apply (Contains_app_r "
").
      apply (Contains_app_r "Please specify the service and/or port you want to intercept ").
      apply (Contains_middle "by passing the " "--service=<svc>").
    + apply Contains_app_r.
      apply (Contains_app_r " has multiple interceptable ports.").
      apply (Contains_app_r "
").
      apply (Contains_app_r "Please specify the service and/or port you want to intercept ").
      apply (Contains_middle "by passing the --service=<svc> and/or " "--port=<local:").
  - apply Contains_app_r.
    apply (Contains_app_r " has multiple interceptable services with port ").
    apply Contains_app_r. apply (Contains_app_r "."). apply (Contains_app_r "
").
    apply (Contains_middle "Please specify the service you want to intercept by passing the "
             "--service=<svc> flag" ".").
  - apply Contains_app_r.
    apply (Contains_app_r " has multiple interceptable ports in service ").
    apply Contains_app_r. apply (Contains_app_r "."). apply (Contains_app_r "
").
    apply (Contains_middle "Please specify the port you want to intercept by passing the "
             "--port=<local:svcPortName> flag" ".").
  - done.
Qed.

Lemma app_empty_r (s : string) : s +:+ "" = s.
Proof. induction s; simpl; congruence. Qed.

Lemma noPortMsg_filters : filtersDescribed noPortMsg.
Proof.
  unfold PortMatcher.filtersDescribed, PortMatcher.noPortMsg. split.
  - apply Contains_app_r, Contains_self_app.
  - destruct (bool_decide (ms_ServiceName spec = "")),
             (bool_decide (ms_PortIdentifier spec = "")); cbn [negb].
    + by rewrite app_empty_r.
    + apply Contains_app_r. apply (Contains_app_r " has no interceptable port").
      rewrite <-(app_empty_r (_ +:+ ms_PortIdentifier spec)) at 1.
      apply Contains_self_app.
    + apply Contains_app_r. apply (Contains_app_r " has no interceptable port").
      rewrite <-(app_empty_r (_ +:+ ms_ServiceName spec)) at 1.
      apply Contains_self_app.
    + apply Contains_app_r. apply (Contains_app_r " has no interceptable port").
      rewrite <-(app_empty_r (_ +:+ ms_ServiceName spec +:+ _ )) at 1.
      apply Contains_self_app.
Qed.

End Matcher.

(** C2 (as amended). For every request and every set of declared
    (container, rule) pairs, [findIntercept] returns one pair or fails,
    according to the declared rules that match the request, taken in
    declaration order:
    - none: it fails with a user error whose text is the workload label,
      "has no interceptable port" and the filters that were applied;
    - exactly one: it returns that rule, with the container that declares
      it (or the container named by the request when there is one);
    - two or more: it fails with a user error chosen by which of service
      name and port identifier were given; the three variants with one of
      them missing name the flag to add ([--service] and [--port],
      [--service], [--port]) and the variant with both given reports that
      the service and port are declared more than once. *)
Theorem findIntercept_resolution
    (IsInterceptForService IsInterceptForContainer : string → Intercept → bool)
    (ac : Sidecar) (spec : MatchSpec) :
  let result := findIntercept IsInterceptForService IsInterceptForContainer ac spec in
  match matchingPairs IsInterceptForService IsInterceptForContainer spec (ac_Containers ac) with
  | [] => ∃ msg, result = inl (UserError msg) ∧ filtersDescribed ac spec msg
  | [(cn, ic)] => result = inr (resolveContainer ac spec cn, ic)
  | _ :: _ :: _ => ∃ msg, result = inl (UserError msg) ∧ ambiguityAdvice ac spec msg
  end.
Proof.
  intros result. unfold result. rewrite findIntercept_cases.
  destruct (matchingPairs _ _ _ _) as [|[cn ic] [|p ps]].
  - eexists. split; [done|]. apply noPortMsg_filters.
  - done.
  - eexists. split; [done|]. apply ambiguityMsg_advice.
Qed.

(** A workload with one container and two ports, one in [svcA] and one in
    [svcB], matched with the service-level and container-level predicates
    reduced to a comparison of port names. *)
Definition byPortName (pi : string) (ic : Intercept) : bool :=
  bool_decide (pi = ic_ServicePortName ic).

Definition ruleA : Intercept :=
  {| ic_ServiceName := "svcA"; ic_ServiceUID := "uid-a"; ic_ServicePortName := "http";
     ic_ServicePort := 80; ic_Protocol := "TCP"; ic_ContainerPort := 8080 |}.
Definition ruleB : Intercept :=
  {| ic_ServiceName := "svcB"; ic_ServiceUID := "uid-b"; ic_ServicePortName := "grpc";
     ic_ServicePort := 90; ic_Protocol := "TCP"; ic_ContainerPort := 9090 |}.
Definition appContainer (ics : list Intercept) : Container :=
  {| cn_Name := "app"; cn_Intercepts := ics; cn_Replace := 0 |}.
Definition echoSidecar (ics : list Intercept) : Sidecar :=
  {| ac_WorkloadKind := "Deployment"; ac_WorkloadName := "echo"; ac_Namespace := "default";
     ac_AgentName := "echo"; ac_AgentImage := "tel2:2.0"; ac_Containers := [appContainer ics] |}.
Definition request (svc pi : string) : MatchSpec :=
  {| ms_ServiceName := svc; ms_PortIdentifier := pi; ms_ContainerName := "" |}.

Example findIntercept_two_ports_no_filter :
  ∃ msg, findIntercept byPortName byPortName (echoSidecar [ruleA; ruleB]) (request "" "")
           = inl (UserError msg)
         ∧ Contains msg "--service" = true ∧ Contains msg "--port" = true.
Proof. eexists. split; [reflexivity|]. by vm_compute. Qed.

Example findIntercept_service_filter :
  findIntercept byPortName byPortName (echoSidecar [ruleA; ruleB]) (request "svcA" "")
    = inr (appContainer [ruleA; ruleB], ruleA).
Proof. reflexivity. Qed.

Example findIntercept_no_match :
  findIntercept byPortName byPortName (echoSidecar [ruleA; ruleB]) (request "svcC" "")
    = inl (UserError "Deployment echo.default has no interceptable port matching service svcC").
Proof. reflexivity. Qed.

(** C2, as stated, fails: with both a service name and a port identifier
    given and the rule declared twice, the ambiguity message names
    neither [--service] nor [--port]. *)
Lemma findIntercept_duplicate_rule_names_no_flag :
  ∃ msg, matchingPairs byPortName byPortName (request "svcA" "http")
           (ac_Containers (echoSidecar [ruleA; ruleA]))
           = [(appContainer [ruleA; ruleA], ruleA); (appContainer [ruleA; ruleA], ruleA)]
         ∧ findIntercept byPortName byPortName (echoSidecar [ruleA; ruleA])
             (request "svcA" "http") = inl (UserError msg)
         ∧ Contains msg "--service" = false ∧ Contains msg "--port" = false.
Proof. eexists. split; [by vm_compute|]. split; [reflexivity|]. by vm_compute. Qed.

End PortMatcherFacts.

Module ProvisionerFacts.
Import Errcat GoStrings GoStringsFacts PortMatcher Provisioner.

Section Eligibility.
Variable d : Collaborators.
Variable wl : Workload.

(** The values of the inject annotation that the [switch] accepts. *)
Lemma checkInterceptAnnotations_nil :
  wl_Annotations wl = None → checkInterceptAnnotations d wl = inr true.
Proof. unfold checkInterceptAnnotations. by intros ->. Qed.

Lemma check_webhook_managed a :
  wl_Annotations wl = Some a →
  goLookup a (ManualInjectAnnotation d) ≠ "true" →
  checkInterceptAnnotations d wl =
    let ia := goLookup a (InjectAnnotation d) in
    if bool_decide (ia = "") || bool_decide (ia = "enabled") then inr true
    else if bool_decide (ia = "false") || bool_decide (ia = "disabled") then inr false
    else inl (UserError (ia +:+ " is not a valid value for the " +:+ wl_Name wl +:+ "."
                         +:+ wl_Namespace wl +:+ "/" +:+ ManualInjectAnnotation d
                         +:+ " annotation")).
Proof.
  intros Ha Hm. unfold checkInterceptAnnotations. rewrite Ha.
  rewrite (bool_decide_eq_false_2 _ Hm). cbn [negb].
  repeat case_bool_decide; simpl; done.
Qed.

Lemma check_manually_managed a :
  wl_Annotations wl = Some a →
  goLookup a (ManualInjectAnnotation d) = "true" →
  goLookup a (InjectAnnotation d) ∈ [""; "enabled"; "false"; "disabled"] →
  checkInterceptAnnotations d wl =
    if hasAgentContainer d wl then inr true
    else inl (UserError ("annotation " +:+ wl_Name wl +:+ "." +:+ wl_Namespace wl
                         +:+ "/" +:+ ManualInjectAnnotation d
                         +:+ "=true but pod has no traffic-agent container")).
Proof.
  intros Ha Hm Hia. unfold checkInterceptAnnotations. rewrite Ha.
  rewrite (bool_decide_eq_true_2 _ Hm). cbn [negb].
  set_unfold in Hia.
  destruct Hia as [->|[->|[->|[->|[]]]]]; done.
Qed.

(** A failed check returns before [Update] is called. *)
Lemma getOrCreateAgentConfig_rejected sit extended spec st :
  getOrCreateAgentConfig d sit wl extended spec st =
    match checkInterceptAnnotations d wl with
    | inl e => (inl e, st, [])
    | inr false =>
        (inl (UserError (wl_Kind wl +:+ " " +:+ wl_Name wl +:+ "." +:+ wl_Namespace wl
                         +:+ " is not interceptable")), st, [])
    | inr true => getOrCreateAgentConfig d sit wl extended spec st
    end.
Proof.
  unfold getOrCreateAgentConfig.
  by destruct (checkInterceptAnnotations d wl) as [e|[]].
Qed.

End Eligibility.

(** C7 (as amended). The eligibility of a workload whose pod template has
    annotations [a], with [ia] the value of the inject annotation:
    - when the workload is not marked as manually injected, an absent or
      [enabled] inject annotation makes it eligible, and [false] or
      [disabled] makes [getOrCreateAgentConfig] reject it as not
      interceptable, with the store untouched and no collaborator called;
    - when it is marked as manually injected and [ia] is one of the four
      accepted values, it is eligible exactly when its pod template declares
      the traffic-agent container, whatever [ia] says; without that container
      [getOrCreateAgentConfig] fails with a user error that says so, with
      the store untouched;
    - any other value of [ia] is a user error. *)
Theorem annotation_policy (d : Collaborators) (sit : Situation) (wl : Workload)
    (extended : bool) (spec : option InterceptSpec)
    (st : gmap string (gmap string string)) (a : gmap string string) :
  wl_Annotations wl = Some a →
  let manual := goLookup a (ManualInjectAnnotation d) = "true" in
  let ia := goLookup a (InjectAnnotation d) in
  let accepted := ia ∈ [""; "enabled"; "false"; "disabled"] in
  (¬ manual → ia = "" ∨ ia = "enabled" → checkInterceptAnnotations d wl = inr true)
  ∧ (¬ manual → ia = "false" ∨ ia = "disabled" →
       checkInterceptAnnotations d wl = inr false
       ∧ getOrCreateAgentConfig d sit wl extended spec st =
           (inl (UserError (wl_Kind wl +:+ " " +:+ wl_Name wl +:+ "." +:+ wl_Namespace wl
                            +:+ " is not interceptable")), st, []))
  ∧ (manual → accepted → hasAgentContainer d wl = true →
       checkInterceptAnnotations d wl = inr true)
  ∧ (manual → accepted → hasAgentContainer d wl = false →
       ∃ msg, Contains msg "but pod has no traffic-agent container" = true
              ∧ checkInterceptAnnotations d wl = inl (UserError msg)
              ∧ getOrCreateAgentConfig d sit wl extended spec st = (inl (UserError msg), st, []))
  ∧ (¬ accepted →
       ∃ msg, checkInterceptAnnotations d wl = inl (UserError msg)
              ∧ getOrCreateAgentConfig d sit wl extended spec st = (inl (UserError msg), st, [])).
Proof.
  intros Ha manual ia accepted. repeat split.
  - intros Hm Hia. rewrite (check_webhook_managed d wl a Ha Hm). fold ia.
    destruct Hia as [->| ->]; done.
  - rewrite (check_webhook_managed d wl a Ha H). fold ia.
    destruct H0 as [->| ->]; done.
  - rewrite getOrCreateAgentConfig_rejected, (check_webhook_managed d wl a Ha H). fold ia.
    destruct H0 as [->| ->]; done.
  - intros Hm Hacc Hcn. rewrite (check_manually_managed d wl a Ha Hm Hacc). by rewrite Hcn.
  - intros Hm Hacc Hcn. eexists. split; [|split].
    2:{ rewrite (check_manually_managed d wl a Ha Hm Hacc). by rewrite Hcn. }
    + do 6 apply Contains_app_r. reflexivity.
    + rewrite getOrCreateAgentConfig_rejected, (check_manually_managed d wl a Ha Hm Hacc).
      by rewrite Hcn.
  - intros Hacc.
    assert (∃ msg, checkInterceptAnnotations d wl = inl (UserError msg)) as [msg Hmsg].
    { unfold checkInterceptAnnotations. rewrite Ha. fold ia.
      unfold accepted in Hacc. set_unfold in Hacc.
      assert (ia ≠ "" ∧ ia ≠ "enabled" ∧ ia ≠ "false" ∧ ia ≠ "disabled")
        as (H1 & H2 & H3 & H4) by tauto.
      rewrite (bool_decide_eq_false_2 _ H1), (bool_decide_eq_false_2 _ H2),
              (bool_decide_eq_false_2 _ H3), (bool_decide_eq_false_2 _ H4).
      cbn [orb]. eauto. }
    exists msg. split; [done|].
    by rewrite getOrCreateAgentConfig_rejected, Hmsg.
Qed.

Section Waiting.
Variable d : Collaborators.
Variables name namespace : string.

Lemma columnWidth_title title cell es :
  String.length title + 3 ≤ columnWidth title cell es.
Proof.
  unfold columnWidth.
  enough (∀ w0, w0 ≤ foldl (λ w e, if decide (w < String.length (cell e))
                                   then String.length (cell e) else w) w0 es) as H.
  { specialize (H (String.length title)). lia. }
  induction es as [|e es' IH]; intros w0; simpl; [lia|].
  etrans; [|apply IH]. case_decide; lia.
Qed.

Lemma columnWidth_cell title (cell : Event → string) es e :
  e ∈ es → String.length (cell e) + 3 ≤ columnWidth title cell es.
Proof.
  unfold columnWidth. generalize (String.length title) as w0.
  assert (∀ es' w0, w0 ≤ foldl (λ w e, if decide (w < String.length (cell e))
                                      then String.length (cell e) else w) w0 es') as Hmono.
  { induction es' as [|e' es' IH]; intros w0; simpl; [lia|].
    etrans; [|apply IH]. case_decide; lia. }
  induction es as [|e' es' IH]; intros w0 Hin; [by apply elem_of_nil in Hin|].
  apply elem_of_cons in Hin as [->|Hin]; simpl.
  - specialize (Hmono es' (if decide (w0 < String.length (cell e'))
                           then String.length (cell e') else w0)).
    case_decide; lia.
  - by apply IH.
Qed.

Lemma writeEventList_table es : tableOf d es (writeEventList d es).
Proof.
  exists (columnWidth "AGE" (age d) es), (columnWidth "TYPE" ev_Type es),
         (columnWidth "REASON" ev_Reason es), (columnWidth "OBJECT" (object d) es).
  split; [|split].
  - repeat split; apply columnWidth_title.
  - intros e He. repeat split; by apply columnWidth_cell.
  - reflexivity.
Qed.

Lemma classifyEvent_fatal fe :
  fatalEvent fe = true →
  ∃ msg effs, classifyEvent d namespace fe = (inl msg, effs)
              ∧ HasPrefix msg (ev_Note fe) = true.
Proof.
  unfold fatalEvent, classifyEvent. intros H.
  destruct (bool_decide (ev_Reason fe = "BackOff")) eqn:Hb.
  { do 2 eexists. split; [done|]. apply HasPrefix_app. }
  simpl in H. apply andb_true_iff in H as [Hr Ht].
  apply bool_decide_eq_true in Hr. set_unfold in Hr.
  assert (bool_decide (ev_Reason fe = "Failed") || bool_decide (ev_Reason fe = "FailedCreate")
          || bool_decide (ev_Reason fe = "FailedScheduling") = true) as ->.
  { destruct Hr as [->|[->|[->|[]]]]; done. }
  apply negb_true_iff in Ht. rewrite Ht.
  do 2 eexists. split; [done|]. apply HasPrefix_app.
Qed.

Lemma classifyEvent_buffered fe :
  fatalEvent fe = false → classifyEvent d namespace fe = (inr (), []).
Proof.
  unfold fatalEvent, classifyEvent. intros H.
  apply orb_false_iff in H as [Hb H]. rewrite Hb.
  apply andb_false_iff in H as [H|H].
  - apply bool_decide_eq_false in H. set_unfold in H.
    repeat case_bool_decide; simpl; naive_solver.
  - apply negb_false_iff in H. rewrite H.
    by destruct (_ || _).
Qed.

(** Undecided cases only fill the buffer. *)
Lemma waitLoop_undecided pre rest fes :
  Forall (undecided d) pre →
  waitLoop d name namespace (pre ++ rest) fes
    = waitLoop d name namespace rest (fes ++ buffered pre).
Proof.
  intros Hpre. revert fes.
  induction Hpre as [|ev pre Hev _ IH]; intros fes; simpl.
  { by rewrite app_nil_r. }
  destruct ev as [[fe|]|[state|]|b]; simpl in Hev; try done.
  - rewrite (classifyEvent_buffered fe Hev). rewrite IH.
    unfold buffered at 2. simpl. fold (buffered pre).
    rewrite <-app_assoc. simpl.
    by destruct (waitLoop _ _ _ _ _) as [[r effs]|].
  - unfold liveAgents in Hev. rewrite Hev. simpl.
    rewrite IH. unfold buffered at 2. simpl. by destruct (decide _).
Qed.

Lemma waitLoop_deadline sched fes b :
  is_Some (waitLoop d name namespace (sched ++ [CtxDone b]) fes).
Proof.
  revert fes. induction sched as [|ev sched IH]; intros fes; simpl; [done|].
  destruct ev as [[fe|]|[state|]|b']; try done.
  - destruct (classifyEvent d namespace fe) as [[msg|[]] effs]; [done|].
    destruct (IH (fes ++ [fe])) as [[r effs'] ->]. done.
  - repeat case_decide; try done; apply IH.
Qed.

Lemma waitLoop_no_delete sched fes r effs :
  waitLoop d name namespace sched fes = Some (r, effs) → deletes effs = [].
Proof.
  revert fes r effs. induction sched as [|ev sched IH]; intros fes r effs; simpl; [done|].
  destruct ev as [[fe|]|[state|]|b']; try (by intros [= <- <-]).
  - destruct (classifyEvent d namespace fe) as [[msg|[]] ceffs] eqn:Hc.
    + intros [= <- <-]. unfold classifyEvent in Hc.
      repeat case_match; simplify_eq; done.
    + destruct (waitLoop _ _ _ sched _) as [[r' effs']|] eqn:Hw; [|done].
      simpl. intros [= <- <-]. unfold deletes. rewrite filter_app.
      fold (deletes effs'). rewrite (IH _ _ _ Hw), app_nil_r.
      unfold classifyEvent in Hc. repeat case_match; simplify_eq; done.
  - repeat case_decide; try (by intros [= <- <-]); apply IH.
Qed.

End Waiting.

(** C6 (as amended). After any run [pre] of cases that decide nothing
    (events that are not fatal, snapshots without a live agent), the wait
    for an agent
    - fails at once, with a user error that starts with the note of the
      event, on a fatal event: any [BackOff] event (the container name is
      only used to fetch its log), or a [Failed], [FailedCreate] or
      [FailedScheduling] event that is not a [Warning] with a transient
      note, whatever would follow;
    - succeeds with the live agents of the first snapshot that has one;
    - fails when the context ends, with the timeout message built from the
      events buffered so far, which are exactly the events of [pre]; when at
      least one event is buffered, that message ends in a table with the
      columns AGE, TYPE, REASON, OBJECT and MESSAGE and a row per event. *)
Theorem waitForAgents_outcomes (d : Collaborators) (name namespace : string)
    (pre rest : list waitEvent) :
  Forall (undecided d) pre →
  (∀ fe, fatalEvent fe = true →
     ∃ msg effs, waitForAgents d name namespace (pre ++ FailedCreate (Some fe) :: rest)
                   = Some (inl (UserError msg), effs)
                 ∧ HasPrefix msg (ev_Note fe) = true)
  ∧ (∀ state, liveAgents d state ≠ [] →
       waitForAgents d name namespace (pre ++ Snapshot (Some state) :: rest)
         = Some (inr (liveAgents d state), []))
  ∧ (∀ deadlineExceeded,
       waitForAgents d name namespace (pre ++ CtxDone deadlineExceeded :: rest)
         = Some (inl (UserError (timeoutMsg d name namespace deadlineExceeded (buffered pre))), [])
       ∧ (buffered pre ≠ [] →
            ∃ table, tableOf d (buffered pre) table
                     ∧ timeoutMsg d name namespace deadlineExceeded (buffered pre)
                       = "request " +:+ (if deadlineExceeded then "timed out" else "canceled")
                         +:+ " while waiting for agent " +:+ name +:+ "." +:+ namespace
                         +:+ " to arrive" +:+ ": Events that may be relevant:
" +:+ table)).
Proof.
  intros Hpre. unfold waitForAgents. repeat split.
  - intros fe Hfe. rewrite (waitLoop_undecided d name namespace _ _ _ Hpre). simpl.
    destruct (classifyEvent_fatal d namespace fe Hfe) as (msg & effs & -> & Hmsg). eauto.
  - intros state Hlive. rewrite (waitLoop_undecided d name namespace _ _ _ Hpre). simpl.
    fold (liveAgents d state).
    assert (0 < length (liveAgents d state)) by (destruct (liveAgents d state); simpl; [done|lia]).
    assert (0 < length state).
    { destruct state; [|simpl; lia]. done. }
    by rewrite !decide_True.
  - by rewrite (waitLoop_undecided d name namespace _ _ _ Hpre).
  - intros Hbuf. exists (writeEventList d (buffered pre)). split.
    + apply writeEventList_table.
    + unfold timeoutMsg. rewrite decide_True; [done|].
      destruct (buffered pre); [done|simpl; lia].
Qed.

(** After an unhealthy-probe warning is buffered, a snapshot with a live
    agent ends the wait with success. *)
Lemma waitForAgents_outcomes_witness :
  waitForAgents sampleCollaborators "echo" "default"
    [FailedCreate (Some unhealthyEvent); Snapshot (Some [sampleAgent])]
  = Some (inr [sampleAgent], []).
Proof.
  destruct (waitForAgents_outcomes sampleCollaborators "echo" "default"
              [FailedCreate (Some unhealthyEvent)] []) as (_ & H & _).
  - repeat constructor.
  - apply (H [sampleAgent]). vm_compute. discriminate.
Defined.

Example waitForAgents_timeout_table :
  waitForAgents sampleCollaborators "echo" "default"
    [FailedCreate (Some unhealthyEvent); CtxDone true]
  = Some (inl (UserError
      "request timed out while waiting for agent echo.default to arrive: Events that may be relevant:
AGE   TYPE      REASON      OBJECT          MESSAGE
5s    Warning   Unhealthy   Pod/echo-7d9f   Readiness probe failed
"), []).
Proof. reflexivity. Qed.

(** C6, as stated, fails: a [BackOff] event whose note names no container
    (the failed-container expression does not match it) is not buffered; it
    ends the wait at once, although a snapshot with a live agent follows. *)
Lemma backoff_without_container_is_fatal :
  failedContainerRx sampleCollaborators "default" (ev_Note backOffEvent) = None
  ∧ waitForAgents sampleCollaborators "echo" "default"
      [FailedCreate (Some backOffEvent); Snapshot (Some [sampleAgent])]
    = Some (inl (UserError
        "Back-off pulling image
The logs of Pod echo-7d9f might provide more details"), []).
Proof. split; reflexivity. Qed.

Section Dropping.
Variable d : Collaborators.
Variable sit : Situation.
Variable wl : Workload.
Variable extended : bool.
Variable spec : option InterceptSpec.

Lemma agentConfigCallback_no_delete cm r effs :
  agentConfigCallback d sit wl extended spec cm = (r, effs) → deletes effs = [].
Proof.
  unfold agentConfigCallback. intros H.
  repeat case_match; simplify_eq; done.
Qed.

Lemma getOrCreateAgentConfig_no_delete st r st' effs :
  getOrCreateAgentConfig d sit wl extended spec st = (r, st', effs) → deletes effs = [].
Proof.
  unfold getOrCreateAgentConfig, mapUpdate. intros H.
  destruct (checkInterceptAnnotations d wl) as [e|[]]; simpl in H.
  - by simplify_eq.
  - destruct (ValidateAgentImage _ _); [by simplify_eq|].
    destruct (agentConfigCallback _ _ _ _ _ _) as [[e|[[changed cm] sce]] ceffs] eqn:Hc;
      simplify_eq; by eapply agentConfigCallback_no_delete.
  - by simplify_eq.
Qed.

Lemma mapDelete_entry st : configEntry (mapDelete st (wl_Name wl) (wl_Namespace wl)) wl = None.
Proof.
  unfold configEntry, mapDelete. rewrite lookup_alter_eq.
  destruct (st !! wl_Namespace wl) as [cm|]; simpl; [|done].
  apply lookup_delete_eq.
Qed.

(** The deadline of [ensureAgent] always fires in the end, and then it
    returns. *)
Lemma ensureAgent_returns sched b st :
  is_Some (ensureAgent d sit wl extended spec (sched ++ [CtxDone b]) st).
Proof.
  unfold ensureAgent, waitForAgents.
  destruct (negb _). { repeat case_match; done. }
  destruct (watchErr sit); [done|].
  destruct (getOrCreateAgentConfig _ _ _ _ _ _) as [[[e|ac] st1] effs]; [done|].
  destruct (waitLoop_deadline d (ac_AgentName ac) (ac_Namespace ac) sched [] b)
    as [[r weffs] ->].
  simpl. destruct r; [|done]. unfold dropAgentConfig. by destruct (dropErr sit).
Qed.

End Dropping.

(** C8. Whenever [ensureAgent] returns: if it got as far as waiting for a
    live agent (the injector is enabled, the event watch started and the
    agent-config record was obtained) and the wait failed, then it returns
    the failure of the wait, it has called [Delete] once, for the record of
    this workload, and unless that call failed the store has no record for
    the workload any more; on every other path it has not called [Delete]. *)
Theorem ensureAgent_drops_config_iff_wait_fails (d : Collaborators) (sit : Situation)
    (wl : Workload) (extended : bool) (spec : option InterceptSpec)
    (sched : list waitEvent) (st st' : gmap string (gmap string string))
    (res : error + (Sidecar * list AgentInfo)) (effs : list effect) :
  ensureAgent d sit wl extended spec sched st = Some (res, st', effs) →
  match waitOutcome d sit wl extended spec sched st with
  | Some (inl err) =>
      res = inl err
      ∧ deletes effs = [DeleteConfig (wl_Name wl) (wl_Namespace wl)]
      ∧ (dropErr sit = None → configEntry st' wl = None)
  | _ => deletes effs = []
  end.
Proof.
  unfold ensureAgent, waitOutcome.
  destruct (injectorEnabled sit); simpl.
  2:{ intros H. repeat case_match; simplify_eq; done. }
  destruct (watchErr sit) as [e|]; simpl.
  { by intros [= <- <- <-]. }
  try rewrite bool_decide_eq_true_2 by done.
  destruct (getOrCreateAgentConfig _ _ _ _ _ _) as [[[e|ac] st1] geffs] eqn:Hg.
  { intros [= <- <- <-]. by eapply getOrCreateAgentConfig_no_delete. }
  pose proof (getOrCreateAgentConfig_no_delete _ _ _ _ _ _ _ _ _ Hg) as Hgd.
  unfold waitForAgents.
  destruct (waitLoop _ _ _ _ _) as [[r weffs]|] eqn:Hw; simpl; [|done].
  pose proof (waitLoop_no_delete _ _ _ _ _ _ _ Hw) as Hwd.
  destruct r as [err|as_].
  - unfold dropAgentConfig.
    destruct (dropErr sit) as [dropE|] eqn:Hdrop; intros [= <- <- <-];
      (split; [done|split]); try done.
    + unfold deletes in *. by rewrite !filter_app, Hgd, Hwd.
    + unfold deletes in *. by rewrite !filter_app, Hgd, Hwd.
    + intros _. apply mapDelete_entry.
  - intros [= <- <- <-]. unfold deletes in *. by rewrite filter_app, Hgd, Hwd.
Qed.

(** A fresh workload gets its record, no agent arrives before the deadline,
    and the record is dropped again. *)
Lemma ensureAgent_drops_config_witness :
  ensureAgent sampleCollaborators sampleSituation (sampleWorkload None ["app"]) false None
    [CtxDone true] ∅
  = Some (inl (UserError "request timed out while waiting for agent echo.default to arrive"),
          {[ "default" := ∅ ]}, [DeleteConfig "echo" "default"])
  ∧ configEntry ({[ "default" := ∅ ]} : gmap string (gmap string string))
      (sampleWorkload None ["app"]) = None.
Proof.
  assert (ensureAgent sampleCollaborators sampleSituation (sampleWorkload None ["app"])
            false None [CtxDone true] ∅
          = Some (inl (UserError
                         "request timed out while waiting for agent echo.default to arrive"),
                  {[ "default" := ∅ ]}, [DeleteConfig "echo" "default"])) as Hrun.
  { by vm_compute. }
  split; [exact Hrun|].
  pose proof (ensureAgent_drops_config_iff_wait_fails _ _ _ _ _ _ _ _ _ _ Hrun) as H.
  vm_compute in H. destruct H as (_ & _ & H). vm_compute. by apply H.
Defined.

Definition disabledWorkload : Workload :=
  sampleWorkload (Some {[ "telepresence.io/inject-traffic-agent" := "disabled" ]}) ["app"].

Definition disabledManualWorkload : Workload :=
  sampleWorkload (Some {[ "telepresence.io/inject-traffic-agent" := "disabled";
                          "telepresence.io/manually-injected" := "true" ]})
                 ["app"; "traffic-agent"].

(** A workload with [inject-traffic-agent: disabled] and no manual marker
    is rejected and the empty store stays empty. *)
Lemma annotation_policy_witness :
  getOrCreateAgentConfig sampleCollaborators sampleSituation disabledWorkload false None ∅
    = (inl (UserError "Deployment echo.default is not interceptable"), ∅, []).
Proof.
  destruct (annotation_policy sampleCollaborators sampleSituation disabledWorkload
              false None ∅ _ eq_refl) as (_ & H & _).
  apply H.
  - vm_compute. discriminate.
  - right. reflexivity.
Defined.

(** C7, as stated, fails: a workload marked as manually injected whose
    inject annotation says [disabled], and whose pod template declares the
    traffic-agent container, passes the check, and [getOrCreateAgentConfig]
    goes on to create its record. *)
Lemma disabled_annotation_ignored_when_manual :
  checkInterceptAnnotations sampleCollaborators disabledManualWorkload = inr true
  ∧ getOrCreateAgentConfig sampleCollaborators sampleSituation disabledManualWorkload
      false None ∅
    = (inr (sampleSidecar "tel2:2.0" disabledManualWorkload),
       {[ "default" := {[ "echo" := "tel2:2.0" ]} ]}, []).
Proof. split; by vm_compute. Qed.

End ProvisionerFacts.

Module TrafficMgrFacts.
Import Errcat TrafficMgr.

(** C10. For every caller ID, path and header set, [InterceptInfo] returns
    a result and no error. The result is marked client-side; it reports
    [Intercepted] exactly when a matcher is registered under the caller ID
    and matches the path and headers, and then it carries the metadata of
    that matcher; otherwise, and in particular when no matcher is
    registered, it reports [Intercepted = false] and no metadata. *)
Theorem InterceptInfo_query (d : Collaborators) (s : session) (callerID path : string)
    (headers : gmap string (list string)) :
  ∃ r, InterceptInfo_ d s callerID path headers = (Some r, None)
       ∧ ClientSide r = true
       ∧ match currentMatchers s !! callerID with
         | Some am =>
             Intercepted r = Matches d (requestMatcher am) path headers
             ∧ rest_Metadata r = if Intercepted r then Some (am_metadata am) else None
         | None => Intercepted r = false ∧ rest_Metadata r = None
         end.
Proof.
  unfold InterceptInfo_.
  destruct (currentMatchers s !! callerID) as [am|]; [|by eexists].
  destruct (Matches d _ _ _) eqn:Hm; eexists; (split; [done|]); simpl; by rewrite ?Hm.
Qed.

Section Conflicts.
Variable d : Collaborators.
Variable spec : InterceptSpec.

Lemma conflictIn_none order :
  Forall (λ iCept, ¬ nameClash spec iCept ∧ ¬ targetClash spec iCept) order →
  conflictIn spec order = None.
Proof.
  induction 1 as [|iCept order [Hn Ht] _ IH]; simpl; [done|].
  rewrite bool_decide_eq_false_2 by done.
  destruct (negb _ && _ && _) eqn:Hc; [|done].
  exfalso. apply Ht. unfold targetClash.
  apply andb_true_iff in Hc as [Hc H3]. apply andb_true_iff in Hc as [H1 H2].
  apply negb_true_iff, bool_decide_eq_false in H1.
  apply bool_decide_eq_true in H2, H3. done.
Qed.

Lemma conflictIn_name order :
  Exists (nameClash spec) order →
  Forall (λ iCept, targetClash spec iCept → nameClash spec iCept) order →
  conflictIn spec order = Some (InterceptError_ IE_ALREADY_EXISTS (UserError (Name spec))).
Proof.
  induction order as [|iCept order IH]; intros Hex Hall; [by apply Exists_nil in Hex|].
  simpl. apply Forall_cons in Hall as [Hhd Hall].
  destruct (decide (nameClash spec iCept)) as [Hn|Hn].
  { by rewrite bool_decide_eq_true_2. }
  rewrite bool_decide_eq_false_2 by done.
  apply Exists_cons in Hex as [Hex|Hex]; [done|].
  destruct (negb _ && _ && _) eqn:Hc; [|by apply IH].
  exfalso. apply Hn, Hhd. unfold targetClash.
  apply andb_true_iff in Hc as [Hc H3]. apply andb_true_iff in Hc as [H1 H2].
  apply negb_true_iff, bool_decide_eq_false in H1.
  apply bool_decide_eq_true in H2, H3. done.
Qed.

Lemma conflictIn_target order :
  Forall (λ iCept, ¬ nameClash spec iCept) order →
  Exists (targetClash spec) order →
  ∃ iCept, iCept ∈ order ∧ targetClash spec iCept
           ∧ conflictIn spec order
             = Some {| res_Error := IE_LOCAL_TARGET_IN_USE; res_ErrorText := Name spec;
                       res_ErrorCategory := CatUser; res_InterceptInfo := Some (info iCept);
                       res_ServiceUid := ""; res_WorkloadKind := "" |}.
Proof.
  induction order as [|iCept order IH]; intros Hall Hex; [by apply Exists_nil in Hex|].
  simpl. apply Forall_cons in Hall as [Hhd Hall].
  rewrite bool_decide_eq_false_2 by done.
  destruct (decide (targetClash spec iCept)) as [Ht|Ht].
  - exists iCept. split; [left|split; [done|]].
    destruct Ht as (H1 & H2 & H3).
    by rewrite (bool_decide_eq_false_2 _ H1), (bool_decide_eq_true_2 _ H2),
               (bool_decide_eq_true_2 _ H3).
  - apply Exists_cons in Hex as [Hex|Hex]; [done|].
    destruct (IH Hall Hex) as (ic & Hin & Hic & Heq).
    exists ic. split; [by right|split; [done|]].
    destruct (negb _ && _ && _) eqn:Hc; [|done].
    exfalso. apply Ht. unfold targetClash.
    apply andb_true_iff in Hc as [Hc H3]. apply andb_true_iff in Hc as [H1 H2].
    apply negb_true_iff, bool_decide_eq_false in H1.
    apply bool_decide_eq_true in H2, H3. done.
Qed.

End Conflicts.

(** C5 (as amended). When the mount point is free, and whatever the order
    in which the current intercepts are visited:
    - a request whose name equals the name of a current intercept fails
      with [ALREADY_EXISTS], provided that every current intercept that has
      its target host and (non-zero) target port has its name too;
    - a request whose name is the name of no current intercept, and whose
      non-zero target port and target host are those of a current
      intercept, fails with [LOCAL_TARGET_IN_USE], category user, and the
      record of such an intercept;
    - a request that has the name of no current intercept, and a zero target
      port or the host and port of none, passes the check.
    The namespace is not compared. *)
Theorem ensureNoInterceptConflict_cases (d : Collaborators) (s : session)
    (ir : CreateInterceptRequest) (order : list intercept) :
  ensureNoMountConflict d (currentIntercepts s) (req_MountPoint ir) (req_LocalMountPort ir)
    = None →
  let spec := req_Spec ir in
  (Exists (nameClash spec) order →
   Forall (λ iCept, targetClash spec iCept → nameClash spec iCept) order →
   ensureNoInterceptConflictIn d order s ir
     = Some (InterceptError_ IE_ALREADY_EXISTS (UserError (Name spec))))
  ∧ (Forall (λ iCept, ¬ nameClash spec iCept) order →
     Exists (targetClash spec) order →
     ∃ iCept, iCept ∈ order ∧ targetClash spec iCept
              ∧ ensureNoInterceptConflictIn d order s ir
                = Some {| res_Error := IE_LOCAL_TARGET_IN_USE; res_ErrorText := Name spec;
                          res_ErrorCategory := CatUser;
                          res_InterceptInfo := Some (info iCept);
                          res_ServiceUid := ""; res_WorkloadKind := "" |})
  ∧ (Forall (λ iCept, ¬ nameClash spec iCept ∧ ¬ targetClash spec iCept) order →
     ensureNoInterceptConflictIn d order s ir = None).
Proof.
  intros Hmount spec. unfold ensureNoInterceptConflictIn. rewrite Hmount.
  split; [|split].
  - apply conflictIn_name.
  - apply conflictIn_target.
  - apply conflictIn_none.
Qed.

Definition interceptA : intercept :=
  sampleIntercept {| Id := "id-a"; Spec := sampleSpec "a" "127.0.0.1" 9090;
                     Disposition_ := ACTIVE; Message := ""; PodIp := "10.0.0.7";
                     SftpPort := 0; FtpPort := 0; MountPoint := "/"; ClientMountPoint := "";
                     Environment := ∅; Headers := ∅; Metadata := ∅ |} 1.

Definition interceptB : intercept :=
  sampleIntercept {| Id := "id-b"; Spec := sampleSpec "b" "127.0.0.1" 8080;
                     Disposition_ := ACTIVE; Message := ""; PodIp := "10.0.0.8";
                     SftpPort := 0; FtpPort := 0; MountPoint := "/"; ClientMountPoint := "";
                     Environment := ∅; Headers := ∅; Metadata := ∅ |} 2.

Definition interceptZ : intercept :=
  sampleIntercept {| Id := "id-z"; Spec := sampleSpec "z" "127.0.0.1" 0;
                     Disposition_ := ACTIVE; Message := ""; PodIp := "10.0.0.9";
                     SftpPort := 0; FtpPort := 0; MountPoint := "/"; ClientMountPoint := "";
                     Environment := ∅; Headers := ∅; Metadata := ∅ |} 3.

(** With intercepts [a] (port 9090) and [b] (port 8080) current, a second
    [b] is refused as existing, a [c] on port 8080 is refused because of
    [b], and a [c] on port 7070 passes. *)
Lemma ensureNoInterceptConflict_witness :
  let s := sampleSession {[ "id-a" := interceptA; "id-b" := interceptB ]} in
  ensureNoInterceptConflictIn sampleCollaborators [interceptA; interceptB] s
    (sampleRequest (sampleSpec "b" "127.0.0.1" 8080))
  = Some (InterceptError_ IE_ALREADY_EXISTS (UserError "b"))
  ∧ ensureNoInterceptConflictIn sampleCollaborators [interceptA; interceptB] s
      (sampleRequest (sampleSpec "c" "127.0.0.1" 7070)) = None.
Proof.
  intros s. split.
  - apply (ensureNoInterceptConflict_cases sampleCollaborators s
             (sampleRequest (sampleSpec "b" "127.0.0.1" 8080)) _ eq_refl).
    + apply Exists_cons_tl, Exists_cons_hd. reflexivity.
    + repeat constructor; intros (_ & H & _); try done; vm_compute in H; discriminate.
  - apply (ensureNoInterceptConflict_cases sampleCollaborators s
             (sampleRequest (sampleSpec "c" "127.0.0.1" 7070)) _ eq_refl).
    repeat constructor; unfold nameClash, targetClash; simpl; try discriminate;
      intros (_ & H & _); discriminate.
Defined.

(** C5, as stated, fails twice. A request named [a] for the host and port
    of [b] is refused with [LOCAL_TARGET_IN_USE], not [ALREADY_EXISTS],
    when the iteration visits [b] before [a]; and a request with target
    port 0 passes although a current intercept with another name has the
    same host and port. *)
Lemma conflict_depends_on_order_and_port :
  ensureNoInterceptConflictIn sampleCollaborators [interceptB; interceptA]
    (sampleSession {[ "id-a" := interceptA; "id-b" := interceptB ]})
    (sampleRequest (sampleSpec "a" "127.0.0.1" 8080))
  = Some {| res_Error := IE_LOCAL_TARGET_IN_USE; res_ErrorText := "a";
            res_ErrorCategory := CatUser; res_InterceptInfo := Some (info interceptB);
            res_ServiceUid := ""; res_WorkloadKind := "" |}
  ∧ ensureNoInterceptConflictIn sampleCollaborators [interceptZ]
      (sampleSession {[ "id-z" := interceptZ ]})
      (sampleRequest (sampleSpec "y" "127.0.0.1" 0))
    = None.
Proof. split; reflexivity. Qed.

Section Creation.
Variable d : Collaborators.
Variable c : context.
Variable ir : CreateInterceptRequest.

(** Success comes from an active, error-free notification followed by the
    readiness signal of its mounts, after notifications that left the loop
    waiting. *)
Lemma awaitActive_success cases : ∀ result ii r ii',
  awaitActive d c ir result ii cases = Some (r, true, ii') →
  ∃ pre wr rest,
    cases = pre ++ WaitChRecv wr :: MountsAreDone :: rest
    ∧ Forall inconclusive pre
    ∧ ir_err wr = None
    ∧ Disposition_ (info (ir_intercept wr)) = ACTIVE
    ∧ ii' = info (ir_intercept wr)
    ∧ r = setInterceptInfo (Some ii') result.
Proof.
  induction cases as [|sc cases IH]; intros result ii r ii'; simpl; [done|].
  destruct sc as [|wr|]; try done.
  destruct (ir_err wr) as [e|] eqn:Herr; [done|].
  case_bool_decide as Hact; simpl.
  - destruct cases as [|[|wr'|] rest]; try done.
    destruct (InterceptEpilog d ir _); [done|].
    intros [= <- <-]. exists [], wr, rest. done.
  - intros H. apply IH in H as (pre & wr' & rest & -> & Hpre & ?).
    exists (WaitChRecv wr :: pre), wr', rest. split; [done|].
    split; [|done]. by constructor.
Qed.

Lemma awaitActive_inconclusive pre : ∀ result ii rest,
  Forall inconclusive pre →
  ∃ ii0, awaitActive d c ir result ii (pre ++ rest) = awaitActive d c ir result ii0 rest.
Proof.
  induction pre as [|sc pre IH]; intros result ii rest Hpre; simpl; [by eexists|].
  apply Forall_cons in Hpre as [Hsc Hpre].
  destruct sc as [|wr|]; simpl in Hsc; try done.
  destruct Hsc as [-> Hdisp]. rewrite bool_decide_eq_false_2 by done. simpl.
  apply IH, Hpre.
Qed.

End Creation.

(** C3. In the wait loop of the creation call, after any notifications that
    leave it waiting:
    - a notification that carries an error makes the call fail at once
      with [FAILED_TO_ESTABLISH], whatever would follow;
    - after an active, error-free notification nothing is returned until
      the next case fires: the readiness signal of the mounts, and then the
      call succeeds (unless the epilog objects), or the end of the context,
      and then it fails; every success has that form;
    - whenever the wait ends without success, the deferred function calls
      [RemoveIntercept] for the intercept in a context that the caller's
      cancellation does not reach and that is bounded by five seconds; a
      failure of the removal is logged and the result stays the failure of
      the wait. *)
Theorem creation_wait (d : Collaborators) (s : session) (c : context)
    (ir : CreateInterceptRequest) (result : InterceptResult) (ii : InterceptInfo)
    (ch : nat) (pre rest : list selectCase) (during : session → session)
    (remove : option error) :
  Forall inconclusive pre →
  (∀ wr e, ir_err wr = Some e →
     ∃ ii0, awaitActive d c ir result ii (pre ++ WaitChRecv wr :: rest)
            = Some (InterceptError_ IE_FAILED_TO_ESTABLISH e, false, ii0))
  ∧ (∀ wr, ir_err wr = None → Disposition_ (info (ir_intercept wr)) = ACTIVE →
       awaitActive d c ir result ii (pre ++ [WaitChRecv wr]) = None
       ∧ awaitActive d c ir result ii (pre ++ WaitChRecv wr :: CtxIsDone :: rest)
         = Some (failedToEstablish d c, false, info (ir_intercept wr))
       ∧ (InterceptEpilog d ir (setInterceptInfo (Some (info (ir_intercept wr))) result) = None →
          awaitActive d c ir result ii (pre ++ WaitChRecv wr :: MountsAreDone :: rest)
          = Some (setInterceptInfo (Some (info (ir_intercept wr))) result, true,
                  info (ir_intercept wr))))
  ∧ (∀ cases r ii', awaitActive d c ir result ii cases = Some (r, true, ii') →
       ∃ pre' wr rest', cases = pre' ++ WaitChRecv wr :: MountsAreDone :: rest'
                        ∧ ir_err wr = None
                        ∧ Disposition_ (info (ir_intercept wr)) = ACTIVE)
  ∧ (∀ cases r ii', awaitActive d c ir result ii cases = Some (r, false, ii') →
       ∃ s' removeErr removal closing,
         RemoveIntercept d (during s) (removalContext c) (Name (Spec ii')) remove
           = (removeErr, removal)
         ∧ awaitAndCleanUp d s c ir result ii ch cases during remove
           = Some (r, s', removal
                          ++ match removeErr with
                             | Some e => [LogWarn ("failed to remove failed intercept "
                                                   +:+ Name (Spec ii') +:+ ": " +:+ Error e)]
                             | None => []
                             end
                          ++ closing)
         ∧ cancelledWithCaller (removalContext c) = false
         ∧ boundedBy (removalContext c) = Some (5 * Second)%Z).
Proof.
  intros Hpre. repeat split.
  - intros wr e Herr.
    destruct (awaitActive_inconclusive d c ir pre result ii (WaitChRecv wr :: rest) Hpre)
      as [ii0 ->].
    exists ii0. simpl. by rewrite Herr.
  - destruct (awaitActive_inconclusive d c ir pre result ii [WaitChRecv wr] Hpre) as [ii0 ->].
    simpl. rewrite H, bool_decide_eq_true_2 by done. done.
  - destruct (awaitActive_inconclusive d c ir pre result ii
                (WaitChRecv wr :: CtxIsDone :: rest) Hpre) as [ii0 ->].
    simpl. rewrite H, bool_decide_eq_true_2 by done. done.
  - intros Hepi.
    destruct (awaitActive_inconclusive d c ir pre result ii
                (WaitChRecv wr :: MountsAreDone :: rest) Hpre) as [ii0 ->].
    simpl. rewrite H, bool_decide_eq_true_2 by done. simpl. by rewrite Hepi.
  - intros cases r ii' Hw.
    apply awaitActive_success in Hw as (pre' & wr & rest' & -> & _ & ? & ? & _).
    by exists pre', wr, rest'.
  - intros cases r ii' Hw. unfold awaitAndCleanUp, removeFailed. rewrite Hw. simpl.
    destruct (RemoveIntercept d (during s) (removalContext c) (Name (Spec ii')) remove)
      as [removeErr removal].
    destruct (unregisterWaiter (during s) (Name (req_Spec ir)) ch) as [s3 effs3].
    exists s3, removeErr, removal, effs3. by rewrite <-app_assoc.
Qed.

Definition activeResult (name : string) : interceptResult :=
  {| ir_intercept := sampleIntercept (sampleInfo "id-1" name ACTIVE) 10;
     ir_mountsDone := {| pa_workload := "echo"; pa_podIP := "10.0.0.7"; pa_container := "app";
                         pa_sftpPort := 0; pa_ftpPort := 0; pa_mountPoint := "/";
                         pa_clientMountPoint := ""; pa_localMountPort := 0;
                         pa_readOnly := false |};
     ir_err := None |}.

Definition waitingResult (name : string) : interceptResult :=
  {| ir_intercept := sampleIntercept (sampleInfo "id-1" name WAITING) 10;
     ir_mountsDone := ir_mountsDone (activeResult name);
     ir_err := None |}.

(** An intercept that becomes active and whose context ends before its
    mounts are ready: the call fails and the manager is told to remove the
    intercept, in a context detached from the caller's. *)
Lemma creation_wait_witness :
  let s := sampleSession {[ "id-1" := sampleIntercept (sampleInfo "id-1" "echo" ACTIVE) 10 ]} in
  let c := WithTimeout Caller (30 * Second) in
  ∃ s' closing,
    awaitAndCleanUp sampleCollaborators s c
      (sampleRequest (sampleSpec "echo" "127.0.0.1" 8080)) emptyResult
      (sampleInfo "id-1" "echo" WAITING) 0
      [WaitChRecv (waitingResult "echo"); WaitChRecv (activeResult "echo"); CtxIsDone]
      id None
    = Some (failedToEstablish sampleCollaborators c, s',
            [CancelScope 10; AwaitScope 10;
             ManagerRemoveIntercept
               (WithTimeout (WithTimeout (WithoutCancel c) (5 * Second)) (15 * Second)) "echo"]
            ++ [] ++ closing).
Proof.
  intros s c.
  destruct (creation_wait sampleCollaborators s c
              (sampleRequest (sampleSpec "echo" "127.0.0.1" 8080)) emptyResult
              (sampleInfo "id-1" "echo" WAITING) 0
              [WaitChRecv (waitingResult "echo")] [] id None) as (_ & Hactive & _ & Hfail).
  { repeat constructor. vm_compute. discriminate. }
  destruct (Hactive (activeResult "echo") eq_refl eq_refl) as (_ & Hdone & _).
  destruct (Hfail _ _ _ Hdone) as (s' & removeErr & removal & closing & Hrm & Hrun & _).
  vm_compute in Hrm. injection Hrm as <- <-.
  exists s', closing. exact Hrun.
Defined.

Section Reconciler.
Variable d : Collaborators.

Lemma quiet_app effs1 effs2 : quiet effs1 → quiet effs2 → quiet (effs1 ++ effs2).
Proof. apply Forall_app_2. Qed.

Lemma adopt_fold s iis : ∀ m n e,
  ∃ m' n' e',
    foldl (adopt s) (m, n, e) iis = (m', n', e')
    ∧ (∀ id, is_Some (m' !! id) ↔ is_Some (m !! id) ∨ id ∈ Id <$> iis)
    ∧ (quiet e → quiet e').
Proof.
  induction iis as [|ii iis IH]; intros m n e; simpl.
  { exists m, n, e. split; [done|]. split; [|done].
    intros id. rewrite elem_of_nil. tauto. }
  assert (∀ (x : intercept) (m' : gmap string intercept),
            (∀ id, is_Some (m' !! id)
                   ↔ is_Some (<[Id ii := x]> m !! id) ∨ id ∈ Id <$> iis) →
            ∀ id, is_Some (m' !! id) ↔ is_Some (m !! id) ∨ id ∈ Id <$> ii :: iis) as Hstep.
  { intros x m' Hdom id. rewrite Hdom, lookup_insert_is_Some, fmap_cons, elem_of_cons.
    destruct (decide (Id ii = id)) as [Heq|Hne].
    - split; [intros _; right; by left|intros _; left; by left].
    - split.
      + intros [[?|[_ ?]]|?]; [done|by left|right; by right].
      + intros [?|[?|?]]; [left; right; done|done|by right]. }
  destruct (currentIntercepts s !! Id ii) as [ic|].
  - edestruct IH as (m' & n' & e' & -> & Hdom & Hq).
    exists m', n', e'. split; [done|]. split; [|done]. by eapply Hstep.
  - edestruct IH as (m' & n' & e' & -> & Hdom & Hq).
    exists m', n', e'. split; [done|]. split.
    + by eapply Hstep.
    + intros He. apply Hq, quiet_app; [done|]. by repeat constructor.
Qed.

Lemma wantAPI_quiet l : ∀ acc, quiet acc.2 → quiet (foldl (wantAPI d) acc l).2.
Proof.
  induction l as [|kv l IH]; intros [[ps ms] es] Hq; simpl; [done|].
  apply IH. case_bool_decide; [|done].
  assert (quiet (agentAPIPort d (info kv.2)).2) as He.
  { unfold agentAPIPort. repeat case_match; simpl; by repeat constructor. }
  destruct (agentAPIPort d (info kv.2)) as [port e].
  case_bool_decide; simpl; by apply quiet_app.
Qed.

Lemma wantedAPI_quiet s ports matchers effs :
  wantedAPI d s = (ports, matchers, effs) → quiet effs.
Proof.
  unfold wantedAPI. intros H.
  pose proof (wantAPI_quiet (map_to_list (currentIntercepts s)) (∅, ∅, [])) as Hfold.
  rewrite H in Hfold. apply Hfold. constructor.
Qed.

Lemma matchers_quiet (l : list (string * InterceptInfo)) : ∀ ms es,
  quiet es → quiet (foldl (ensureMatcher d) (ms, es) l).2.
Proof.
  induction l as [|kv l IH]; intros ms es Hq; simpl; [done|].
  destruct (ms !! kv.1); [by apply IH|].
  unfold newMatcher. destruct (NewRequestFromMap d _).
  - apply IH, quiet_app; [done|]. by repeat constructor.
  - apply IH. by rewrite app_nil_r.
Qed.

Lemma reconcileAPIServers_spec s s' effs :
  reconcileAPIServers d s = (s', effs) →
  currentIntercepts s' = currentIntercepts s
  ∧ interceptWaiters s' = interceptWaiters s
  ∧ channels s' = channels s
  ∧ s_Namespace s' = s_Namespace s
  ∧ quiet effs.
Proof.
  unfold reconcileAPIServers.
  destruct (wantedAPI d s) as [[wantedPorts wantedMatchers] effs0] eqn:Hw.
  pose proof (matchers_quiet (map_to_list wantedMatchers)
                (filter (λ kv, is_Some (wantedMatchers !! kv.1)) (currentMatchers s)) []
                (Forall_nil_2 _)) as Hm.
  destruct (foldl _ _ (map_to_list wantedMatchers)) as [matchers matcherEffs].
  intros [= <- <-]. repeat split; try done.
  apply quiet_app; [by eapply wantedAPI_quiet|].
  apply quiet_app; [apply Forall_fmap, Forall_true; done|].
  apply quiet_app; [apply Forall_fmap, Forall_true; done|done].
Qed.

(** [setCurrentIntercepts] installs exactly the IDs of the snapshot and
    cancels the scope of every intercept that it drops. *)
Lemma setCurrentIntercepts_spec s iis s' effs :
  setCurrentIntercepts d s iis = (s', effs) →
  (∀ id, is_Some (currentIntercepts s' !! id) ↔ id ∈ Id <$> iis)
  ∧ (∀ id ic, currentIntercepts s !! id = Some ic → id ∉ Id <$> iis →
       CancelScope (scope ic) ∈ effs)
  ∧ interceptWaiters s' = interceptWaiters s
  ∧ channels s' = channels s
  ∧ s_Namespace s' = s_Namespace s
  ∧ quiet effs.
Proof.
  unfold setCurrentIntercepts.
  destruct (adopt_fold s iis ∅ (nextScope s) []) as (m & n & e & -> & Hdom & Hq).
  destruct (reconcileAPIServers d _) as [s1 apiEffs] eqn:Hr.
  apply reconcileAPIServers_spec in Hr as (Hci & Hw & Hch & Hns & Hqa).
  intros [= <- <-]. simpl in *. rewrite Hci, Hw, Hch, Hns.
  split; [|split; [|repeat split]].
  - intros id. rewrite Hdom, lookup_empty. split; [|by right].
    intros [[? ?]|?]; done.
  - intros id ic Hic Hid.
    apply elem_of_app. right. apply elem_of_app. left.
    apply (list_elem_of_fmap_2' _ _ ic); [|done].
    unfold dropped. apply (list_elem_of_fmap_2' _ _ (id, ic)); [|done].
    apply list_elem_of_filter. split; [|by apply elem_of_map_to_list].
    simpl. apply eq_None_not_Some. rewrite Hdom, lookup_empty.
    intros [[? ?]|?]; done.
  - apply quiet_app; [apply Hq; constructor|].
    apply quiet_app; [|done]. apply Forall_fmap, Forall_true. done.
Qed.

Lemma notify_spec s ii s' effs :
  notify s ii = Some (s', effs) →
  currentIntercepts s' = currentIntercepts s ∧ quiet effs.
Proof.
  unfold notify. case_bool_decide. { intros [= <- <-]. split; [done|constructor]. }
  destruct (currentIntercepts s !! Id ii) as [ic|]; simpl; [|done].
  assert (∀ s0 err pa, quiet (startAccess s0 err pa)) as Hstart.
  { intros s0 [e|] pa; simpl; by repeat constructor. }
  destruct (interceptWaiters s !! Name (Spec ii)) as [aw|].
  - destruct (trySend _ _ _) as [[[] chans]|]; [| |done].
    + intros [= <- <-]. split; [done|]. simpl.
      do 3 (constructor; [done|]).
      destruct (dispositionError s ii); [constructor|apply Hstart].
    + intros [= <- <-]. split; [done|]. simpl.
      do 3 (constructor; [done|]). apply Hstart.
  - intros [= <- <-]. split; [done|]. constructor; [done|apply Hstart].
Qed.

Lemma notifyAll_spec iis : ∀ s s' effs,
  notifyAll s iis = Some (s', effs) →
  currentIntercepts s' = currentIntercepts s ∧ quiet effs.
Proof.
  induction iis as [|ii iis IH]; intros s s' effs; simpl.
  { intros [= <- <-]. split; [done|constructor]. }
  destruct (notify s ii) as [[s1 effs1]|] eqn:Hn; simpl; [|done].
  destruct (notifyAll s1 iis) as [[s2 effs2]|] eqn:Hna; simpl; [|done].
  intros [= <- <-].
  apply notify_spec in Hn as [Hc1 Hq1]. apply IH in Hna as [Hc2 Hq2].
  split; [congruence|by apply quiet_app].
Qed.

End Reconciler.




Section Watching.
Variable d : Collaborators.

(** A pass over the empty snapshot cannot panic; it empties the current
    set and cancels every scope. *)
Lemma handleInterceptSnapshot_empty s :
  ∃ s1 effs1,
    handleInterceptSnapshot d s [] = Some (s1, effs1)
    ∧ currentIntercepts s1 = ∅
    ∧ (∀ id ic, currentIntercepts s !! id = Some ic → CancelScope (scope ic) ∈ effs1)
    ∧ PatCancelUnwanted ∈ effs1.
Proof.
  unfold handleInterceptSnapshot.
  destruct (setCurrentIntercepts d s []) as [s0 effs0] eqn:Hset.
  apply setCurrentIntercepts_spec in Hset as (Hdom & Hcancel & _).
  simpl. eexists _, _. split; [done|]. split; [|split].
  - apply map_empty. intros id. apply eq_None_not_Some. intros Hsome.
    apply Hdom in Hsome. by apply elem_of_nil in Hsome.
  - intros id ic Hic. apply elem_of_app. left. apply (Hcancel id ic Hic), not_elem_of_nil.
  - apply elem_of_app. right. right. left.
Qed.

Lemma receive_snapshots snapshots : ∀ s s0 effs0 rest,
  receive d s (RecvSnapshot <$> snapshots) = (Receiving, s0, effs0) →
  receive d s ((RecvSnapshot <$> snapshots) ++ rest)
    = let '(r, s2, effs2) := receive d s0 rest in (r, s2, effs0 ++ effs2).
Proof.
  induction snapshots as [|snap snapshots IH]; intros s s0 effs0 rest.
  { simpl. intros [= <- <-]. by destruct (receive d s rest) as [[r s2] effs2]. }
  rewrite fmap_cons, <-app_comm_cons. cbn [receive].
  destruct (handleInterceptSnapshot d s snap) as [[s1 effs1]|]; [|done].
  destruct (receive d s1 (RecvSnapshot <$> snapshots)) as [[r' s2'] effs2'] eqn:Hrec.
  intros H. injection H as -> -> <-. rewrite (IH _ _ _ rest Hrec).
  destruct (receive d s0 rest) as [[r s2] effs2]. by rewrite app_assoc.
Qed.

Lemma runWithRetry_allFail failing : ∀ s,
  allFail d s failing →
  ∃ s2 effs2,
    runWithRetry d s failing = (Receiving, s2, effs2)
    ∧ ∀ more, runWithRetry d s (failing ++ more)
              = let '(r, s3, effs3) := runWithRetry d s2 more in (r, s3, effs2 ++ effs3).
Proof.
  induction failing as [|[dial events] failing IH]; intros s Hfail; simpl.
  { exists s, []. split; [done|]. intros more.
    by destruct (runWithRetry d s more) as [[r s3] effs3]. }
  destruct Hfail as (e & s1 & effs1 & Hloop & Hfail). rewrite Hloop.
  destruct (IH s1 Hfail) as (s2 & effs2 & Hrun & Hmore).
  rewrite Hrun. exists s2, (effs1 ++ [LogError e] ++ effs2). split; [done|].
  intros more. rewrite (Hmore more).
  destruct (runWithRetry d s2 more) as [[r s3] effs3]. simpl.
  by rewrite <-!app_assoc.
Qed.

End Watching.

(** C9. When [Recv] fails, after any snapshots that were handled, the loop
    first handles the empty snapshot, which cannot fail: it empties the
    current set, cancels the scope of every intercept that was current and
    tells the pod access tracker to cancel what is unwanted. Then, if the
    session context is done or the error is [io.EOF], the loop returns nil
    and the handler ends normally; for any other error the loop returns the
    error and the handler starts the watch again from the emptied session.
    After any number of attempts that failed, the handler is still watching:
    whatever comes next is run as the next attempt. *)
Theorem stream_error_reconciles_then_retries (d : Collaborators) (s s0 : session)
    (snapshots : list (list InterceptInfo)) (effs0 : list effect)
    (text : string) (isEOF ctxDone : bool) (rest : list streamEvent)
    (attempts : list (option string * list streamEvent)) :
  receive d s (RecvSnapshot <$> snapshots) = (Receiving, s0, effs0) →
  let events := (RecvSnapshot <$> snapshots) ++ RecvError text isEOF ctxDone :: rest in
  (∃ s1 effs1,
     handleInterceptSnapshot d s0 [] = Some (s1, effs1)
     ∧ currentIntercepts s1 = ∅
     ∧ (∀ id ic, currentIntercepts s0 !! id = Some ic → CancelScope (scope ic) ∈ effs1)
     ∧ PatCancelUnwanted ∈ effs1
     ∧ if ctxDone || isEOF then
         watchInterceptsLoop d s None events
           = (ReturnedNil, s1, ManagerWatchIntercepts :: effs0 ++ effs1)
         ∧ watchInterceptsHandler d s ((None, events) :: attempts)
           = (ReturnedNil, s1, ManagerWatchIntercepts :: effs0 ++ effs1)
       else
         let e := PlainError ("manager.WatchIntercepts recv: " +:+ text) in
         watchInterceptsLoop d s None events
           = (ReturnedError e, s1, ManagerWatchIntercepts :: effs0 ++ effs1)
         ∧ watchInterceptsHandler d s ((None, events) :: attempts)
           = let '(r, s2, effs2) := watchInterceptsHandler d s1 attempts in
             (r, s2, (ManagerWatchIntercepts :: effs0 ++ effs1) ++ [LogError e] ++ effs2))
  ∧ (∀ s failing, allFail d s failing →
       ∃ s2 effs2,
         watchInterceptsHandler d s failing = (Receiving, s2, effs2)
         ∧ ∀ more, watchInterceptsHandler d s (failing ++ more)
                   = let '(r, s3, effs3) := watchInterceptsHandler d s2 more in
                     (r, s3, effs2 ++ effs3)).
Proof.
  intros Hrec events. split; [|intros s' failing; apply runWithRetry_allFail].
  destruct (handleInterceptSnapshot_empty d s0) as (s1 & effs1 & Hh & Hempty & Hcancel & Hpat).
  exists s1, effs1. repeat (split; [done|]).
  assert (receive d s events
          = (if ctxDone || isEOF then ReturnedNil
             else ReturnedError (PlainError ("manager.WatchIntercepts recv: " +:+ text)),
             s1, effs0 ++ effs1)) as Hev.
  { unfold events. rewrite (receive_snapshots d _ _ _ _ _ Hrec). simpl. by rewrite Hh. }
  unfold watchInterceptsHandler. simpl. rewrite Hev.
  destruct (ctxDone || isEOF); [done|].
  split; [done|]. by destruct (runWithRetry d s1 attempts) as [[r s2] effs2].
Qed.

(** With intercept [a] current, the stream breaks twice with an error that
    is not the end of the stream: the current set is emptied, and the
    handler is still watching after the second attempt. *)
Lemma stream_error_witness :
  let s := sampleSession {[ "id-a" := interceptA ]} in
  ∃ s1 effs1,
    handleInterceptSnapshot sampleCollaborators s [] = Some (s1, effs1)
    ∧ currentIntercepts s1 = ∅
    ∧ ∃ s2 effs2,
        watchInterceptsHandler sampleCollaborators s
          [(None, [RecvError "unavailable" false false]);
           (None, [RecvError "unavailable" false false])]
        = (Receiving, s2, effs2).
Proof.
  intros s.
  destruct (stream_error_reconciles_then_retries sampleCollaborators s s [] []
              "unavailable" false false [] [] eq_refl)
    as ((s1 & effs1 & Hh & Hempty & _) & Hretry).
  exists s1, effs1. split; [done|]. split; [done|].
  destruct (Hretry s [(None, [RecvError "unavailable" false false]);
                      (None, [RecvError "unavailable" false false])])
    as (s2 & effs2 & Hrun & _).
  - simpl. do 3 eexists. split; [by vm_compute|].
    do 3 eexists. split; [by vm_compute|done].
  - by exists s2, effs2.
Defined.

Section Waiters.
Variable d : Collaborators.







(** A send that cannot proceed is dropped and logged, and the record is
    then treated like any other. *)
Lemma notify_full s ii ic aw c :
  Disposition_ ii ≠ WAITING →
  currentIntercepts s !! Id ii = Some ic →
  interceptWaiters s !! Name (Spec ii) = Some aw →
  channels s !! waitCh aw = Some c →
  closed c = false →
  capacity c ≤ length (buffer c) →
  notify s ii
    = Some (setWaiters (delete (Name (Spec ii)) (interceptWaiters s)) (channels s) s,
            [PatEnsureAccess (podAccessOf ic); PatGetOrCreateMountsDone (podAccessOf ic);
             LogUnableToPropagate (Id ii)]
            ++ startAccess s (dispositionError s ii) (podAccessOf ic)).
Proof.
  intros Hw Hic Haw Hc Hopen Hfull. unfold notify.
  rewrite bool_decide_eq_false_2 by done. rewrite Hic. simpl. rewrite Haw.
  unfold trySend. simpl. rewrite Hc, Hopen. rewrite decide_False by lia. done.
Qed.


Lemma unregisterWaiter_gone s name ch s' effs :
  unregisterWaiter s name ch = (s', effs) → interceptWaiters s' !! name = None.
Proof.
  unfold unregisterWaiter.
  destruct (interceptWaiters s !! name) eqn:H; intros [= <- <-]; simpl; [|done].
  apply lookup_delete_eq.
Qed.








End Waiters.




(** A creation call registers its waiter; the snapshot in which its
    intercept is active takes the waiter out of the registry and puts one
    result in its channel. *)
Example waiter_notified_once :
  let '(s1, ch) := registerWaiter (sampleSession ∅) "echo"
                     (sampleRequest (sampleSpec "echo" "127.0.0.1" 8080)) in
  ∃ s2 effs,
    handleInterceptSnapshot sampleCollaborators s1
      [sampleInfo "id-1" "echo" ACTIVE; sampleInfo "id-1" "echo" ACTIVE] = Some (s2, effs)
    ∧ interceptWaiters s2 = ∅
    ∧ (length ∘ buffer <$> channels s2 !! ch) = Some 1
    ∧ length (filter (λ e, sendsOn ch e = true) effs) = 1.
Proof. vm_compute. eexists _, _. split; [reflexivity|]. by vm_compute. Qed.

End TrafficMgrFacts.

(* ===================================================================== *)
(** * Further properties *)
(* ===================================================================== *)

Module PortMatcherMore.
Import Errcat GoStrings GoStringsFacts PortMatcher PortMatcherFacts.

Lemma containerNamed_Some spec cns cx :
  containerNamed spec cns = Some cx → cx ∈ cns ∧ cn_Name cx = ms_ContainerName spec.
Proof.
  induction cns as [|c cns IH]; simpl; [done|].
  case_bool_decide as Hc.
  - intros [= <-]. split; [left|done].
  - intros H. destruct (IH H) as [Hin Hname]. split; [by right|done].
Qed.

Lemma declaredPairs_elem cns cn ic :
  (cn, ic) ∈ declaredPairs cns ↔ cn ∈ cns ∧ ic ∈ cn_Intercepts cn.
Proof.
  unfold declaredPairs. rewrite list_elem_of_bind. split.
  - intros (cn0 & Hin & Hcn0). apply list_elem_of_fmap in Hin as (ic0 & [= -> ->] & Hic0). done.
  - intros [Hcn Hic]. exists cn. split; [|done]. apply list_elem_of_fmap. by exists ic.
Qed.

(** X1. Whatever [findIntercept] returns is sound: the rule matches the
    request and is declared by one of the containers of the workload, and
    the container returned is that container, or else the container of the
    workload that has the name given in the request. *)
Theorem findIntercept_sound
    (IsInterceptForService IsInterceptForContainer : string → Intercept → bool)
    (ac : Sidecar) (spec : MatchSpec) (cn : Container) (ic : Intercept) :
  findIntercept IsInterceptForService IsInterceptForContainer ac spec = inr (cn, ic) →
  ruleMatches IsInterceptForService IsInterceptForContainer spec ic = true
  ∧ ∃ declaring, declaring ∈ ac_Containers ac
                 ∧ ic ∈ cn_Intercepts declaring
                 ∧ (cn = declaring
                    ∨ (ms_ContainerName spec ≠ ""
                       ∧ cn ∈ ac_Containers ac
                       ∧ cn_Name cn = ms_ContainerName spec)).
Proof.
  rewrite findIntercept_cases.
  destruct (matchingPairs _ _ _ _) as [|[cn0 ic0] [|p ps]] eqn:Hm; [done| |done].
  intros [= <- <-].
  assert ((cn0, ic0) ∈ matchingPairs IsInterceptForService IsInterceptForContainer spec
                         (ac_Containers ac)) as Hin by (rewrite Hm; left).
  unfold matchingPairs in Hin. apply list_elem_of_filter in Hin as [Hmatch Hin].
  apply declaredPairs_elem in Hin as [Hcn Hic].
  split; [done|]. exists cn0. repeat (split; [done|]).
  unfold resolveContainer. case_bool_decide as Hname; simpl; [by left|].
  destruct (containerNamed spec (ac_Containers ac)) as [cx|] eqn:Hcx; [|by left].
  apply containerNamed_Some in Hcx as [? ?]. by right.
Qed.

Lemma findIntercept_sound_witness :
  ruleMatches byPortName byPortName (request "svcA" "") ruleA = true.
Proof.
  apply (findIntercept_sound byPortName byPortName (echoSidecar [ruleA; ruleB])
           (request "svcA" "") (appContainer [ruleA; ruleB]) ruleA eq_refl).
Defined.

(** X2. A request that names neither a service nor a port matches every
    declared rule, so its outcome depends only on how many rules the
    workload declares: none is the no-interceptable-port error without any
    filter description, exactly one is returned, and two or more is the
    error that asks for [--service] and/or [--port]. *)
Theorem findIntercept_unfiltered
    (IsInterceptForService IsInterceptForContainer : string → Intercept → bool)
    (ac : Sidecar) (spec : MatchSpec) :
  ms_ServiceName spec = "" →
  ms_PortIdentifier spec = "" →
  findIntercept IsInterceptForService IsInterceptForContainer ac spec
  = match declaredPairs (ac_Containers ac) with
    | [] => inl (UserError (workloadLabel ac +:+ " has no interceptable port"))
    | [(cn, ic)] => inr (resolveContainer ac spec cn, ic)
    | _ :: _ :: _ =>
        inl (UserError (workloadLabel ac +:+ " has multiple interceptable ports." +:+ "
" +:+ "Please specify the service and/or port you want to intercept "
               +:+ "by passing the --service=<svc> and/or --port=<local:portName/portNumber> flag."))
    end.
Proof.
  intros Hsvc Hpi. rewrite findIntercept_cases.
  assert (matchingPairs IsInterceptForService IsInterceptForContainer spec (ac_Containers ac)
          = declaredPairs (ac_Containers ac)) as ->.
  { unfold matchingPairs. induction (declaredPairs (ac_Containers ac)) as [|p l IH]; [done|].
    rewrite filter_cons, IH. rewrite decide_True; [done|].
    unfold ruleMatches. rewrite Hsvc, Hpi. done. }
  destruct (declaredPairs (ac_Containers ac)) as [|[cn ic] [|p ps]]; try done.
  - unfold noPortMsg. rewrite Hsvc, Hpi.
    rewrite !bool_decide_eq_true_2 by done. cbn [negb]. by rewrite app_empty_r.
  - unfold ambiguityMsg. rewrite Hsvc, Hpi. done.
Qed.

Lemma findIntercept_unfiltered_witness :
  findIntercept byPortName byPortName (echoSidecar [ruleA]) (request "" "")
  = inr (appContainer [ruleA], ruleA).
Proof.
  exact (findIntercept_unfiltered byPortName byPortName (echoSidecar [ruleA]) (request "" "")
           eq_refl eq_refl).
Defined.

End PortMatcherMore.

Module ProvisionerMore.
Import Errcat GoStrings GoStringsFacts PortMatcher Provisioner ProvisionerFacts.

Lemma updateSidecar_cases d sce cm n changed cm' :
  updateSidecar d sce cm n = inr (changed, cm') →
  ∃ yaml, Marshal d sce = inr yaml
          ∧ ((changed = false ∧ cm' = cm ∧ goLookup cm n = yaml)
             ∨ (changed = true ∧ cm' = <[n := yaml]> cm ∧ goLookup cm n ≠ yaml)).
Proof.
  unfold updateSidecar. destruct (Marshal d sce) as [e|yaml]; [done|].
  case_bool_decide as Hy; simpl; intros [= <- <-]; exists yaml; (split; [done|]).
  - by left.
  - by right.
Qed.

(** X3. [updateSidecar] writes the entry of a workload only when its text
    changes: it reports a change exactly when the stored text differs from
    the marshalled sidecar, afterwards the stored text is the marshalled
    sidecar, no other entry is touched, and doing it again changes
    nothing. *)
Theorem updateSidecar_idempotent (d : Collaborators) (sce : Sidecar)
    (cm cm' : gmap string string) (n : string) (changed : bool) :
  updateSidecar d sce cm n = inr (changed, cm') →
  ∃ yaml, Marshal d sce = inr yaml
          ∧ goLookup cm' n = yaml
          ∧ changed = negb (bool_decide (goLookup cm n = yaml))
          ∧ (∀ k, k ≠ n → cm' !! k = cm !! k)
          ∧ updateSidecar d sce cm' n = inr (false, cm').
Proof.
  intros H. apply updateSidecar_cases in H as (yaml & Hm & H).
  exists yaml. split; [done|].
  destruct H as [(-> & -> & Hy)|(-> & -> & Hy)].
  - repeat split; try done.
    + by rewrite bool_decide_eq_true_2.
    + unfold updateSidecar. rewrite Hm. by rewrite bool_decide_eq_true_2.
  - assert (goLookup (<[n:=yaml]> cm) n = yaml) as Hnew.
    { unfold goLookup. by rewrite lookup_insert_eq. }
    repeat split; try done.
    + by rewrite bool_decide_eq_false_2.
    + intros k Hk. by rewrite lookup_insert_ne.
    + unfold updateSidecar. rewrite Hm. by rewrite bool_decide_eq_true_2.
Qed.

Lemma updateSidecar_idempotent_witness :
  ∃ yaml, Marshal sampleCollaborators (sampleSidecar "tel2:2.0" (sampleWorkload None [])) = inr yaml
          ∧ goLookup ({[ "echo" := "tel2:2.0" ]} : gmap string string) "echo" = yaml
          ∧ true = negb (bool_decide (goLookup (∅ : gmap string string) "echo" = yaml))
          ∧ (∀ k, k ≠ "echo" →
               ({[ "echo" := "tel2:2.0" ]} : gmap string string) !! k
               = (∅ : gmap string string) !! k)
          ∧ updateSidecar sampleCollaborators (sampleSidecar "tel2:2.0" (sampleWorkload None []))
              {[ "echo" := "tel2:2.0" ]} "echo"
            = inr (false, {[ "echo" := "tel2:2.0" ]}).
Proof.
  apply (updateSidecar_idempotent sampleCollaborators
           (sampleSidecar "tel2:2.0" (sampleWorkload None [])) ∅ _ "echo" true).
  reflexivity.
Defined.

Section OwnRecord.
Variable d : Collaborators.
Variable sit : Situation.
Variable wl : Workload.
Variable extended : bool.
Variable spec : option InterceptSpec.

Lemma agentConfigCallback_cm cm changed cm' sce effs :
  agentConfigCallback d sit wl extended spec cm = (inr (changed, cm', sce), effs) →
  (changed = false ∧ cm' = cm) ∨ (changed = true ∧ ∃ yaml, cm' = <[wl_Name wl := yaml]> cm).
Proof.
  unfold agentConfigCallback. intros H.
  repeat case_match; simplify_eq; try (by left);
    match goal with
    | Hu : updateSidecar _ _ _ _ = inr _ |- _ =>
        apply updateSidecar_cases in Hu as (yaml & _ & [(-> & -> & _)|(-> & -> & _)]);
        [by left|right; eauto]
    end.
Qed.

End OwnRecord.

(** X4. [getOrCreateAgentConfig] changes nothing but the record of its own
    workload: the records of other namespaces and of other workloads of the
    namespace are as before, a record that the workload had is still there
    (it is updated, never removed), and when the call fails the store is
    as it was. *)
Theorem getOrCreateAgentConfig_own_record (d : Collaborators) (sit : Situation)
    (wl : Workload) (extended : bool) (spec : option InterceptSpec)
    (st st' : gmap string (gmap string string)) (r : error + Sidecar)
    (effs : list effect) :
  getOrCreateAgentConfig d sit wl extended spec st = (r, st', effs) →
  (∀ ns, ns ≠ wl_Namespace wl → st' !! ns = st !! ns)
  ∧ (∀ name, name ≠ wl_Name wl →
       st' !! wl_Namespace wl ≫= lookup name = st !! wl_Namespace wl ≫= lookup name)
  ∧ (is_Some (configEntry st wl) → is_Some (configEntry st' wl))
  ∧ (∀ e, r = inl e → st' = st).
Proof.
  unfold getOrCreateAgentConfig, mapUpdate. intros H.
  destruct (checkInterceptAnnotations d wl) as [e|[]]; simpl in H;
    [by simplify_eq| |by simplify_eq].
  destruct (ValidateAgentImage _ _); [by simplify_eq|].
  destruct (agentConfigCallback _ _ _ _ _ _) as [[e|[[changed cm] sce]] ceffs] eqn:Hc;
    [by simplify_eq|].
  apply agentConfigCallback_cm in Hc as [[-> ->]|(-> & yaml & ->)]; simplify_eq; [done|].
  split; [|split; [|split]].
  - intros ns Hns. by rewrite lookup_insert_ne.
  - intros name Hname. rewrite lookup_insert_eq. simpl.
    rewrite lookup_insert_ne by done.
    by destruct (st !! wl_Namespace wl).
  - intros _. unfold configEntry. rewrite lookup_insert_eq. simpl.
    by rewrite lookup_insert_eq.
  - done.
Qed.

Lemma getOrCreateAgentConfig_own_record_witness :
  ({[ "default" := {[ "echo" := "tel2:2.0" ]} ]} : gmap string (gmap string string)) !! "other"
  = (∅ : gmap string (gmap string string)) !! "other".
Proof.
  destruct (getOrCreateAgentConfig_own_record sampleCollaborators sampleSituation
              (sampleWorkload None ["app"]) false None ∅
              {[ "default" := {[ "echo" := "tel2:2.0" ]} ]}
              (inr (sampleSidecar "tel2:2.0" (sampleWorkload None ["app"]))) [])
    as (H & _).
  - by vm_compute.
  - apply (H "other"). discriminate.
Defined.

(** X5. The traffic-manager never creates or updates an agent-config
    record for an intercept that needs an extended traffic-agent: with
    [extended] set, [getOrCreateAgentConfig] fails for every workload and
    store, leaves the store as it is and calls no collaborator. *)
Theorem getOrCreateAgentConfig_extended (d : Collaborators) (sit : Situation)
    (wl : Workload) (spec : option InterceptSpec) (st : gmap string (gmap string string)) :
  ∃ e, getOrCreateAgentConfig d sit wl true spec st = (inl e, st, []).
Proof.
  unfold getOrCreateAgentConfig, ValidateAgentImage.
  destruct (checkInterceptAnnotations d wl) as [e|[]]; simpl; eauto.
  case_bool_decide; eauto.
Qed.

Section Arrivals.
Variable d : Collaborators.
Variables name namespace : string.

Lemma liveAgents_live state :
  Forall (λ a, IsBlacklisted d (ai_PodName a) (ai_Namespace a) = false) (liveAgents d state).
Proof.
  apply Forall_forall. intros a Ha. unfold liveAgents in Ha.
  by apply list_elem_of_filter in Ha as [? _].
Qed.

Lemma waitLoop_success sched : ∀ fes as_ effs,
  waitLoop d name namespace sched fes = Some (inr as_, effs) →
  ∃ state, Snapshot (Some state) ∈ sched ∧ as_ = liveAgents d state ∧ as_ ≠ [].
Proof.
  induction sched as [|ev sched IH]; intros fes as_ effs; simpl; [done|].
  destruct ev as [[fe|]|[state|]|b]; try done.
  - destruct (classifyEvent d namespace fe) as [[msg|[]] ceffs]; [done|].
    destruct (waitLoop _ _ _ sched _) as [[r effs']|] eqn:Hw; [|done].
    simpl. intros [= -> <-]. destruct (IH _ _ _ Hw) as (state & Hin & ? & ?).
    exists state. split; [by right|done].
  - fold (liveAgents d state).
    destruct (decide (0 < length state)); [destruct (decide (0 < length (liveAgents d state)))|].
    + intros [= <- <-]. exists state. split; [left|split; [done|]].
      intros Hnil. rewrite Hnil in *. simpl in *. lia.
    + intros Hw. destruct (IH _ _ _ Hw) as (state' & Hin & ? & ?).
      exists state'. split; [by right|done].
    + intros Hw. destruct (IH _ _ _ Hw) as (state' & Hin & ? & ?).
      exists state'. split; [by right|done].
Qed.

End Arrivals.

(** X6. When the wait for an agent succeeds, the agents returned are all
    the agents of one of the snapshots received that are not blacklisted,
    and there is at least one: a blacklisted agent is never returned and
    success is never an empty list. *)
Theorem waitForAgents_success (d : Collaborators) (name namespace : string)
    (sched : list waitEvent) (as_ : list AgentInfo) (effs : list effect) :
  waitForAgents d name namespace sched = Some (inr as_, effs) →
  as_ ≠ []
  ∧ Forall (λ a, IsBlacklisted d (ai_PodName a) (ai_Namespace a) = false) as_
  ∧ ∃ state, Snapshot (Some state) ∈ sched ∧ as_ = liveAgents d state.
Proof.
  intros H. apply waitLoop_success in H as (state & Hin & -> & Hne).
  split; [done|]. split; [apply liveAgents_live|by exists state].
Qed.

Lemma waitForAgents_success_witness :
  [sampleAgent] ≠ []
  ∧ Forall (λ a, IsBlacklisted sampleCollaborators (ai_PodName a) (ai_Namespace a) = false)
           [sampleAgent]
  ∧ ∃ state, Snapshot (Some state) ∈ [Snapshot (Some []); Snapshot (Some [sampleAgent])]
             ∧ [sampleAgent] = liveAgents sampleCollaborators state.
Proof.
  apply (waitForAgents_success sampleCollaborators "echo" "default"
           [Snapshot (Some []); Snapshot (Some [sampleAgent])] [sampleAgent] []).
  reflexivity.
Defined.

(** X7. A watch that ends while the agent is awaited ends the wait, after
    any cases that decided nothing: when the channel of failed injection
    events is closed the wait fails with "failed create channel closed",
    and when the channel of agent snapshots is closed it fails with the
    status [Canceled]; neither message lists the buffered events. *)
Theorem waitForAgents_closed_channel (d : Collaborators) (name namespace : string)
    (pre rest : list waitEvent) :
  Forall (undecided d) pre →
  waitForAgents d name namespace (pre ++ FailedCreate None :: rest)
    = Some (inl (PlainError "failed create channel closed"), [])
  ∧ waitForAgents d name namespace (pre ++ Snapshot None :: rest)
    = Some (inl (StatusError Canceled
                   ("channel closed while waiting for agent " +:+ name +:+ "." +:+ namespace
                    +:+ " to arrive")), []).
Proof.
  intros Hpre. unfold waitForAgents.
  by rewrite !(waitLoop_undecided d name namespace _ _ _ Hpre).
Qed.

Lemma waitForAgents_closed_channel_witness :
  waitForAgents sampleCollaborators "echo" "default"
    ([FailedCreate (Some unhealthyEvent)] ++ [FailedCreate None])
  = Some (inl (PlainError "failed create channel closed"), []).
Proof.
  apply (waitForAgents_closed_channel sampleCollaborators "echo" "default"
           [FailedCreate (Some unhealthyEvent)] []).
  repeat constructor.
Defined.

End ProvisionerMore.

Module InterceptStateMore.
Import Errcat InterceptState.

Lemma finalized_app effs1 effs2 : finalized (effs1 ++ effs2) = finalized effs1 ++ finalized effs2.
Proof. apply omap_app. Qed.

Lemma terminateFrom_finalized run id fs : ∀ i,
  i ≤ length fs → finalized (terminateFrom run fs id i) = reverse (take i fs).
Proof.
  induction i as [|i IH]; intros Hi; simpl.
  { by rewrite take_0. }
  destruct (lookup_lt_is_Some_2 fs i) as [f Hf]; [lia|]. rewrite Hf.
  rewrite (take_S_r _ _ _ Hf), reverse_app. simpl.
  change (Finalize f :: ?l) with ([Finalize f] ++ l).
  rewrite !finalized_app, IH by lia.
  by destruct (run f).
Qed.

(** X8. [terminate] runs every finalizer of an intercept exactly once, in
    the reverse of the order in which [addFinalizer] added them, whether or
    not some of them fail. *)
Theorem terminate_reverse_order (run : nat → option error) (id id' : string)
    (added : list nat) :
  finalized (terminate run (foldl addFinalizer (newInterceptState id) added) id')
  = reverse added.
Proof.
  assert (∀ is_, finalizers (foldl addFinalizer is_ added) = finalizers is_ ++ added) as Hfold.
  { induction added as [|f added IH]; intros is_; simpl; [by rewrite app_nil_r|].
    rewrite IH. simpl. by rewrite <-app_assoc. }
  unfold terminate. rewrite terminateFrom_finalized by done.
  rewrite Hfold. simpl. by rewrite firstn_all.
Qed.

End InterceptStateMore.

Module ProvisionerTable.
Import Errcat GoStrings PortMatcher Provisioner ProvisionerFacts.









(** X11. With the agent injector disabled [ensureAgent] does not wait: for
    every schedule, the empty one included, it returns at once, with the
    store as it was and without calling a collaborator; when the workload
    has no record it fails with the error that no agent has been added
    manually. *)
Theorem ensureAgent_injector_disabled (d : Collaborators) (sit : Situation) (wl : Workload)
    (extended : bool) (spec : option InterceptSpec) (sched : list waitEvent)
    (st : gmap string (gmap string string)) :
  injectorEnabled sit = false →
  ∃ res, ensureAgent d sit wl extended spec sched st = Some (res, st, [])
         ∧ ensureAgent d sit wl extended spec [] st = Some (res, st, [])
         ∧ (configEntry st wl = None →
            res = inl (UserError
                         ("agent-injector is disabled and no agent has been added manually for "
                          +:+ wl_Name wl +:+ "." +:+ wl_Namespace wl))).
Proof.
  intros Hdis. unfold ensureAgent, mapGet, configEntry. rewrite Hdis. simpl.
  destruct (st !! wl_Namespace wl ≫= lookup (wl_Name wl)) as [y|]; [|by eexists].
  destruct (unmarshalConfigMapEntry d y _ _); by eexists.
Qed.

Lemma ensureAgent_injector_disabled_witness :
  ∃ res, ensureAgent sampleCollaborators
           {| injectorEnabled := false; agentImage := "tel2:2.0"; agents := [];
              watchErr := None; departErr := None; dropErr := None |}
           (sampleWorkload None ["app"]) false None [] ∅ = Some (res, ∅, []).
Proof.
  destruct (ensureAgent_injector_disabled sampleCollaborators
              {| injectorEnabled := false; agentImage := "tel2:2.0"; agents := [];
                 watchErr := None; departErr := None; dropErr := None |}
              (sampleWorkload None ["app"]) false None [] ∅ eq_refl) as (res & H & _).
  by exists res.
Defined.

End ProvisionerTable.

Module TrafficMgrMore.
Import Errcat TrafficMgr TrafficMgrHandlers TrafficMgrFacts.

Section Snapshot.
Variable d : Collaborators.

Lemma adopt_fold_values s iis : ∀ m n e m' n' e',
  foldl (adopt s) (m, n, e) iis = (m', n', e') →
  ∀ id ic, m' !! id = Some ic →
    m !! id = Some ic
    ∨ ∃ ii cmp, ii ∈ iis ∧ Id ii = id ∧ info ic = setClientMountPoint cmp ii.
Proof.
  induction iis as [|ii iis IH]; intros m n e m' n' e'; simpl.
  { intros [= <- <- <-] id ic Hic. by left. }
  assert (∀ (x : intercept) n1 e1,
            (∃ cmp, info x = setClientMountPoint cmp ii) →
            foldl (adopt s) (<[Id ii := x]> m, n1, e1) iis = (m', n', e') →
            ∀ id ic, m' !! id = Some ic →
              m !! id = Some ic
              ∨ ∃ ii0 cmp, ii0 ∈ ii :: iis ∧ Id ii0 = id ∧ info ic = setClientMountPoint cmp ii0)
    as Hstep.
  { intros x n1 e1 [cmp Hx] Hfold id ic Hic.
    destruct (IH _ _ _ _ _ _ Hfold id ic Hic) as [Hm|(ii0 & cmp0 & Hin & Hid & Hinfo)].
    - destruct (decide (Id ii = id)) as [Heq|Hne].
      + rewrite <-Heq, lookup_insert_eq in Hm. injection Hm as <-.
        right. exists ii, cmp. split; [left|done].
      + rewrite lookup_insert_ne in Hm by done. by left.
    - right. exists ii0, cmp0. split; [by right|done]. }
  destruct (currentIntercepts s !! Id ii) as [old|].
  - apply Hstep. by eexists.
  - destruct (interceptWaiters s !! Name (Spec ii)) as [aw|]; apply Hstep.
    + by eexists.
    + exists (ClientMountPoint ii). by destruct ii.
Qed.

(** Records that come later in the snapshot and have other IDs leave an
    entry as it is. *)
Lemma adopt_fold_other s iis id : ∀ m n e m' n' e',
  foldl (adopt s) (m, n, e) iis = (m', n', e') →
  id ∉ Id <$> iis → m' !! id = m !! id.
Proof.
  induction iis as [|ii iis IH]; intros m n e m' n' e'; simpl.
  { by intros [= <- <- <-]. }
  intros Hfold Hid. apply not_elem_of_cons in Hid as [Hne Hid].
  destruct (currentIntercepts s !! Id ii) as [old|].
  - rewrite (IH _ _ _ _ _ _ Hfold Hid). by rewrite lookup_insert_ne.
  - rewrite (IH _ _ _ _ _ _ Hfold Hid). by rewrite lookup_insert_ne.
Qed.

Lemma adopt_fold_effects s iis : ∀ m n e m' n' e',
  foldl (adopt s) (m, n, e) iis = (m', n', e') → ∃ e2, e' = e ++ e2.
Proof.
  induction iis as [|ii iis IH]; intros m n e m' n' e'; simpl.
  { intros [= <- <- <-]. exists []. by rewrite app_nil_r. }
  destruct (currentIntercepts s !! Id ii) as [old|]; intros Hfold.
  - by eapply IH.
  - apply IH in Hfold as [e2 ->]. exists ([NewScope n] ++ e2). by rewrite app_assoc.
Qed.

(** What the first loop of [setCurrentIntercepts] stores for a record of a
    snapshot whose IDs are distinct. *)
Lemma adopt_fold_entry s iis : ∀ m n e m' n' e',
  foldl (adopt s) (m, n, e) iis = (m', n', e') →
  NoDup (Id <$> iis) →
  ∀ ii, ii ∈ iis →
  match currentIntercepts s !! Id ii with
  | Some old =>
      m' !! Id ii = Some (set_info (setClientMountPoint (ClientMountPoint (info old)) ii) old)
  | None =>
      ∃ ic, m' !! Id ii = Some ic
            ∧ NewScope (scope ic) ∈ e'
            ∧ pid ic = 0%Z ∧ handlerContainer ic = ""
            ∧ match interceptWaiters s !! Name (Spec ii) with
              | Some aw =>
                  info ic = setClientMountPoint (mountPoint aw) ii
                  ∧ localMountPort ic = mountPort aw
                  ∧ readOnly ic = aw_readOnly aw
              | None => info ic = ii ∧ localMountPort ic = 0%Z ∧ readOnly ic = false
              end
  end.
Proof.
  induction iis as [|ii0 iis IH]; intros m n e m' n' e' Hfold Hnd ii Hin;
    [by apply elem_of_nil in Hin|].
  rewrite fmap_cons in Hnd. apply NoDup_cons in Hnd as [Hfresh Hnd].
  simpl in Hfold. apply elem_of_cons in Hin as [->|Hin].
  - destruct (currentIntercepts s !! Id ii0) as [old|] eqn:Hold.
    + rewrite (adopt_fold_other _ _ _ _ _ _ _ _ _ Hfold Hfresh). by rewrite lookup_insert_eq.
    + rewrite (adopt_fold_other _ _ _ _ _ _ _ _ _ Hfold Hfresh). rewrite lookup_insert_eq.
      apply adopt_fold_effects in Hfold as [e2 ->].
      eexists. split; [done|].
      destruct (interceptWaiters s !! Name (Spec ii0)) as [aw|]; simpl;
        (split; [apply elem_of_app; left; apply elem_of_app; right; left|done]).
  - destruct (currentIntercepts s !! Id ii0) as [old0|].
    + by apply (IH _ _ _ _ _ _ Hfold Hnd).
    + by apply (IH _ _ _ _ _ _ Hfold Hnd).
Qed.

End Snapshot.

(** X12. When a pass over a snapshot ends, the current set holds exactly
    the IDs of the snapshot, each entry under the ID of its record, and
    every record of the set is a record of the snapshot, but for the client
    mount point, which the client assigns. *)
Theorem snapshot_is_current_set (d : Collaborators) (s s' : session)
    (iis : list InterceptInfo) (effs : list effect) :
  handleInterceptSnapshot d s iis = Some (s', effs) →
  dom (currentIntercepts s') = list_to_set (Id <$> iis)
  ∧ ∀ id ic, currentIntercepts s' !! id = Some ic →
      Id (info ic) = id
      ∧ ∃ ii, ii ∈ iis ∧ info ic = setClientMountPoint (ClientMountPoint (info ic)) ii.
Proof.
  unfold handleInterceptSnapshot.
  destruct (setCurrentIntercepts d s iis) as [s1 effs1] eqn:Hset.
  pose proof (setCurrentIntercepts_spec _ _ _ _ _ Hset) as (Hdom & _).
  destruct (notifyAll s1 iis) as [[s2 effs2]|] eqn:Hn; simpl; [|done].
  apply notifyAll_spec in Hn as [Hci _]. intros [= <- <-]. rewrite Hci. split.
  - apply set_eq. intros id. rewrite elem_of_dom, Hdom, elem_of_list_to_set. done.
  - intros id ic Hic. unfold setCurrentIntercepts in Hset.
    destruct (foldl (adopt s) (∅, nextScope s, []) iis) as [[m n] e] eqn:Hfold.
    destruct (reconcileAPIServers d _) as [s1' apiEffs] eqn:Hr.
    apply reconcileAPIServers_spec in Hr as (Hci1 & _).
    injection Hset as <- _. rewrite Hci1 in Hic. simpl in Hic.
    destruct (adopt_fold_values _ _ _ _ _ _ _ _ Hfold id ic Hic)
      as [Hempty|(ii & cmp & Hin & Hid & Hinfo)]; [by rewrite lookup_empty in Hempty|].
    split; [by rewrite Hinfo, <-Hid; destruct ii|].
    exists ii. split; [done|]. rewrite Hinfo. by destruct ii.
Qed.

Lemma snapshot_is_current_set_witness :
  ∃ s', dom (currentIntercepts s') = list_to_set (Id <$> [sampleInfo "id-1" "echo" WAITING]).
Proof.
  destruct (handleInterceptSnapshot sampleCollaborators (sampleSession ∅)
              [sampleInfo "id-1" "echo" WAITING]) as [[s' effs]|] eqn:Hrun;
    [|by vm_compute in Hrun].
  exists s'. by destruct (snapshot_is_current_set _ _ _ _ _ Hrun) as [H _].
Defined.

(** X13. The client-only fields survive a snapshot. In a snapshot whose
    records have distinct IDs, a record whose ID is in the current set
    replaces the record of that intercept and nothing else: scope, handler
    process, handler container, mount port and read-only flag stay, and the
    client mount point is carried over into the new record. A record with
    a new ID gets a scope that the pass creates and no handler; its client
    mount point, mount port and read-only flag come from the waiter
    registered for its name, if there is one. *)
Theorem client_fields_preserved (d : Collaborators) (s s' : session)
    (iis : list InterceptInfo) (effs : list effect) (ii : InterceptInfo) :
  handleInterceptSnapshot d s iis = Some (s', effs) →
  NoDup (Id <$> iis) →
  ii ∈ iis →
  match currentIntercepts s !! Id ii with
  | Some old =>
      currentIntercepts s' !! Id ii
      = Some {| info := setClientMountPoint (ClientMountPoint (info old)) ii;
                scope := scope old; pid := pid old;
                handlerContainer := handlerContainer old;
                localMountPort := localMountPort old; readOnly := readOnly old |}
  | None =>
      ∃ ic, currentIntercepts s' !! Id ii = Some ic
            ∧ NewScope (scope ic) ∈ effs
            ∧ pid ic = 0%Z ∧ handlerContainer ic = ""
            ∧ match interceptWaiters s !! Name (Spec ii) with
              | Some aw =>
                  info ic = setClientMountPoint (mountPoint aw) ii
                  ∧ localMountPort ic = mountPort aw
                  ∧ readOnly ic = aw_readOnly aw
              | None => info ic = ii ∧ localMountPort ic = 0%Z ∧ readOnly ic = false
              end
  end.
Proof.
  unfold handleInterceptSnapshot.
  destruct (setCurrentIntercepts d s iis) as [s1 effs1] eqn:Hset.
  destruct (notifyAll s1 iis) as [[s2 effs2]|] eqn:Hn; simpl; [|done].
  apply notifyAll_spec in Hn as [Hci _]. intros [= <- <-] Hnd Hin. rewrite Hci.
  unfold setCurrentIntercepts in Hset.
  destruct (foldl (adopt s) (∅, nextScope s, []) iis) as [[m n] e] eqn:Hfold.
  destruct (reconcileAPIServers d _) as [s1' apiEffs] eqn:Hr.
  apply reconcileAPIServers_spec in Hr as (Hci1 & _).
  injection Hset as <- <-. rewrite Hci1. simpl.
  pose proof (adopt_fold_entry _ _ _ _ _ _ _ _ Hfold Hnd ii Hin) as Hentry.
  destruct (currentIntercepts s !! Id ii) as [old|]; [done|].
  destruct Hentry as (ic & Hic & Hscope & Hrest).
  exists ic. split; [done|]. split; [|done].
  apply elem_of_app. left. apply elem_of_app. by left.
Qed.

(** Intercept [a] is current with a handler process and a client mount
    point; the snapshot that reports it active keeps both. *)
Lemma client_fields_preserved_witness :
  let old := set_info (setClientMountPoint "/mnt/a" (info interceptA))
               {| info := info interceptA; scope := 1; pid := 4711; handlerContainer := "";
                  localMountPort := 0; readOnly := true |} in
  ∃ s' effs,
    handleInterceptSnapshot sampleCollaborators (sampleSession {[ "id-a" := old ]})
      [info interceptA] = Some (s', effs)
    ∧ currentIntercepts s' !! "id-a" = Some old.
Proof.
  intros old.
  destruct (handleInterceptSnapshot sampleCollaborators (sampleSession {[ "id-a" := old ]})
              [info interceptA]) as [[s' effs]|] eqn:Hrun; [|by vm_compute in Hrun].
  exists s', effs. split; [done|].
  pose proof (client_fields_preserved _ _ _ _ _ (info interceptA) Hrun) as H.
  simpl in H. rewrite lookup_singleton_eq in H. apply H.
  - repeat constructor. apply not_elem_of_nil.
  - left.
Defined.

Section Passes.
Variable d : Collaborators.

Lemma notify_frame s ii s' effs :
  notify s ii = Some (s', effs) →
  s_Namespace s' = s_Namespace s
  ∧ isPodDaemon s' = isPodDaemon s
  ∧ currentIntercepts s' = currentIntercepts s
  ∧ currentMatchers s' = currentMatchers s
  ∧ currentAPIServers s' = currentAPIServers s
  ∧ ∀ name aw, interceptWaiters s' !! name = Some aw → interceptWaiters s !! name = Some aw.
Proof.
  unfold notify. case_bool_decide. { by intros [= <- <-]. }
  destruct (currentIntercepts s !! Id ii) as [ic|]; simpl; [|done].
  destruct (interceptWaiters s !! Name (Spec ii)) as [aw|] eqn:Haw.
  - destruct (trySend _ _ _) as [[[] chans]|]; [| |done]; intros [= <- <-]; simpl;
      repeat split; intros name aw' H'; by apply lookup_delete_Some in H' as [_ ?].
  - by intros [= <- <-].
Qed.

Lemma notifyAll_frame iis : ∀ s s' effs,
  notifyAll s iis = Some (s', effs) →
  s_Namespace s' = s_Namespace s
  ∧ isPodDaemon s' = isPodDaemon s
  ∧ currentIntercepts s' = currentIntercepts s
  ∧ currentMatchers s' = currentMatchers s
  ∧ currentAPIServers s' = currentAPIServers s
  ∧ ∀ name aw, interceptWaiters s' !! name = Some aw → interceptWaiters s !! name = Some aw.
Proof.
  induction iis as [|ii iis IH]; intros s s' effs; simpl.
  { by intros [= <- <-]. }
  destruct (notify s ii) as [[s1 effs1]|] eqn:Hn; simpl; [|done].
  destruct (notifyAll s1 iis) as [[s2 effs2]|] eqn:Hna; simpl; [|done].
  intros [= <- <-].
  apply IH in Hna as (-> & -> & -> & -> & -> & Hw').
  apply notify_frame in Hn as (-> & -> & -> & -> & -> & Hw).
  repeat split. intros name aw H'. by apply Hw, Hw'.
Qed.


(** The pod accesses that the body of the loop starts. *)
Lemma notify_starts s ii s' effs pa :
  notify s ii = Some (s', effs) →
  PatStart pa ∈ effs
  ↔ Disposition_ ii = ACTIVE ∧ s_Namespace s = Namespace (Spec ii)
    ∧ ∃ ic, currentIntercepts s !! Id ii = Some ic
            ∧ pa = if isPodDaemon s then disableMounts (podAccessOf ic) else podAccessOf ic.
Proof.
  unfold notify. case_bool_decide as Hw.
  { intros [= <- <-]. split; [by intros ?%elem_of_nil|]. intros [Ha _]. congruence. }
  destruct (currentIntercepts s !! Id ii) as [ic|]; simpl; [|done].
  assert (∀ s0, isPodDaemon s0 = isPodDaemon s →
            PatStart pa ∈ startAccess s0 (dispositionError s ii) (podAccessOf ic)
            ↔ Disposition_ ii = ACTIVE ∧ s_Namespace s = Namespace (Spec ii)
              ∧ ∃ ic0, Some ic = Some ic0
                       ∧ pa = if isPodDaemon s then disableMounts (podAccessOf ic0)
                              else podAccessOf ic0) as Hstart.
  { intros s0 Hpd. unfold dispositionError, startAccess. rewrite Hpd.
    case_bool_decide as Ha; [case_bool_decide as Hns|]; simpl.
    - rewrite list_elem_of_singleton. split.
      + intros [= ->]. repeat split; [done..|]. by exists ic.
      + intros (_ & _ & ic0 & [= <-] & ->). done.
    - rewrite list_elem_of_singleton. split; [done|]. by intros (_ & ? & _).
    - rewrite list_elem_of_singleton. split; [done|]. by intros (? & _). }
  destruct (interceptWaiters s !! Name (Spec ii)) as [aw|].
  - destruct (trySend _ _ _) as [[[] chans]|]; [| |done]; intros [= <- <-].
    + rewrite <-(Hstart s) by done.
      destruct (dispositionError s ii) as [e|] eqn:Herr; simpl.
      * rewrite !elem_of_cons, !elem_of_nil. naive_solver.
      * rewrite !elem_of_cons, !elem_of_nil. naive_solver.
    + rewrite <-(Hstart s) by done. simpl. rewrite !elem_of_cons.
      split; [intros [?|[?|[?|?]]]; done|]. intros ?. by do 3 right.
  - intros [= <- <-]. rewrite <-(Hstart s) by done. rewrite elem_of_cons.
    split; [by intros [?|?]|]. intros ?. by right.
Qed.

Lemma notifyAll_starts iis pa : ∀ s s' effs,
  notifyAll s iis = Some (s', effs) →
  PatStart pa ∈ effs
  ↔ ∃ ii ic, ii ∈ iis ∧ Disposition_ ii = ACTIVE ∧ s_Namespace s = Namespace (Spec ii)
             ∧ currentIntercepts s !! Id ii = Some ic
             ∧ pa = if isPodDaemon s then disableMounts (podAccessOf ic) else podAccessOf ic.
Proof.
  induction iis as [|ii iis IH]; intros s s' effs; simpl.
  { intros [= <- <-]. split; [by intros ?%elem_of_nil|].
    intros (ii & ic & Hin & _). by apply elem_of_nil in Hin. }
  destruct (notify s ii) as [[s1 effs1]|] eqn:Hn; simpl; [|done].
  destruct (notifyAll s1 iis) as [[s2 effs2]|] eqn:Hna; simpl; [|done].
  intros [= <- <-].
  pose proof (notify_frame _ _ _ _ Hn) as (Hns & Hpd & Hci & _).
  rewrite elem_of_app, (notify_starts _ _ _ _ pa Hn), (IH _ _ _ Hna), Hns, Hpd, Hci.
  split.
  - intros [(Ha & Hsame & ic & Hic & Hpa)|(ii' & ic & Hin & Hrest)].
    + exists ii, ic. split; [left|done].
    + exists ii', ic. split; [by right|done].
  - intros (ii' & ic & Hin & Ha & Hsame & Hic & Hpa).
    apply elem_of_cons in Hin as [->|Hin].
    + left. repeat split; [done..|]. by exists ic.
    + right. by exists ii', ic.
Qed.

(** The results that the body of the loop sends. *)
Lemma notify_result s ii s' effs ch ir :
  notify s ii = Some (s', effs) →
  SendResult ch ir ∈ effs →
  Disposition_ ii ≠ WAITING
  ∧ ∃ aw ic, interceptWaiters s !! Name (Spec ii) = Some aw
             ∧ waitCh aw = ch
             ∧ currentIntercepts s !! Id ii = Some ic
             ∧ ir = {| ir_intercept := ic; ir_mountsDone := podAccessOf ic;
                       ir_err := dispositionError s ii |}.
Proof.
  unfold notify. case_bool_decide as Hw.
  { intros [= <- <-]. by intros ?%elem_of_nil. }
  destruct (currentIntercepts s !! Id ii) as [ic|]; simpl; [|done].
  assert (∀ s0 err pa, SendResult ch ir ∉ startAccess s0 err pa) as Hstart.
  { intros s0 [e|] pa; simpl; rewrite list_elem_of_singleton; done. }
  destruct (interceptWaiters s !! Name (Spec ii)) as [aw|].
  - destruct (trySend _ _ _) as [[[] chans]|]; [| |done]; intros [= <- <-]; simpl.
    + rewrite !elem_of_cons. intros [?|[?|[Heq|Hin]]]; try done.
      * injection Heq as -> ->. split; [done|]. by exists aw, ic.
      * destruct (dispositionError s ii); [by apply elem_of_nil in Hin|].
        by apply Hstart in Hin.
    + rewrite !elem_of_cons. intros [?|[?|[?|Hin]]]; try done. by apply Hstart in Hin.
  - intros [= <- <-]. rewrite elem_of_cons. intros [?|Hin]; [done|]. by apply Hstart in Hin.
Qed.

Lemma notifyAll_result iis ch ir : ∀ s s' effs,
  notifyAll s iis = Some (s', effs) →
  SendResult ch ir ∈ effs →
  ∃ ii aw ic, ii ∈ iis ∧ Disposition_ ii ≠ WAITING
              ∧ interceptWaiters s !! Name (Spec ii) = Some aw
              ∧ waitCh aw = ch
              ∧ currentIntercepts s !! Id ii = Some ic
              ∧ ir = {| ir_intercept := ic; ir_mountsDone := podAccessOf ic;
                        ir_err := dispositionError s ii |}.
Proof.
  induction iis as [|ii iis IH]; intros s s' effs; simpl.
  { intros [= <- <-]. by intros ?%elem_of_nil. }
  destruct (notify s ii) as [[s1 effs1]|] eqn:Hn; simpl; [|done].
  destruct (notifyAll s1 iis) as [[s2 effs2]|] eqn:Hna; simpl; [|done].
  intros [= <- <-]. rewrite elem_of_app. intros [Hin|Hin].
  - destruct (notify_result _ _ _ _ _ _ Hn Hin) as (Hw & aw & ic & ?).
    exists ii, aw, ic. split; [left|done].
  - pose proof (notify_frame _ _ _ _ Hn) as (Hns & _ & Hci & _ & _ & Hsub).
    destruct (IH _ _ _ Hna Hin) as (ii' & aw & ic & Hin' & Hw & Haw & Hch & Hic & ->).
    exists ii', aw, ic. split; [by right|]. split; [done|].
    split; [by apply Hsub|]. split; [done|]. rewrite <-Hci. split; [done|].
    unfold dispositionError. by rewrite Hns.
Qed.

Lemma wantAPI_logs (P : effect → Prop) l : (∀ e, P (LogError e)) → ∀ acc,
  Forall P acc.2 → Forall P (foldl (wantAPI d) acc l).2.
Proof.
  intros HP. induction l as [|kv l IH]; intros [[ps ms] es] Hq; simpl; [done|].
  apply IH. case_bool_decide; [|done].
  assert (Forall P (agentAPIPort d (info kv.2)).2) as He.
  { unfold agentAPIPort. repeat case_match; simpl; by repeat constructor. }
  destruct (agentAPIPort d (info kv.2)) as [port e].
  case_bool_decide; simpl; by apply Forall_app_2.
Qed.

Lemma matchers_log (P : effect → Prop) (l : list (string * InterceptInfo)) :
  (∀ e, P (LogError e)) → ∀ ms es,
  Forall P es → Forall P (foldl (ensureMatcher d) (ms, es) l).2.
Proof.
  intros HP. induction l as [|kv l IH]; intros ms es Hq; simpl; [done|].
  destruct (ms !! kv.1); [by apply IH|].
  unfold newMatcher. destruct (NewRequestFromMap d _).
  - apply IH, Forall_app_2; [done|]. by repeat constructor.
  - apply IH. by rewrite app_nil_r.
Qed.

Lemma adopt_fold_housekeeping s iis : ∀ m n e,
  Forall housekeeping e → Forall housekeeping (foldl (adopt s) (m, n, e) iis).2.
Proof.
  induction iis as [|ii iis IH]; intros m n e He; simpl; [done|].
  destruct (currentIntercepts s !! Id ii); [by apply IH|].
  apply IH, Forall_app_2; [done|]. by repeat constructor.
Qed.

Lemma reconcileAPIServers_housekeeping s :
  Forall housekeeping (reconcileAPIServers d s).2.
Proof.
  unfold reconcileAPIServers.
  pose proof (wantAPI_logs housekeeping (map_to_list (currentIntercepts s)) (λ _, I)
                (∅, ∅, []) (Forall_nil_2 _)) as Hw.
  fold (wantedAPI d s) in Hw.
  destruct (wantedAPI d s) as [[wantedPorts wantedMatchers] effs0].
  pose proof (matchers_log housekeeping (map_to_list wantedMatchers) (λ _, I)
                (filter (λ kv, is_Some (wantedMatchers !! kv.1)) (currentMatchers s)) []
                (Forall_nil_2 _)) as Hm.
  destruct (foldl _ _ (map_to_list wantedMatchers)) as [matchers matcherEffs]. simpl.
  apply Forall_app_2; [done|].
  apply Forall_app_2; [apply Forall_fmap, Forall_true; done|].
  apply Forall_app_2; [apply Forall_fmap, Forall_true; done|done].
Qed.

Lemma setCurrentIntercepts_housekeeping s iis :
  Forall housekeeping (setCurrentIntercepts d s iis).2.
Proof.
  unfold setCurrentIntercepts.
  pose proof (adopt_fold_housekeeping s iis ∅ (nextScope s) [] (Forall_nil_2 _)) as Ha.
  destruct (foldl (adopt s) _ iis) as [[m n] e].
  pose proof (reconcileAPIServers_housekeeping (setIntercepts m n s)) as Hr.
  destruct (reconcileAPIServers d _) as [s1 apiEffs]. simpl in *.
  apply Forall_app_2; [done|].
  apply Forall_app_2; [|done]. apply Forall_fmap, Forall_true. done.
Qed.

Lemma setCurrentIntercepts_frame s iis :
  s_Namespace (setCurrentIntercepts d s iis).1 = s_Namespace s
  ∧ isPodDaemon (setCurrentIntercepts d s iis).1 = isPodDaemon s.
Proof.
  unfold setCurrentIntercepts.
  destruct (foldl (adopt s) _ iis) as [[m n] e].
  unfold reconcileAPIServers.
  destruct (wantedAPI d _) as [[wantedPorts wantedMatchers] effs0].
  by destruct (foldl _ _ (map_to_list wantedMatchers)) as [matchers matcherEffs].
Qed.

End Passes.



(** X15. A pass over a snapshot starts the pod access of exactly the
    records that are [ACTIVE] and in the namespace of the session, with
    what the current set holds for their IDs when the pass ends; for a pod
    daemon, the access is started with both mount ports zeroed. *)
Theorem pod_access_started_iff_active (d : Collaborators) (s s' : session)
    (iis : list InterceptInfo) (effs : list effect) (pa : podAccess) :
  handleInterceptSnapshot d s iis = Some (s', effs) →
  PatStart pa ∈ effs
  ↔ ∃ ii ic, ii ∈ iis ∧ Disposition_ ii = ACTIVE ∧ s_Namespace s = Namespace (Spec ii)
             ∧ currentIntercepts s' !! Id ii = Some ic
             ∧ pa = if isPodDaemon s then disableMounts (podAccessOf ic) else podAccessOf ic.
Proof.
  unfold handleInterceptSnapshot.
  pose proof (setCurrentIntercepts_housekeeping d s iis) as Hhk.
  pose proof (setCurrentIntercepts_frame d s iis) as [Hns Hpd].
  destruct (setCurrentIntercepts d s iis) as [s1 effs1]. simpl in *.
  destruct (notifyAll s1 iis) as [[s2 effs2]|] eqn:Hna; simpl; [|done].
  intros [= <- <-].
  pose proof (notifyAll_frame _ _ _ _ Hna) as (_ & _ & Hci & _).
  rewrite Hci, <-Hns, <-Hpd, <-(notifyAll_starts iis pa _ _ _ Hna).
  rewrite elem_of_app, elem_of_cons, elem_of_app, list_elem_of_singleton.
  split; [|intros ?; right; right; by left].
  intros [Hin|[?|[?|?]]]; [|done..].
  rewrite Forall_forall in Hhk. by apply Hhk in Hin.
Qed.

(** In a pod daemon, the access of an active intercept is started with its
    mount ports zeroed. *)
Lemma pod_access_started_witness :
  let ii := setClientMountPoint "" (info interceptA) in
  ∃ s' effs,
    handleInterceptSnapshot sampleCollaborators
      (Build_session "default" "client-1" true ∅ ∅ ∅ ∅ ∅ 10) [ii] = Some (s', effs)
    ∧ PatStart (disableMounts (podAccessOf (sampleIntercept ii 10))) ∈ effs.
Proof.
  intros ii.
  destruct (handleInterceptSnapshot sampleCollaborators
              (Build_session "default" "client-1" true ∅ ∅ ∅ ∅ ∅ 10) [ii])
    as [[s' effs]|] eqn:Hrun; [|by vm_compute in Hrun].
  exists s', effs. split; [done|].
  apply (pod_access_started_iff_active _ _ _ _ _ _ Hrun).
  exists ii, (sampleIntercept ii 10). split; [left|]. split; [done|]. split; [done|].
  split; [|done]. vm_compute in Hrun. by injection Hrun as <- _.
Defined.

(** X16. Every result that a pass over a snapshot sends goes to the channel
    of a waiter registered, when the pass starts, under the name of a
    record of the snapshot that is not [WAITING]; it carries what the
    current set holds for the ID of that record when the pass ends, with
    the pod access of that intercept; and it carries no error exactly when
    the record is [ACTIVE] and in the namespace of the session. *)
Theorem results_sent (d : Collaborators) (s s' : session) (iis : list InterceptInfo)
    (effs : list effect) (ch : nat) (ir : interceptResult) :
  handleInterceptSnapshot d s iis = Some (s', effs) →
  SendResult ch ir ∈ effs →
  ∃ ii aw, ii ∈ iis ∧ Disposition_ ii ≠ WAITING
           ∧ interceptWaiters s !! Name (Spec ii) = Some aw
           ∧ waitCh aw = ch
           ∧ currentIntercepts s' !! Id ii = Some (ir_intercept ir)
           ∧ ir_mountsDone ir = podAccessOf (ir_intercept ir)
           ∧ (ir_err ir = None
              ↔ Disposition_ ii = ACTIVE ∧ s_Namespace s = Namespace (Spec ii)).
Proof.
  unfold handleInterceptSnapshot.
  pose proof (setCurrentIntercepts_housekeeping d s iis) as Hhk.
  pose proof (setCurrentIntercepts_frame d s iis) as [Hns Hpd].
  destruct (setCurrentIntercepts d s iis) as [s1 effs1] eqn:Hset. simpl in *.
  apply setCurrentIntercepts_spec in Hset as (_ & _ & Hw & _).
  destruct (notifyAll s1 iis) as [[s2 effs2]|] eqn:Hna; simpl; [|done].
  intros [= <- <-].
  pose proof (notifyAll_frame _ _ _ _ Hna) as (_ & _ & Hci & _).
  rewrite elem_of_app, elem_of_cons, elem_of_app, list_elem_of_singleton.
  intros [Hin|[?|[Hin|?]]]; [|done| |done].
  { rewrite Forall_forall in Hhk. by apply Hhk in Hin. }
  destruct (notifyAll_result _ _ _ _ _ _ Hna Hin)
    as (ii & aw & ic & Hin' & Hnw & Haw & Hch & Hic & ->).
  exists ii, aw. rewrite <-Hw, Hci. repeat (split; [done|]). simpl.
  unfold dispositionError. rewrite Hns.
  case_bool_decide; [case_bool_decide|]; simpl; naive_solver.
Qed.

(** The snapshot that reports the intercept of a creation call active sends
    the call a result without an error. *)
Lemma results_sent_witness :
  let '(s1, ch) := registerWaiter (sampleSession ∅) "echo"
                     (sampleRequest (sampleSpec "echo" "127.0.0.1" 8080)) in
  ∃ s' effs ir,
    handleInterceptSnapshot sampleCollaborators s1 [sampleInfo "id-1" "echo" ACTIVE]
      = Some (s', effs)
    ∧ SendResult ch ir ∈ effs
    ∧ ir_err ir = None.
Proof.
  destruct (registerWaiter (sampleSession ∅) "echo"
              (sampleRequest (sampleSpec "echo" "127.0.0.1" 8080))) as [s1 ch] eqn:Hreg.
  vm_compute in Hreg. injection Hreg as <- <-.
  destruct (handleInterceptSnapshot sampleCollaborators _ [sampleInfo "id-1" "echo" ACTIVE])
    as [[s' effs]|] eqn:Hrun; [|by vm_compute in Hrun].
  pose (ir := {| ir_intercept :=
                   set_readOnly false (set_localMountPort 0
                     (set_info (setClientMountPoint "/tmp/echo" (sampleInfo "id-1" "echo" ACTIVE))
                        (sampleIntercept (sampleInfo "id-1" "echo" ACTIVE) 10)));
                 ir_mountsDone :=
                   podAccessOf (set_info (setClientMountPoint "/tmp/echo"
                                            (sampleInfo "id-1" "echo" ACTIVE))
                                  (sampleIntercept (sampleInfo "id-1" "echo" ACTIVE) 10));
                 ir_err := None |}).
  assert (SendResult 0 ir ∈ effs) as Hsent.
  { vm_compute in Hrun. injection Hrun as _ <-. do 4 right. left. }
  exists s', effs, ir. split; [done|]. split; [done|].
  destruct (results_sent _ _ _ _ _ _ _ Hrun Hsent) as (ii & aw & Hin & _ & _ & _ & _ & _ & Herr).
  apply Herr. apply list_elem_of_singleton in Hin as ->. split; reflexivity.
Defined.

Section Servers.
Variable d : Collaborators.

Lemma agentAPIPort_mount cmp ii :
  agentAPIPort d (setClientMountPoint cmp ii) = agentAPIPort d ii.
Proof. done. Qed.

Lemma wantAPI_step ps ms es kv :
  ∃ es', wantAPI d (ps, ms, es) kv
         = if decide (servesAPI d kv.2)
           then ({[(agentAPIPort d (info kv.2)).1]} ∪ ps,
                 <[Id (info kv.2) := info kv.2]> ms, es')
           else (ps, ms, es').
Proof.
  destruct (decide (servesAPI d kv.2)) as [[Ha Hp]|Hs]; unfold wantAPI.
  - rewrite (bool_decide_eq_true_2 _ Ha).
    destruct (agentAPIPort d (info kv.2)) as [port e] eqn:Hport. simpl in *.
    rewrite bool_decide_eq_true_2 by done. by exists (es ++ e).
  - case_bool_decide as Ha; [|by exists es].
    destruct (agentAPIPort d (info kv.2)) as [port e] eqn:Hport.
    case_bool_decide as Hp; [|by exists (es ++ e)].
    exfalso. apply Hs. split; [done|]. by rewrite Hport.
Qed.

Lemma wantAPI_fold l : ∀ ps ms es,
  (∀ p, p ∈ (foldl (wantAPI d) (ps, ms, es) l).1.1
        ↔ p ∈ ps ∨ ∃ kv, kv ∈ l ∧ servesAPI d kv.2 ∧ (agentAPIPort d (info kv.2)).1 = p)
  ∧ (∀ id, is_Some ((foldl (wantAPI d) (ps, ms, es) l).1.2 !! id)
           ↔ is_Some (ms !! id) ∨ ∃ kv, kv ∈ l ∧ servesAPI d kv.2 ∧ Id (info kv.2) = id)
  ∧ (∀ id ii, (foldl (wantAPI d) (ps, ms, es) l).1.2 !! id = Some ii →
       ms !! id = Some ii
       ∨ ∃ kv, kv ∈ l ∧ servesAPI d kv.2 ∧ info kv.2 = ii ∧ Id ii = id).
Proof.
  induction l as [|kv l IH]; intros ps ms es.
  { simpl. repeat split; try (intros [?|(kv & Hin & _)]; [done|by apply elem_of_nil in Hin]);
      try by left. }
  cbn [foldl]. destruct (wantAPI_step ps ms es kv) as [es' ->].
  destruct (decide (servesAPI d kv.2)) as [Hs|Hs].
  - destruct (IH ({[(agentAPIPort d (info kv.2)).1]} ∪ ps)
                (<[Id (info kv.2) := info kv.2]> ms) es') as (Hp & Hd & Hv).
    split; [|split].
    + intros p. rewrite Hp, elem_of_union, elem_of_singleton. split.
      * intros [[->|?]|(kv' & Hin & ?)]; [right; exists kv; split; [left|done]|by left|].
        right. exists kv'. split; [by right|done].
      * intros [?|(kv' & Hin & Hs' & Hport)]; [left; by right|].
        apply elem_of_cons in Hin as [->|Hin]; [left; by left|].
        right. by exists kv'.
    + intros id. rewrite Hd, lookup_insert_is_Some. split.
      * intros [[?|[_ ?]]|(kv' & Hin & ?)]; [right; exists kv; split; [left|done]|by left|].
        right. exists kv'. split; [by right|done].
      * intros [?|(kv' & Hin & Hs' & Hid)].
        { destruct (decide (Id (info kv.2) = id)); [left; by left|left; by right]. }
        apply elem_of_cons in Hin as [->|Hin]; [left; by left|].
        right. by exists kv'.
    + intros id ii Hii. destruct (Hv id ii Hii) as [Hm|(kv' & Hin & ?)].
      * destruct (decide (Id (info kv.2) = id)) as [Heq|Hne].
        -- rewrite <-Heq, lookup_insert_eq in Hm. injection Hm as <-.
           right. exists kv. split; [left|done].
        -- rewrite lookup_insert_ne in Hm by done. by left.
      * right. exists kv'. split; [by right|done].
  - destruct (IH ps ms es') as (Hp & Hd & Hv). split; [|split].
    + intros p. rewrite Hp. split.
      * intros [?|(kv' & Hin & ?)]; [by left|]. right. exists kv'. split; [by right|done].
      * intros [?|(kv' & Hin & Hs' & Hport)]; [by left|].
        apply elem_of_cons in Hin as [->|Hin]; [done|]. right. by exists kv'.
    + intros id. rewrite Hd. split.
      * intros [?|(kv' & Hin & ?)]; [by left|]. right. exists kv'. split; [by right|done].
      * intros [?|(kv' & Hin & Hs' & Hid)]; [by left|].
        apply elem_of_cons in Hin as [->|Hin]; [done|]. right. by exists kv'.
    + intros id ii Hii. destruct (Hv id ii Hii) as [Hm|(kv' & Hin & ?)]; [by left|].
      right. exists kv'. split; [by right|done].
Qed.

(** The ports and the records that the first loop of [reconcileAPIServers]
    collects. *)
Lemma wantedAPI_spec s :
  (∀ p, p ∈ (wantedAPI d s).1.1
        ↔ ∃ id ic, currentIntercepts s !! id = Some ic ∧ servesAPI d ic
                   ∧ (agentAPIPort d (info ic)).1 = p)
  ∧ (keyed s →
     ∀ id, (wantedAPI d s).1.2 !! id
           = ic ← currentIntercepts s !! id;
             if decide (servesAPI d ic) then Some (info ic) else None).
Proof.
  unfold wantedAPI.
  destruct (wantAPI_fold (map_to_list (currentIntercepts s)) ∅ ∅ []) as (Hp & Hd & Hv).
  split.
  - intros p. rewrite Hp. split.
    + intros [?|([id ic] & Hin & ?)]; [set_solver|].
      apply elem_of_map_to_list in Hin. by exists id, ic.
    + intros (id & ic & Hic & ?). right. exists (id, ic).
      split; [by apply elem_of_map_to_list|done].
  - intros Hkeyed id.
    destruct (_ !! id) as [ii|] eqn:Hii.
    + destruct (Hv id ii Hii) as [Hm|([id' ic] & Hin & Hs & Hinfo & Hid)];
        [by rewrite lookup_empty in Hm|].
      apply elem_of_map_to_list in Hin. simpl in *.
      rewrite <-Hinfo, (Hkeyed _ _ Hin) in Hid. subst id'.
      rewrite Hin. cbn [mbind option_bind]. rewrite decide_True by done. by rewrite Hinfo.
    + destruct (currentIntercepts s !! id) as [ic|] eqn:Hic; simpl; [|done].
      destruct (decide (servesAPI d ic)) as [Hs|Hs]; [|done].
      assert (is_Some (@None InterceptInfo)) as [? ?]; [|done].
      rewrite <-Hii. apply Hd. right. exists (id, ic).
      split; [by apply elem_of_map_to_list|]. split; [done|]. by apply Hkeyed.
Qed.

Lemma ensureMatcher_fold l :
  (∀ kv, kv ∈ l → Id kv.2 = kv.1) →
  ∀ ms es,
  (∀ id am, ms !! id = Some am → (foldl (ensureMatcher d) (ms, es) l).1 !! id = Some am)
  ∧ (∀ id am, (foldl (ensureMatcher d) (ms, es) l).1 !! id = Some am →
       ms !! id = Some am
       ∨ ∃ kv, kv ∈ l ∧ kv.1 = id ∧ NewRequestFromMap d (Headers kv.2) = None
               ∧ am = {| requestMatcher := Headers kv.2; am_metadata := Metadata kv.2 |})
  ∧ (∀ kv, kv ∈ l → NewRequestFromMap d (Headers kv.2) = None →
       is_Some ((foldl (ensureMatcher d) (ms, es) l).1 !! kv.1)).
Proof.
  induction l as [|kv l IH]; intros Hkey ms es.
  { simpl. split; [done|]. split; [by left|]. intros kv Hin. by apply elem_of_nil in Hin. }
  assert (∀ kv', kv' ∈ l → Id kv'.2 = kv'.1) as Hkey' by (intros; apply Hkey; by right).
  cbn [foldl]. unfold ensureMatcher at 2 4 6.
  destruct (ms !! kv.1) as [am0|] eqn:Hkv.
  - destruct (IH Hkey' ms es) as (Hkeep & Hfrom & Hnew). split; [done|]. split.
    + intros id am Ham. destruct (Hfrom id am Ham) as [?|(kv' & Hin & ?)]; [by left|].
      right. exists kv'. split; [by right|done].
    + intros kv' Hin Hok. apply elem_of_cons in Hin as [->|Hin]; [|by apply Hnew].
      exists am0. by apply Hkeep.
  - unfold newMatcher. destruct (NewRequestFromMap d (Headers kv.2)) as [e|] eqn:Hreq.
    + destruct (IH Hkey' ms (es ++ [LogError e])) as (Hkeep & Hfrom & Hnew).
      split; [done|]. split.
      * intros id am Ham. destruct (Hfrom id am Ham) as [?|(kv' & Hin & ?)]; [by left|].
        right. exists kv'. split; [by right|done].
      * intros kv' Hin Hok. apply elem_of_cons in Hin as [->|Hin]; [congruence|].
        by apply Hnew.
    + rewrite (Hkey kv) by left.
      destruct (IH Hkey' (<[kv.1 := {| requestMatcher := Headers kv.2;
                                       am_metadata := Metadata kv.2 |}]> ms) (es ++ []))
        as (Hkeep & Hfrom & Hnew).
      split; [|split].
      * intros id am Ham. apply Hkeep. rewrite lookup_insert_ne; [done|]. congruence.
      * intros id am Ham. destruct (Hfrom id am Ham) as [Hm|(kv' & Hin & ?)].
        -- destruct (decide (kv.1 = id)) as [Heq|Hne].
           ++ rewrite <-Heq, lookup_insert_eq in Hm. injection Hm as <-.
              right. exists kv. split; [left|done].
           ++ rewrite lookup_insert_ne in Hm by done. by left.
        -- right. exists kv'. split; [by right|done].
      * intros kv' Hin Hok. apply elem_of_cons in Hin as [->|Hin]; [|by apply Hnew].
        eexists. apply Hkeep, lookup_insert_eq.
Qed.

Lemma reconcileAPIServers_servers s p :
  p ∈ currentAPIServers (reconcileAPIServers d s).1 ↔ p ∈ (wantedAPI d s).1.1.
Proof.
  unfold reconcileAPIServers.
  destruct (wantedAPI d s) as [[wantedPorts wantedMatchers] effs0].
  destruct (foldl _ _ (map_to_list wantedMatchers)) as [matchers matcherEffs]. simpl.
  rewrite elem_of_union, elem_of_difference, !elem_of_list_to_set, !list_elem_of_filter,
    !elem_of_elements, elem_of_difference, elem_of_list_to_set, list_elem_of_filter,
    elem_of_elements.
  destruct (decide (p ∈ wantedPorts)); destruct (decide (p ∈ currentAPIServers s));
    naive_solver.
Qed.

Lemma reconcileAPIServers_effects s p :
  (StopAPIServer p ∈ (reconcileAPIServers d s).2
   ↔ p ∈ currentAPIServers s ∧ p ∉ (wantedAPI d s).1.1)
  ∧ (StartAPIServer p ∈ (reconcileAPIServers d s).2
     ↔ (p ∉ currentAPIServers s) ∧ p ∈ (wantedAPI d s).1.1).
Proof.
  unfold reconcileAPIServers.
  pose proof (wantAPI_logs d (λ e, ∃ err, e = LogError err)
                (map_to_list (currentIntercepts s)) (λ e, ex_intro _ e eq_refl)
                (∅, ∅, []) (Forall_nil_2 _)) as Hw.
  fold (wantedAPI d s) in Hw.
  destruct (wantedAPI d s) as [[wantedPorts wantedMatchers] effs0].
  pose proof (matchers_log d (λ e, ∃ err, e = LogError err)
                (map_to_list wantedMatchers) (λ e, ex_intro _ e eq_refl)
                (filter (λ kv, is_Some (wantedMatchers !! kv.1)) (currentMatchers s)) []
                (Forall_nil_2 _)) as Hm.
  destruct (foldl _ _ (map_to_list wantedMatchers)) as [matchers matcherEffs]. simpl in *.
  rewrite Forall_forall in Hw, Hm.
  assert (∀ e, (∀ err, e ≠ LogError err) → (e ∉ effs0) ∧ e ∉ matcherEffs) as Hlog.
  { intros e He. split; intros Hin; [apply Hw in Hin|apply Hm in Hin];
      destruct Hin as [err ->]; by destruct (He err). }
  destruct (Hlog (StopAPIServer p)) as [Hs0 Hs1]; [done|].
  destruct (Hlog (StartAPIServer p)) as [Ht0 Ht1]; [done|].
  rewrite !elem_of_app, !list_elem_of_fmap. split.
  - split.
    + intros [?|[(q & [= <-] & Hin)|[(q & ? & _)|?]]]; try done.
      apply list_elem_of_filter in Hin as [? Hin]. by apply elem_of_elements in Hin.
    + intros [Hc Hnw]. right. left. exists p. split; [done|].
      apply list_elem_of_filter. split; [done|]. by apply elem_of_elements.
  - split.
    + intros [?|[(q & ? & _)|[(q & [= <-] & Hin)|?]]]; try done.
      apply list_elem_of_filter in Hin as [Hns Hin]. apply elem_of_elements in Hin.
      split; [|done]. intros Hc. apply Hns.
      rewrite elem_of_difference, elem_of_list_to_set, list_elem_of_filter. naive_solver.
    + intros [Hnc Hw']. right. right. left. exists p. split; [done|].
      apply list_elem_of_filter. split; [|by apply elem_of_elements].
      rewrite elem_of_difference. naive_solver.
Qed.

Lemma reconcileAPIServers_matchers s id :
  keyed s →
  currentMatchers (reconcileAPIServers d s).1 !! id
  = ic ← currentIntercepts s !! id;
    if decide (servesAPI d ic) then
      match currentMatchers s !! id with
      | Some am => Some am
      | None =>
          match NewRequestFromMap d (Headers (info ic)) with
          | Some _ => None
          | None => Some {| requestMatcher := Headers (info ic);
                            am_metadata := Metadata (info ic) |}
          end
      end
    else None.
Proof.
  intros Hkeyed. unfold reconcileAPIServers.
  pose proof (wantedAPI_spec s) as [_ Hwm]. specialize (Hwm Hkeyed).
  destruct (wantedAPI d s) as [[wantedPorts wantedMatchers] effs0]. simpl in Hwm.
  assert (∀ kv, kv ∈ map_to_list wantedMatchers → Id kv.2 = kv.1) as Hkey.
  { intros [id' ii] Hin. apply elem_of_map_to_list in Hin. rewrite Hwm in Hin. simpl.
    destruct (currentIntercepts s !! id') as [ic|] eqn:Hic; simpl in Hin; [|done].
    destruct (decide (servesAPI d ic)); [|done]. injection Hin as <-. by apply Hkeyed. }
  destruct (ensureMatcher_fold (map_to_list wantedMatchers) Hkey
              (filter (λ kv, is_Some (wantedMatchers !! kv.1)) (currentMatchers s)) [])
    as (Hkeep & Hfrom & Hnew).
  destruct (foldl _ _ (map_to_list wantedMatchers)) as [matchers matcherEffs]. simpl in *.
  assert (wantedMatchers !! id = None → matchers !! id = None) as Hunwanted.
  { intros Hnone. apply eq_None_not_Some. intros [am Ham].
    destruct (Hfrom id am Ham) as [Hm|([id' ii] & Hin & Hid & _)].
    - apply map_lookup_filter_Some in Hm as [_ [? Hsome]]. simpl in Hsome. congruence.
    - apply elem_of_map_to_list in Hin. simpl in Hid. congruence. }
  specialize (Hwm id).
  destruct (currentIntercepts s !! id) as [ic|] eqn:Hic; simpl in *; [|by apply Hunwanted].
  destruct (decide (servesAPI d ic)) as [Hs|Hs]; [|by apply Hunwanted].
  destruct (currentMatchers s !! id) as [am|] eqn:Hcm.
  { apply Hkeep, map_lookup_filter_Some. split; [done|]. simpl. by rewrite Hwm. }
  assert (∀ am, matchers !! id = Some am →
            NewRequestFromMap d (Headers (info ic)) = None
            ∧ am = {| requestMatcher := Headers (info ic);
                      am_metadata := Metadata (info ic) |}) as Hnewonly.
  { intros am Ham. destruct (Hfrom id am Ham) as [Hm|([id' ii] & Hin & Hid & Hreq & ->)].
    - apply map_lookup_filter_Some in Hm as [Hm _]. congruence.
    - apply elem_of_map_to_list in Hin. simpl in *. subst id'.
      rewrite Hwm in Hin. by injection Hin as <-. }
  destruct (NewRequestFromMap d (Headers (info ic))) as [e|] eqn:Hreq.
  - apply eq_None_not_Some. intros [am Ham]. by destruct (Hnewonly am Ham).
  - destruct (Hnew (id, info ic)) as [am Ham]; [by apply elem_of_map_to_list|done|].
    simpl in Ham. rewrite Ham. by destruct (Hnewonly am Ham) as [_ ->].
Qed.

End Servers.

(** X17. After [reconcileAPIServers], the API servers of the session are
    on exactly the ports, above zero, that the environment of an [ACTIVE]
    intercept of the current set names. The servers that it stops are the
    ones that were running and are no longer wanted, and the ones that it
    starts are the ones that are wanted and were not running. *)
Theorem api_servers_follow_intercepts (d : Collaborators) (s : session) (p : Z) :
  (p ∈ currentAPIServers (reconcileAPIServers d s).1
   ↔ ∃ id ic, currentIntercepts s !! id = Some ic ∧ servesAPI d ic
              ∧ (agentAPIPort d (info ic)).1 = p)
  ∧ (StopAPIServer p ∈ (reconcileAPIServers d s).2
     ↔ p ∈ currentAPIServers s ∧ p ∉ currentAPIServers (reconcileAPIServers d s).1)
  ∧ (StartAPIServer p ∈ (reconcileAPIServers d s).2
     ↔ (p ∉ currentAPIServers s) ∧ p ∈ currentAPIServers (reconcileAPIServers d s).1).
Proof.
  pose proof (wantedAPI_spec d s) as [Hports _].
  pose proof (reconcileAPIServers_effects d s p) as [Hstop Hstart].
  rewrite reconcileAPIServers_servers, Hstop, Hstart. by rewrite Hports.
Qed.

(** X18. After [reconcileAPIServers], in a session whose intercepts are
    stored under their IDs, the matcher registered for an ID is: the
    matcher that was registered for it before, when its intercept is
    [ACTIVE] with an API port, even if the headers of the intercept have
    changed since; else one built from the headers and metadata of that
    intercept, unless the headers do not compile; and none when the ID is
    not the ID of an [ACTIVE] intercept with an API port. *)
Theorem api_matchers_follow_intercepts (d : Collaborators) (s : session) (id : string) :
  keyed s →
  currentMatchers (reconcileAPIServers d s).1 !! id
  = ic ← currentIntercepts s !! id;
    if decide (servesAPI d ic) then
      match currentMatchers s !! id with
      | Some am => Some am
      | None =>
          match NewRequestFromMap d (Headers (info ic)) with
          | Some _ => None
          | None => Some {| requestMatcher := Headers (info ic);
                            am_metadata := Metadata (info ic) |}
          end
      end
    else None.
Proof. apply reconcileAPIServers_matchers. Qed.

(** An active intercept with an API port and no matcher yet gets one for
    its headers and metadata. *)
Lemma api_matchers_witness :
  let ic := sampleIntercept
              {| Id := "id-a"; Spec := sampleSpec "a" "127.0.0.1" 9090;
                 Disposition_ := ACTIVE; Message := ""; PodIp := "10.0.0.7";
                 SftpPort := 0; FtpPort := 0; MountPoint := "/"; ClientMountPoint := "";
                 Environment := {[ "TELEPRESENCE_API_PORT" := "8080" ]};
                 Headers := {[ "x-user" := "a" ]}; Metadata := {[ "owner" := "a" ]} |} 1 in
  currentMatchers (reconcileAPIServers sampleCollaborators
                     (sampleSession {[ "id-a" := ic ]})).1 !! "id-a"
  = Some {| requestMatcher := {[ "x-user" := "a" ]}; am_metadata := {[ "owner" := "a" ]} |}.
Proof.
  intros ic.
  etrans; [apply (api_matchers_follow_intercepts sampleCollaborators
                    (sampleSession {[ "id-a" := ic ]}) "id-a")|reflexivity].
  intros id ic' Hic. simpl in Hic. by apply lookup_singleton_Some in Hic as [<- <-].
Defined.

Section Queries.
Variable d : Collaborators.

(** What a pass over a snapshot leaves in the session. *)
Lemma snapshot_unfold s iis s' effs :
  handleInterceptSnapshot d s iis = Some (s', effs) →
  ∃ m n e, foldl (adopt s) (∅, nextScope s, []) iis = (m, n, e)
           ∧ currentIntercepts s' = m
           ∧ keyed (setIntercepts m n s)
           ∧ currentMatchers s'
             = currentMatchers (reconcileAPIServers d (setIntercepts m n s)).1.
Proof.
  unfold handleInterceptSnapshot, setCurrentIntercepts.
  destruct (foldl (adopt s) (∅, nextScope s, []) iis) as [[m n] e] eqn:Hfold.
  destruct (reconcileAPIServers d _) as [s1 apiEffs] eqn:Hr.
  destruct (notifyAll s1 iis) as [[s2 effs2]|] eqn:Hna; simpl; [|done].
  intros [= <- <-]. exists m, n, e.
  apply notifyAll_frame in Hna as (_ & _ & -> & -> & _).
  pose proof (reconcileAPIServers_spec _ _ _ _ Hr) as (-> & _).
  rewrite Hr. split; [done|]. split; [done|]. split; [|done].
  intros id ic Hic. simpl in Hic.
  destruct (adopt_fold_values _ _ _ _ _ _ _ _ Hfold id ic Hic)
    as [Hempty|(ii & cmp & Hin & Hid & Hinfo)]; [by rewrite lookup_empty in Hempty|].
  by rewrite Hinfo, <-Hid; destruct ii.
Qed.

Lemma servesAPI_info ic ic' :
  Disposition_ (info ic) = Disposition_ (info ic') →
  Environment (info ic) = Environment (info ic') →
  servesAPI d ic ↔ servesAPI d ic'.
Proof. unfold servesAPI, agentAPIPort. by intros -> ->. Qed.

End Queries.

(** X19. Once a snapshot has been handled, a caller whose ID is not that
    of a record that the snapshot reports [ACTIVE] is told that its request
    is not intercepted, whatever matcher was registered for it before. *)
Theorem inactive_caller_not_intercepted (d : Collaborators) (s s' : session)
    (iis : list InterceptInfo) (effs : list effect) (callerID path : string)
    (headers : gmap string (list string)) :
  handleInterceptSnapshot d s iis = Some (s', effs) →
  (∀ ii, ii ∈ iis → Id ii = callerID → Disposition_ ii ≠ ACTIVE) →
  InterceptInfo_ d s' callerID path headers
  = (Some {| Intercepted := false; ClientSide := true; rest_Metadata := None |}, None).
Proof.
  intros Hrun Hinactive.
  destruct (snapshot_unfold _ _ _ _ _ Hrun) as (m & n & e & Hfold & _ & Hkeyed & Hcm).
  unfold InterceptInfo_. rewrite Hcm, (reconcileAPIServers_matchers d _ callerID Hkeyed).
  simpl. destruct (m !! callerID) as [ic|] eqn:Hic; simpl; [|done].
  rewrite decide_False; [done|]. intros [Hactive _].
  destruct (adopt_fold_values _ _ _ _ _ _ _ _ Hfold callerID ic Hic)
    as [Hempty|(ii & cmp & Hin & Hid & Hinfo)]; [by rewrite lookup_empty in Hempty|].
  apply (Hinactive ii Hin Hid). by rewrite Hinfo in Hactive.
Qed.

(** A matcher is registered for intercept [a]; the next snapshot reports
    the intercept as waiting, and its caller is no longer intercepted. *)
Lemma inactive_caller_witness :
  let s := setAPI {[8080%Z]}
             {[ "id-a" := {| requestMatcher := ∅; am_metadata := ∅ |} ]}
             (sampleSession {[ "id-a" := interceptA ]}) in
  ∃ s' effs,
    handleInterceptSnapshot sampleCollaborators s [sampleInfo "id-a" "a" WAITING]
      = Some (s', effs)
    ∧ InterceptInfo_ sampleCollaborators s "id-a" "/" ∅
      = (Some {| Intercepted := true; ClientSide := true; rest_Metadata := Some ∅ |}, None)
    ∧ InterceptInfo_ sampleCollaborators s' "id-a" "/" ∅
      = (Some {| Intercepted := false; ClientSide := true; rest_Metadata := None |}, None).
Proof.
  intros s.
  destruct (handleInterceptSnapshot sampleCollaborators s [sampleInfo "id-a" "a" WAITING])
    as [[s' effs]|] eqn:Hrun; [|by vm_compute in Hrun].
  exists s', effs. split; [done|]. split; [reflexivity|].
  apply (inactive_caller_not_intercepted _ _ _ _ _ _ _ _ Hrun).
  intros ii Hin _. apply list_elem_of_singleton in Hin as ->. discriminate.
Defined.

(** X20. Once a snapshot whose records have distinct IDs has been handled,
    the caller whose ID is that of an [ACTIVE] record with an API port is
    answered from the matcher of that ID: the one that was registered
    before the snapshot, if there was one, and otherwise one for the
    headers and metadata of the record, which must compile. Its request is
    reported intercepted exactly when that matcher matches the path and
    headers, and then with the metadata of the matcher. *)
Theorem active_caller_answered (d : Collaborators) (s s' : session)
    (iis : list InterceptInfo) (effs : list effect) (ii : InterceptInfo) (path : string)
    (headers : gmap string (list string)) :
  handleInterceptSnapshot d s iis = Some (s', effs) →
  NoDup (Id <$> iis) →
  ii ∈ iis →
  Disposition_ ii = ACTIVE →
  (0 < (agentAPIPort d ii).1)%Z →
  (currentMatchers s !! Id ii = None → NewRequestFromMap d (Headers ii) = None) →
  let am := default {| requestMatcher := Headers ii; am_metadata := Metadata ii |}
                    (currentMatchers s !! Id ii) in
  InterceptInfo_ d s' (Id ii) path headers
  = (Some (if Matches d (requestMatcher am) path headers
           then {| Intercepted := true; ClientSide := true;
                   rest_Metadata := Some (am_metadata am) |}
           else {| Intercepted := false; ClientSide := true; rest_Metadata := None |}),
     None).
Proof.
  intros Hrun Hnd Hin Hactive Hport Hcompiles am.
  destruct (snapshot_unfold _ _ _ _ _ Hrun) as (m & n & e & Hfold & _ & Hkeyed & Hcm).
  assert (∃ ic cmp, m !! Id ii = Some ic ∧ info ic = setClientMountPoint cmp ii)
    as (ic & cmp & Hic & Hinfo).
  { pose proof (adopt_fold_entry _ _ _ _ _ _ _ _ Hfold Hnd ii Hin) as Hentry.
    destruct (currentIntercepts s !! Id ii) as [old|]; [by eexists _, _|].
    destruct Hentry as (ic & Hic & _ & _ & _ & Hrest). exists ic.
    destruct (interceptWaiters s !! Name (Spec ii)) as [aw|].
    - destruct Hrest as (-> & _). by eexists.
    - destruct Hrest as (-> & _). exists (ClientMountPoint ii). by destruct ii. }
  assert (currentMatchers s' !! Id ii = Some am) as Ham.
  { rewrite Hcm, (reconcileAPIServers_matchers d _ (Id ii) Hkeyed). simpl. rewrite Hic. simpl.
    rewrite decide_True by (unfold servesAPI; by rewrite Hinfo).
    unfold am. destruct (currentMatchers s !! Id ii) as [am0|]; [done|]. simpl.
    rewrite Hinfo. simpl. by rewrite Hcompiles. }
  unfold InterceptInfo_. rewrite Ham. by destruct (Matches d _ _ _).
Qed.

(** Intercept [a] becomes active with an API port and no header rules: its
    caller is intercepted on every path. *)
Lemma active_caller_witness :
  let ii := {| Id := "id-a"; Spec := sampleSpec "a" "127.0.0.1" 9090;
               Disposition_ := ACTIVE; Message := ""; PodIp := "10.0.0.7";
               SftpPort := 0; FtpPort := 0; MountPoint := "/"; ClientMountPoint := "";
               Environment := {[ "TELEPRESENCE_API_PORT" := "8080" ]};
               Headers := ∅; Metadata := {[ "owner" := "a" ]} |} in
  ∃ s' effs,
    handleInterceptSnapshot sampleCollaborators (sampleSession ∅) [ii] = Some (s', effs)
    ∧ InterceptInfo_ sampleCollaborators s' "id-a" "/" ∅
      = (Some {| Intercepted := true; ClientSide := true;
                 rest_Metadata := Some {[ "owner" := "a" ]} |}, None).
Proof.
  intros ii.
  destruct (handleInterceptSnapshot sampleCollaborators (sampleSession ∅) [ii])
    as [[s' effs]|] eqn:Hrun; [|by vm_compute in Hrun].
  exists s', effs. split; [done|].
  etrans; [apply (active_caller_answered _ _ _ _ _ ii "/" ∅ Hrun)|reflexivity].
  - repeat constructor. apply not_elem_of_nil.
  - left.
  - reflexivity.
  - reflexivity.
  - reflexivity.
Defined.

Section Calls.
Variable d : Collaborators.

Lemma CanIntercept_effects s ir prepare e :
  e ∈ (CanIntercept d s ir prepare).2 → ∃ c name, e = ManagerPrepareIntercept c name.
Proof.
  unfold CanIntercept. intros Hin.
  repeat case_match; simpl in Hin;
    try (by apply elem_of_nil in Hin);
    apply list_elem_of_singleton in Hin as ->; by eexists _, _.
Qed.

Lemma removeFailed_effects s c success ii reply e :
  e ∈ removeFailed d s c success ii reply →
  (∀ name ch, e ≠ RegisterWaiter name ch) ∧ (∀ ch, e ≠ CloseChannel ch).
Proof.
  unfold removeFailed, RemoveIntercept, removeIntercept, stopHandler. intros Hin.
  repeat case_match; simplify_eq; set_solver.
Qed.

Lemma unregisterWaiter_effects s name ch e :
  e ∈ (unregisterWaiter s name ch).2 → e = CloseChannel ch.
Proof.
  unfold unregisterWaiter. destruct (interceptWaiters s !! name); simpl.
  - by intros ->%list_elem_of_singleton.
  - by intros ?%elem_of_nil.
Qed.

End Calls.

(** X21. [RemoveIntercept] removes an intercept that has the name given:
    it does to it what [removeIntercept] does and returns the reply of the
    manager. When no current intercept has the name, it does nothing and
    reports no error, and the manager is not asked. *)
Theorem RemoveIntercept_by_name (d : Collaborators) (s : session) (c : context)
    (name : string) (reply : option error) :
  (RemoveIntercept d s c name reply = (None, [])
   ∧ ∀ id ic, currentIntercepts s !! id = Some ic → Name (Spec (info ic)) ≠ name)
  ∨ (∃ id ic, currentIntercepts s !! id = Some ic
              ∧ Name (Spec (info ic)) = name
              ∧ RemoveIntercept d s c name reply = removeIntercept d c ic reply).
Proof.
  unfold RemoveIntercept, getInterceptByName, firstNamed.
  destruct (list_find _ _) as [[i ic]|] eqn:Hfind; simpl.
  - right. apply list_find_Some in Hfind as (Hi & Hname & _).
    apply list_elem_of_lookup_2, list_elem_of_fmap in Hi as ([id ic'] & -> & Hin).
    apply elem_of_map_to_list in Hin. by exists id, ic'.
  - left. split; [done|]. intros id ic Hic.
    apply list_find_None in Hfind. rewrite Forall_forall in Hfind.
    apply Hfind, list_elem_of_fmap. exists (id, ic). split; [done|].
    by apply elem_of_map_to_list.
Qed.

(** X22. When the creation call returns, the waiter that it registered is
    gone from the registry, whether the snapshot loop or the call itself
    took it out; the only channel that the call closes is the one of that
    waiter; and a call that registers no waiter leaves the session as it
    was. *)
Theorem AddIntercept_takes_waiter_back (d : Collaborators) (s s' : session)
    (ir : CreateInterceptRequest) (prepare : error + PreparedIntercept)
    (create : error + InterceptInfo) (cases : list selectCase)
    (during : session → session) (remove : option error) (r : InterceptResult)
    (effs : list effect) :
  AddIntercept d s ir prepare create cases during remove = Some (r, s', effs) →
  (∀ name ch, RegisterWaiter name ch ∈ effs →
     interceptWaiters s' !! name = None ∧ ∀ ch', CloseChannel ch' ∈ effs → ch' = ch)
  ∧ ((∀ name ch, RegisterWaiter name ch ∉ effs) → s' = s).
Proof.
  unfold AddIntercept.
  pose proof (CanIntercept_effects d s ir prepare) as Hcan.
  destruct (CanIntercept d s ir prepare) as [[[iInfo result] ir'] effs0]. simpl in Hcan.
  assert (∀ s0, Some (r, s', effs) = Some (r, s0, effs0) →
            (∀ name ch, RegisterWaiter name ch ∈ effs →
               interceptWaiters s' !! name = None
               ∧ ∀ ch', CloseChannel ch' ∈ effs → ch' = ch)
            ∧ ((∀ name ch, RegisterWaiter name ch ∉ effs) → s' = s0)) as Hearly.
  { intros s0 [= -> ->]. split; [|done].
    intros name ch Hin. by destruct (Hcan _ Hin) as (? & ? & ?). }
  destruct result as [r0|]. { intros [= <- <- <-]. by apply Hearly. }
  destruct iInfo as [pi|]; [|intros [= <- <- <-]; by apply Hearly].
  destruct (qualifySpec d s pi (req_Spec ir')) as [err|spec];
    [intros [= <- <- <-]; by apply Hearly|].
  destruct (registerWaiter s (Name spec) (setSpec spec ir')) as [s1 ch]. clear Hearly.
  assert (∀ s2 s3 failed closing,
            unregisterWaiter s2 (Name spec) ch = (s3, closing) →
            (∀ e, e ∈ failed → (∀ name ch, e ≠ RegisterWaiter name ch)
                               ∧ (∀ ch, e ≠ CloseChannel ch)) →
            (∀ name ch0,
               RegisterWaiter name ch0
                 ∈ (effs0 ++ [RegisterWaiter (Name spec) ch;
                              ManagerCreateIntercept (WithTimeout Caller (TimeoutIntercept d))
                                (Name spec)]) ++ failed ++ closing →
               interceptWaiters s3 !! name = None
               ∧ ∀ ch', CloseChannel ch'
                          ∈ (effs0 ++ [RegisterWaiter (Name spec) ch;
                                       ManagerCreateIntercept
                                         (WithTimeout Caller (TimeoutIntercept d))
                                         (Name spec)]) ++ failed ++ closing →
                        ch' = ch0)
            ∧ ((∀ name ch0,
                  RegisterWaiter name ch0
                    ∉ (effs0 ++ [RegisterWaiter (Name spec) ch;
                                 ManagerCreateIntercept
                                   (WithTimeout Caller (TimeoutIntercept d))
                                   (Name spec)]) ++ failed ++ closing) →
               s3 = s)) as Hlate.
  { intros s2 s3 failed closing Hun Hfailed.
    pose proof (unregisterWaiter_gone _ _ _ _ _ Hun) as Hgone.
    pose proof (unregisterWaiter_effects s2 (Name spec) ch) as Hclose.
    rewrite Hun in Hclose. simpl in Hclose. split.
    - intros name ch0. rewrite !elem_of_app, !elem_of_cons, elem_of_nil.
      intros [[Hin|[[= -> ->]|[?|[]]]]|[Hin|Hin]]; try done.
      + by destruct (Hcan _ Hin) as (? & ? & ?).
      + split; [done|]. intros ch'. rewrite !elem_of_app, !elem_of_cons, elem_of_nil.
        intros [[Hin|[?|[?|[]]]]|[Hin|Hin]]; try done.
        * by destruct (Hcan _ Hin) as (? & ? & ?).
        * by destruct (Hfailed _ Hin) as [_ Hne]; destruct (Hne ch').
        * by apply Hclose in Hin as [= ->].
      + by destruct (Hfailed _ Hin) as [Hne _]; destruct (Hne name ch0).
      + by apply Hclose in Hin.
    - intros Hnone. destruct (Hnone (Name spec) ch).
      apply elem_of_app. left. apply elem_of_app. right. left. }
  destruct create as [err|ii].
  - destruct (unregisterWaiter _ _ _) as [s2 effs2] eqn:Hun.
    intros [= <- <- <-]. apply (Hlate _ _ [] _ Hun). by intros e ?%elem_of_nil.
  - unfold awaitAndCleanUp.
    destruct (awaitActive _ _ _ _ _ _) as [[[r1 success] ii']|]; simpl; [|done].
    destruct (unregisterWaiter _ _ _) as [s3 effs3] eqn:Hun. simpl.
    intros [= <- <- <-]. apply (Hlate _ _ _ _ Hun).
    intros e Hin. by eapply removeFailed_effects.
Qed.

(** A creation call whose intercept the next snapshot reports active: the
    snapshot loop takes the waiter, and none is left when the call
    returns. *)
Lemma AddIntercept_takes_waiter_back_witness :
  let pi := {| pi_Error := ""; pi_ErrorCategory := CatUnknown; pi_ServiceUid := "uid-1";
               pi_ServiceName := "echo"; pi_ServicePortName := "http"; pi_ServicePort := 80;
               pi_Protocol := "TCP"; pi_ContainerPort := 8080;
               pi_WorkloadKind := "Deployment" |} in
  let during := λ s1, match handleInterceptSnapshot sampleCollaborators s1
                              [sampleInfo "id-1" "echo" ACTIVE] with
                      | Some (s2, _) => s2
                      | None => s1
                      end in
  ∃ r s' effs,
    AddIntercept sampleCollaborators (sampleSession ∅)
      (sampleRequest (sampleSpec "echo" "127.0.0.1" 8080)) (inr pi)
      (inr (sampleInfo "id-1" "echo" WAITING))
      [WaitChRecv (activeResult "echo"); MountsAreDone] during None = Some (r, s', effs)
    ∧ RegisterWaiter "echo" 0 ∈ effs
    ∧ interceptWaiters s' !! "echo" = None.
Proof.
  intros pi during.
  destruct (AddIntercept sampleCollaborators (sampleSession ∅)
              (sampleRequest (sampleSpec "echo" "127.0.0.1" 8080)) (inr pi)
              (inr (sampleInfo "id-1" "echo" WAITING))
              [WaitChRecv (activeResult "echo"); MountsAreDone] during None)
    as [[[r s'] effs]|] eqn:Hrun; [|by vm_compute in Hrun].
  assert (RegisterWaiter "echo" 0 ∈ effs) as Hreg.
  { pose proof Hrun as Hrun'. vm_compute in Hrun'. injection Hrun' as _ _ <-.
    right. left. }
  exists r, s', effs. split; [done|]. split; [done|].
  by destruct (AddIntercept_takes_waiter_back _ _ _ _ _ _ _ _ _ _ _ Hrun) as [H _];
    destruct (H "echo" 0 Hreg).
Defined.

End TrafficMgrMore.

Module TrafficMgrHandlersMore.
Import Errcat TrafficMgr TrafficMgrHandlers TrafficMgrFacts TrafficMgrMore.

Lemma getInterceptByName_findByName s name :
  getInterceptByName s name = snd <$> findByName s name.
Proof.
  unfold getInterceptByName, firstNamed, findByName. rewrite list_find_fmap.
  by destruct (list_find _ _) as [[i [id ic]]|].
Qed.

(** When one intercept only has the name, the search finds it. *)
Lemma findByName_unique s name id ic :
  currentIntercepts s !! id = Some ic →
  Name (Spec (info ic)) = name →
  (∀ id' ic', currentIntercepts s !! id' = Some ic' → Name (Spec (info ic')) = name →
     id' = id) →
  findByName s name = Some (id, ic).
Proof.
  intros Hic Hname Hunique. unfold findByName.
  destruct (list_find _ _) as [[i [id' ic']]|] eqn:Hfind; simpl.
  - apply list_find_Some in Hfind as (Hi & Hname' & _).
    apply list_elem_of_lookup_2, elem_of_map_to_list in Hi. simpl in Hname'.
    pose proof (Hunique _ _ Hi Hname') as ->. congruence.
  - apply list_find_None in Hfind. rewrite Forall_forall in Hfind.
    destruct (Hfind (id, ic)); [by apply elem_of_map_to_list|done].
Qed.

Section Handlers.
Variable d : Collaborators.

Lemma snapshot_entry_known s iis s' effs ii old :
  handleInterceptSnapshot d s iis = Some (s', effs) →
  NoDup (Id <$> iis) →
  ii ∈ iis →
  currentIntercepts s !! Id ii = Some old →
  currentIntercepts s' !! Id ii
  = Some (set_info (setClientMountPoint (ClientMountPoint (info old)) ii) old).
Proof.
  intros Hrun Hnd Hin Hold.
  destruct (snapshot_unfold _ _ _ _ _ Hrun) as (m & n & e & Hfold & -> & _).
  pose proof (adopt_fold_entry _ _ _ _ _ _ _ _ Hfold Hnd ii Hin) as Hentry.
  by rewrite Hold in Hentry.
Qed.

Lemma snapshot_specs s iis s' effs id ic :
  handleInterceptSnapshot d s iis = Some (s', effs) →
  currentIntercepts s' !! id = Some ic →
  ∃ ii, ii ∈ iis ∧ Id ii = id ∧ Spec (info ic) = Spec ii.
Proof.
  intros Hrun Hic.
  destruct (snapshot_unfold _ _ _ _ _ Hrun) as (m & n & e & Hfold & Hm & _).
  rewrite Hm in Hic.
  destruct (adopt_fold_values _ _ _ _ _ _ _ _ Hfold id ic Hic)
    as [Hempty|(ii & cmp & Hin & Hid & Hinfo)]; [by rewrite lookup_empty in Hempty|].
  exists ii. by rewrite Hinfo.
Qed.

Lemma clearIntercepts_spec c reply ics :
  match clearIntercepts d c reply ics with
  | (Some e, effs) =>
      ∃ pre ic post,
        ics = pre ++ ic :: post
        ∧ reply ic = Some e ∧ notNotFound e = true
        ∧ Forall (λ ic', ∀ e', reply ic' = Some e' → notNotFound e' = false) pre
        ∧ effs = mjoin ((λ ic', (removeIntercept d c ic' (reply ic')).2) <$> pre ++ [ic])
  | (None, effs) =>
      Forall (λ ic', ∀ e', reply ic' = Some e' → notNotFound e' = false) ics
      ∧ effs = mjoin ((λ ic', (removeIntercept d c ic' (reply ic')).2) <$> ics)
  end.
Proof.
  induction ics as [|ic ics IH]; [done|]. cbn [clearIntercepts].
  unfold removeIntercept at 1.
  destruct (reply ic) as [e|] eqn:Hreply; [destruct (notNotFound e) eqn:Hnf|].
  - exists [], ic, ics. repeat (split; [done|]). simpl. by rewrite app_nil_r.
  - destruct (clearIntercepts d c reply ics) as [[e'|] effs'].
    + destruct IH as (pre & ic' & post & -> & Hr & Hnf' & Hpre & ->).
      exists (ic :: pre), ic', post. repeat (split; [done|]). split.
      * constructor; [|done]. intros e0 He0. congruence.
      * done.
    + destruct IH as [Hall ->]. split.
      * constructor; [|done]. intros e0 He0. congruence.
      * done.
  - destruct (clearIntercepts d c reply ics) as [[e'|] effs'].
    + destruct IH as (pre & ic' & post & -> & Hr & Hnf' & Hpre & ->).
      exists (ic :: pre), ic', post. repeat (split; [done|]). split.
      * constructor; [|done]. intros e0 He0. congruence.
      * done.
    + destruct IH as [Hall ->]. split.
      * constructor; [|done]. intros e0 He0. congruence.
      * done.
Qed.

End Handlers.

(** X23. The handler that [AddInterceptor] registers for a current
    intercept is the one that is stopped when the intercept is removed by
    name later on, also after a snapshot has replaced the record of the
    intercept: the removal stops that process or container, cancels and
    awaits the scope that the intercept had from the start, and only then
    asks the manager. The snapshot must have distinct IDs and give the name
    to no other intercept. *)
Theorem registered_handler_is_stopped (d : Collaborators) (show : Interceptor → string)
    (s s1 s2 : session) (ingests ingests1 : gmap (string * string) ingest)
    (ih : Interceptor) (iis : list InterceptInfo) (ii : InterceptInfo) (ic : intercept)
    (effs1 effs2 : list effect) (c : context) (reply : option error) :
  currentIntercepts s !! Id ii = Some ic →
  AddInterceptor show s ingests (Id ii) ih = (s1, ingests1, effs1) →
  handleInterceptSnapshot d s1 iis = Some (s2, effs2) →
  NoDup (Id <$> iis) →
  ii ∈ iis →
  (∀ ii', ii' ∈ iis → Name (Spec ii') = Name (Spec ii) → Id ii' = Id ii) →
  effs1 = [] ∧ ingests1 = ingests
  ∧ RemoveIntercept d s2 c (Name (Spec ii)) reply
    = (reply,
       stopHandler d (Name (Spec ii)) (ih_ContainerName ih) (ih_Pid ih)
       ++ [CancelScope (scope ic); AwaitScope (scope ic);
           ManagerRemoveIntercept (WithTimeout c (TimeoutTrafficManagerAPI d))
             (Name (Spec ii))]).
Proof.
  intros Hic Hadd Hrun Hnd Hin Hunique. unfold AddInterceptor in Hadd.
  rewrite Hic in Hadd. injection Hadd as <- <- <-. split; [done|]. split; [done|].
  pose proof (snapshot_entry_known d _ _ _ _ ii _ Hrun Hnd Hin (lookup_insert_eq _ _ _))
    as Hentry.
  unfold RemoveIntercept. rewrite getInterceptByName_findByName.
  rewrite (findByName_unique s2 (Name (Spec ii)) _ _ Hentry eq_refl); [done|].
  intros id' ic' Hic' Hname.
  destruct (snapshot_specs d _ _ _ _ _ _ Hrun Hic') as (ii' & Hin' & <- & Hspec).
  apply Hunique; [done|]. by rewrite <-Hspec.
Qed.

(** The handler of intercept [a] is process 4711; after the snapshot that
    reports [a] active, the removal of [a] stops that process. *)
Lemma registered_handler_witness :
  let ih := {| ih_Pid := 4711; ih_ContainerName := "" |} in
  ∃ s1 s2 effs2,
    handleInterceptSnapshot sampleCollaborators s1 [info interceptA] = Some (s2, effs2)
    ∧ RemoveIntercept sampleCollaborators s2 Caller "a" None
      = (None, [StopHandler "a" "" 4711; CancelScope 1; AwaitScope 1;
                ManagerRemoveIntercept (WithTimeout Caller (15 * Second)) "a"]).
Proof.
  intros ih.
  destruct (AddInterceptor (λ _, "") (sampleSession {[ "id-a" := interceptA ]}) ∅ "id-a" ih)
    as [[s1 ingests1] effs1] eqn:Hadd.
  destruct (handleInterceptSnapshot sampleCollaborators s1 [info interceptA])
    as [[s2 effs2]|] eqn:Hrun;
    [|vm_compute in Hadd; injection Hadd as <- _ _; by vm_compute in Hrun].
  exists s1, s2, effs2. split; [done|].
  refine (proj2 (proj2 (registered_handler_is_stopped sampleCollaborators _ _ _ _ _ _ ih
                          [info interceptA] (info interceptA) interceptA _ _ Caller None
                          _ Hadd Hrun _ _ _))).
  - reflexivity.
  - repeat constructor. apply not_elem_of_nil.
  - left.
  - by intros ii' ->%list_elem_of_singleton.
Defined.

(** X24. [GetInterceptInfo] writes the name of the handler container into
    the environment of the record that the session holds, and returns that
    record. The entry outlives the handler: with one intercept of the name,
    after [RemoveInterceptor] has cleared the handler of the intercept, the
    next call still returns the record with the name of the container. *)
Theorem GetInterceptInfo_keeps_container_entry (s : session)
    (ingests : gmap (string * string) ingest) (id : string) (ic : intercept) :
  currentIntercepts s !! id = Some ic →
  handlerContainer ic ≠ "" →
  (∀ id' ic', currentIntercepts s !! id' = Some ic' →
     Name (Spec (info ic')) = Name (Spec (info ic)) → id' = id) →
  let name := Name (Spec (info ic)) in
  let reported :=
    setEnvironment (<[HandlerContainerEnv := handlerContainer ic]> (Environment (info ic)))
      (info ic) in
  let s1 := (GetInterceptInfo s name).2 in
  let s2 := (RemoveInterceptor s1 ingests id).1 in
  (GetInterceptInfo s name).1 = Some reported
  ∧ (handlerContainer <$> currentIntercepts s2 !! id) = Some ""
  ∧ (GetInterceptInfo s2 name).1 = Some reported.
Proof.
  intros Hic Hcontainer Hunique name reported s1 s2.
  assert (GetInterceptInfo s name
          = (Some reported, setEntry id (set_info reported ic) s)) as Hget.
  { unfold GetInterceptInfo. rewrite (findByName_unique s name id ic Hic eq_refl Hunique).
    by rewrite bool_decide_eq_false_2. }
  assert (s2 = setEntry id (setHandler 0 "" (set_info reported ic)) s1) as Hs2.
  { unfold s2, RemoveInterceptor, s1. rewrite Hget. simpl. by rewrite lookup_insert_eq. }
  split; [by rewrite Hget|]. split.
  { rewrite Hs2. simpl. by rewrite lookup_insert_eq. }
  unfold GetInterceptInfo.
  rewrite (findByName_unique s2 name id (setHandler 0 "" (set_info reported ic))).
  - done.
  - rewrite Hs2. simpl. by rewrite lookup_insert_eq.
  - done.
  - intros id' ic' Hic' Hname. rewrite Hs2 in Hic'. unfold s1 in Hic'. rewrite Hget in Hic'.
    simpl in Hic'. destruct (decide (id = id')) as [->|Hne]; [done|].
    rewrite !lookup_insert_ne in Hic' by done. by eapply Hunique.
Qed.

(** Intercept [a] runs its handler in a container: the record returned
    names the container, before and after the handler is cleared. *)
Lemma GetInterceptInfo_witness :
  let ic := setHandler 0 "handler-a" interceptA in
  let s := sampleSession {[ "id-a" := ic ]} in
  (Environment <$> (GetInterceptInfo s "a").1)
  = Some {[ "TELEPRESENCE_HANDLER_CONTAINER_NAME" := "handler-a" ]}
  ∧ (Environment <$> (GetInterceptInfo
                        (RemoveInterceptor (GetInterceptInfo s "a").2 ∅ "id-a").1 "a").1)
    = Some {[ "TELEPRESENCE_HANDLER_CONTAINER_NAME" := "handler-a" ]}.
Proof.
  intros ic s.
  destruct (GetInterceptInfo_keeps_container_entry s ∅ "id-a" ic) as (H1 & _ & H2).
  - reflexivity.
  - discriminate.
  - intros id' ic' Hic' _. unfold s in Hic'. simpl in Hic'.
    apply lookup_singleton_Some in Hic' as [<- _]. done.
  - split; [exact (f_equal (fmap Environment) H1)|exact (f_equal (fmap Environment) H2)].
Defined.


(** X26. [ClearIngestsAndIntercepts] removes the intercepts in the order
    of the slice and gives up at the first removal that the manager fails
    with anything but [NotFound]: it returns that error, the intercepts
    after it are left alone and no handler of an ingest is stopped. When no
    removal fails that way, every intercept is removed, then the handler of
    every ingest is stopped, and the result is nil. *)
Theorem ClearIngestsAndIntercepts_stops_at_failure (d : Collaborators) (c : context)
    (reply : intercept → option error) (ics : list intercept)
    (ingests : list (string * string * ingest)) :
  match ClearIngestsAndIntercepts d c reply ics ingests with
  | (Some e, effs) =>
      ∃ pre ic post,
        ics = pre ++ ic :: post
        ∧ reply ic = Some e ∧ notNotFound e = true
        ∧ Forall (λ ic', ∀ e', reply ic' = Some e' → notNotFound e' = false) pre
        ∧ effs = mjoin ((λ ic', (removeIntercept d c ic' (reply ic')).2) <$> pre ++ [ic])
  | (None, effs) =>
      Forall (λ ic', ∀ e', reply ic' = Some e' → notNotFound e' = false) ics
      ∧ effs = mjoin ((λ ic', (removeIntercept d c ic' (reply ic')).2) <$> ics)
               ++ mjoin ((λ kv, stopHandler d (kv.1.1 +:+ "/" +:+ kv.1.2)
                                  (ig_handlerContainer kv.2) (ig_pid kv.2)) <$> ingests)
  end.
Proof.
  unfold ClearIngestsAndIntercepts.
  pose proof (clearIntercepts_spec d c reply ics) as Hclear.
  destruct (clearIntercepts d c reply ics) as [[e|] effs]; [done|].
  by destruct Hclear as [Hall ->].
Qed.

End TrafficMgrHandlersMore.

Module PreparationMore.
Import Errcat PortMatcher Provisioner Preparation.

Lemma interceptError_cases err :
  (∃ code msg, err = StatusError code msg ∧ interceptError err = (inl err, []))
  ∨ ((∀ code msg, err ≠ StatusError code msg)
     ∧ ∃ pi, interceptError err = (inr pi, [LogError ("PrepareIntercept error " +:+ Error err)])
             ∧ prep_Error pi = Error err
             ∧ prep_ErrorCategory pi = GetCategory err).
Proof.
  destruct err as [msg|msg|code msg].
  - right. split; [done|]. by eexists.
  - right. split; [done|]. by eexists.
  - left. by exists code, msg.
Qed.



(** X28. An error of [PrepareIntercept] reaches the user of the client
    with its text and its category, whichever way it travels: when
    [CanIntercept] gets as far as asking the manager and the manager's
    [PrepareIntercept] ends with an error that has a text, it returns no
    prepared intercept and a [TRAFFIC_MANAGER_ERROR] result with the text
    and the category of that error. *)
Theorem manager_error_reaches_client (d : TrafficMgr.Collaborators) (s : TrafficMgr.session)
    (ir ir' : TrafficMgr.CreateInterceptRequest) (err : error)
    (iInfo : option TrafficMgr.PreparedIntercept) (result : option TrafficMgr.InterceptResult)
    (effs : list TrafficMgr.effect) :
  Error err ≠ "" →
  TrafficMgr.CanIntercept d s ir (received (interceptError err).1)
    = (iInfo, result, ir', effs) →
  effs ≠ [] →
  iInfo = None
  ∧ ∃ res, result = Some res
           ∧ TrafficMgr.res_Error res = TrafficMgr.IE_TRAFFIC_MANAGER_ERROR
           ∧ TrafficMgr.res_ErrorText res = Error err
           ∧ TrafficMgr.res_ErrorCategory res = GetCategory err
           ∧ TrafficMgr.res_InterceptInfo res = None.
Proof.
  intros Htext. unfold TrafficMgr.CanIntercept.
  destruct (negb _ && negb _); [by intros [= <- <- <- <-]|].
  destruct (TrafficMgr.ensureNoInterceptConflict d s _); [by intros [= <- <- <- <-]|].
  case_bool_decide; [by intros [= <- <- <- <-]|].
  destruct (TrafficMgr.InterceptProlog d _); [by intros [= <- <- <- <-]|].
  destruct err as [msg|msg|code msg]; simpl in *.
  - rewrite bool_decide_eq_false_2 by done. simpl.
    intros [= <- <- <- <-] _. split; [done|]. by eexists.
  - rewrite bool_decide_eq_false_2 by done. simpl.
    intros [= <- <- <- <-] _. split; [done|]. by eexists.
  - intros [= <- <- <- <-] _. split; [done|]. by eexists.
Qed.

(** The workload of the request does not exist: the user error of the
    traffic-manager arrives as a user error. *)
Lemma manager_error_witness :
  let err := UserError "deployments.apps echo not found" in
  ∃ res,
    (TrafficMgr.CanIntercept TrafficMgr.sampleCollaborators (TrafficMgr.sampleSession ∅)
       (TrafficMgr.sampleRequest (TrafficMgr.sampleSpec "echo" "127.0.0.1" 8080))
       (received (interceptError err).1)).1.1.2 = Some res
    ∧ TrafficMgr.res_ErrorText res = "deployments.apps echo not found"
    ∧ TrafficMgr.res_ErrorCategory res = CatUser.
Proof.
  intros err.
  destruct (TrafficMgr.CanIntercept TrafficMgr.sampleCollaborators (TrafficMgr.sampleSession ∅)
              (TrafficMgr.sampleRequest (TrafficMgr.sampleSpec "echo" "127.0.0.1" 8080))
              (received (interceptError err).1)) as [[[iInfo result] ir'] effs] eqn:Hcan.
  destruct (manager_error_reaches_client _ _ _ _ err _ _ _ ltac:(discriminate) Hcan)
    as (_ & res & -> & _ & Htext & Hcat & _).
  - vm_compute in Hcan. by injection Hcan as _ _ _ <-.
  - by exists res.
Defined.

End PreparationMore.
